(** * christmas-tree: scene mode machine, layout generator and per-frame updater

    A shallow embedding of [src/script.js]: the gesture-driven mode state
    machine ([processGestures]), the layout generator
    ([Particle.calculatePositions]) and the per-frame updater
    ([Particle.update]).

    Modelling conventions.
    - A JavaScript number is a real number: arithmetic is exact, and NaN and
      the infinities do not occur.
    - [Math.random()] is an explicit argument holding the value the call
      returns; its contract is [0 <= u < 1].
    - Every [THREE.Vector3] (and the Euler triple of a mesh) is a mutable
      object: it lives in a heap of cells and is named by a reference, so
      that in-place mutation ([set], [lerp]) and possible aliasing are
      visible.
    - A [TypeError] raised by reading a property of [undefined] is a
      completion of its own, carrying the state reached when it is thrown. *)

From Stdlib Require Import Reals Lra Lia List ZArith Bool Arith.
From Stdlib Require Strings.Byte.
Import ListNotations.
Open Scope R_scope.

(** ** Numbers: the [Math] functions the script calls *)

Module Math.

Definition PI : R := Rtrigo1.PI.

Definition cos (x : R) : R := Rtrigo_def.cos x.

Definition sin (x : R) : R := Rtrigo_def.sin x.

Definition acos (x : R) : R := Ratan.acos x.

(** [Math.hypot(x, y)] *)
Definition hypot (x y : R) : R := sqrt (x * x + y * y).

Definition max (x y : R) : R := Rmax x y.

(** [Math.pow(x, y)] on the domain the script uses it on, [0 <= x] and
    [0 < y]: [Math.pow(0, y)] is [0], and [x ** y] is [exp (y * ln x)] for
    a positive [x]. *)
Definition pow (x y : R) : R := if Req_dec_T x 0 then 0 else Rpower x y.

(** [Math.floor(x)]; the result is an integer, kept in [Z]. *)
Definition floor (x : R) : Z := Int_part x.

End Math.

(** [a[k]] for an integer-valued number [k]: [undefined] ([None]) outside
    [0 .. length - 1]. *)
Definition js_index {A : Type} (a : list A) (k : Z) : option A :=
  if (k <? 0)%Z then None else nth_error a (Z.to_nat k).

(** ** Configuration *)

Module CONFIG.

Definition count : nat := 1500.

Definition dustCount : nat := 2500.

Definition treeHeight : R := 24.

Definition treeRadius : R := 8.

End CONFIG.

(** ** Vectors and the heap of vector objects *)

Module Vector3.

Record t : Type := mk { x : R; y : R; z : R }.

(** [a.lerp(v, alpha)]: the new value of [a]. *)
Definition lerp (a v : t) (alpha : R) : t :=
  mk (x a + (x v - x a) * alpha)
     (y a + (y v - y a) * alpha)
     (z a + (z v - z a) * alpha).

Definition zero : t := mk 0 0 0.

End Vector3.

Definition ref : Type := nat.

Record Heap : Type := mkHeap { cell : ref -> Vector3.t; next : ref }.

(** [new THREE.Vector3(...)]: a fresh cell. *)
Definition alloc (v : Vector3.t) (h : Heap) : ref * Heap :=
  (next h,
   mkHeap (fun r => if Nat.eqb r (next h) then v else cell h r) (S (next h))).

(** In-place mutation of the object at [r]. *)
Definition store (r : ref) (v : Vector3.t) (h : Heap) : Heap :=
  mkHeap (fun r' => if Nat.eqb r' r then v else cell h r') (next h).

(** ** Meshes, particles, landmarks and the global state *)

Module Mesh.

(** A [THREE.Object3D]: [position], [rotation] (Euler angles) and [scale]
    are objects of their own, fixed for the life of the mesh; [id] is the
    unique object id three.js hands out. Reference identity ([===]) of two
    meshes is equality of their records. *)
Record t : Type := mk { id : nat; position : ref; rotation : ref; scale : ref }.

Definition eqb (a b : t) : bool :=
  Nat.eqb (id a) (id b) && Nat.eqb (position a) (position b)
  && Nat.eqb (rotation a) (rotation b) && Nat.eqb (scale a) (scale b).

End Mesh.

Inductive Mode : Type := TREE | SCATTER | FOCUS.

Definition Mode_eqb (a b : Mode) : bool :=
  match a, b with
  | TREE, TREE | SCATTER, SCATTER | FOCUS, FOCUS => true
  | _, _ => false
  end.

Inductive PType : Type := BOX | GOLD_BOX | GOLD_SPHERE | RED | CANE | DUST | PHOTO.

Definition isPHOTO (ty : PType) : bool :=
  match ty with PHOTO => true | _ => false end.

Module Particle.

Record t : Type := mk {
  mesh : Mesh.t;
  type : PType;
  isDust : bool;
  posTree : ref;
  posScatter : ref;
  baseScale : R;
  spinSpeed : ref
}.

End Particle.

Module Lm.

(** A normalized landmark; only [x] and [y] are read. *)
Record t : Type := mk { x : R; y : R }.

End Lm.

(** The detector's result: [landmarks] may be missing ([undefined]). *)
Record Result : Type := mkResult { landmarks : option (list (list Lm.t)) }.

Module Hand.

Record t : Type := mk { detected : bool; x : R; y : R }.

End Hand.

Module STATE.

Record t : Type := mk {
  mode : Mode;
  focusIndex : Z;
  focusTarget : option Mesh.t;
  hand : Hand.t;
  rotation : R * R
}.

(** The object literal the script starts from. *)
Definition init : t := mk TREE (-1)%Z None (Hand.mk false 0 0) (0, 0).

Definition set_mode (m : Mode) (s : t) : t :=
  mk m (focusIndex s) (focusTarget s) (hand s) (rotation s).

Definition set_focusTarget (f : option Mesh.t) (s : t) : t :=
  mk (mode s) (focusIndex s) f (hand s) (rotation s).

Definition set_hand_detected (b : bool) (s : t) : t :=
  mk (mode s) (focusIndex s) (focusTarget s)
     (Hand.mk b (Hand.x (hand s)) (Hand.y (hand s))) (rotation s).

Definition set_hand_x (v : R) (s : t) : t :=
  mk (mode s) (focusIndex s) (focusTarget s)
     (Hand.mk (Hand.detected (hand s)) v (Hand.y (hand s))) (rotation s).

Definition set_hand_y (v : R) (s : t) : t :=
  mk (mode s) (focusIndex s) (focusTarget s)
     (Hand.mk (Hand.detected (hand s)) (Hand.x (hand s)) v) (rotation s).

End STATE.

(** ** A state-and-exception monad for code that mutates [STATE] *)

Inductive Completion (A : Type) : Type :=
| Normal (a : A) (s : STATE.t)
| TypeError (s : STATE.t).

Arguments Normal {A} a s.
Arguments TypeError {A} s.

Definition M (A : Type) : Type := STATE.t -> Completion A.

Definition ret {A : Type} (a : A) : M A := fun s => Normal a s.

Definition bind {A B : Type} (m : M A) (k : A -> M B) : M B :=
  fun s => match m s with
           | Normal a s' => k a s'
           | TypeError s' => TypeError s'
           end.

Definition get : M STATE.t := fun s => Normal s s.

Definition modify (f : STATE.t -> STATE.t) : M unit := fun s => Normal tt (f s).

Definition throw {A : Type} : M A := fun s => TypeError s.

(** Reading a property of a value that may be [undefined]: a [TypeError]
    when it is. *)
Definition prop_of {A : Type} (o : option A) : M A :=
  match o with
  | Some v => ret v
  | None => throw
  end.

(** Reading a property of [a[k]]. *)
Definition at_ {A : Type} (a : list A) (k : Z) : M A := prop_of (js_index a k).

Notation "x <- m ;; k" := (bind m (fun x => k))
  (at level 61, m at next level, right associativity).
Notation "m ;;; k" := (bind m (fun _ => k))
  (at level 61, right associativity).

(** [a.reduce(f, init)] with an effectful callback. *)
Fixpoint reduce {A B : Type} (f : B -> A -> M B) (a : list A) (acc : B) : M B :=
  match a with
  | [] => ret acc
  | i :: rest => acc' <- f acc i ;; reduce f rest acc'
  end.

(** The state a completion ends in. *)
Definition final {A : Type} (c : Completion A) : STATE.t :=
  match c with
  | Normal _ s => s
  | TypeError s => s
  end.

(** ** processGestures *)

(** [rnd] is the value of the one [Math.random()] call (made only when the
    mode moves to FOCUS and a photo exists); [particleSystem] is the global
    array at the time of the call. *)
Definition processGestures (rnd : R) (particleSystem : list Particle.t)
    (result : Result) : M unit :=
  match landmarks result with
  | Some (lm :: _) =>
      modify (STATE.set_hand_detected true) ;;;
      lm9 <- at_ lm 9 ;;
      modify (STATE.set_hand_x ((Lm.x lm9 - 0.5) * 2)) ;;;
      lm9' <- at_ lm 9 ;;
      modify (STATE.set_hand_y ((Lm.y lm9' - 0.5) * 2)) ;;;
      lm4 <- at_ lm 4 ;;
      lm8 <- at_ lm 8 ;;
      let pinchDist := Math.hypot (Lm.x lm4 - Lm.x lm8) (Lm.y lm4 - Lm.y lm8) in
      let wrist := js_index lm 0 in
      sum <- reduce
               (fun sum i =>
                  p <- at_ lm i ;;
                  w <- prop_of wrist ;;
                  ret (sum + Math.hypot (Lm.x p - Lm.x w) (Lm.y p - Lm.y w)))
               [8; 12; 16; 20]%Z 0 ;;
      let avgDist := sum / 4 in
      if Rlt_dec pinchDist 0.05 then
        S <- get ;;
        if Mode_eqb (STATE.mode S) FOCUS then ret tt
        else
          modify (STATE.set_mode FOCUS) ;;;
          let photos :=
            filter (fun p => isPHOTO (Particle.type p)) particleSystem in
          if Nat.eqb (length photos) 0 then ret tt
          else
            p <- at_ photos (Math.floor (rnd * INR (length photos))) ;;
            modify (STATE.set_focusTarget (Some (Particle.mesh p)))
      else if Rlt_dec avgDist 0.25 then
        modify (STATE.set_mode TREE) ;;;
        modify (STATE.set_focusTarget None)
      else if Rgt_dec avgDist 0.4 then
        modify (STATE.set_mode SCATTER) ;;;
        modify (STATE.set_focusTarget None)
      else ret tt
  | _ => modify (STATE.set_hand_detected false)
  end.

(** The detection loop: one [processGestures] call per detection frame. A
    call that throws leaves the state as it was when the exception was
    raised, and the next frame starts from there. *)
Record Frame : Type := mkFrame {
  frame_rnd : R;
  frame_particles : list Particle.t;
  frame_result : Result
}.

Definition step (S : STATE.t) (f : Frame) : STATE.t :=
  final (processGestures (frame_rnd f) (frame_particles f) (frame_result f) S).

Definition run (fs : list Frame) (S : STATE.t) : STATE.t := fold_left step fs S.

(** ** In-place vector operations on the heap *)

Definition setx (r : ref) (v : R) (h : Heap) : Heap :=
  store r (Vector3.mk v (Vector3.y (cell h r)) (Vector3.z (cell h r))) h.

Definition sety (r : ref) (v : R) (h : Heap) : Heap :=
  store r (Vector3.mk (Vector3.x (cell h r)) v (Vector3.z (cell h r))) h.

Definition setz (r : ref) (v : R) (h : Heap) : Heap :=
  store r (Vector3.mk (Vector3.x (cell h r)) (Vector3.y (cell h r)) v) h.

(** [r.set(a, b, c)] *)
Definition set (r : ref) (a b c : R) (h : Heap) : Heap :=
  setz r c (sety r b (setx r a h)).

(** The argument of [lerp]: an object of the heap, or a temporary made by
    [new THREE.Vector3(...)] that nothing else refers to. *)
Inductive Operand : Type :=
| Obj (r : ref)
| Tmp (v : Vector3.t).

Definition rd (h : Heap) (o : Operand) : Vector3.t :=
  match o with
  | Obj r => cell h r
  | Tmp v => v
  end.

(** [r.lerp(v, alpha)] as three.js writes it: three assignments
    [this.x += (v.x - this.x) * alpha], each reading [v] afresh. *)
Definition lerp_at (r : ref) (v : Operand) (alpha : R) (h : Heap) : Heap :=
  let h1 := setx r (Vector3.x (cell h r)
                    + (Vector3.x (rd h v) - Vector3.x (cell h r)) * alpha) h in
  let h2 := sety r (Vector3.y (cell h1 r)
                    + (Vector3.y (rd h1 v) - Vector3.y (cell h1 r)) * alpha) h1 in
  setz r (Vector3.z (cell h2 r)
          + (Vector3.z (rd h2 v) - Vector3.z (cell h2 r)) * alpha) h2.

(** [THREE.MathUtils.lerp(x, y, t)] *)
Definition MathUtils_lerp (x y t : R) : R := (1 - t) * x + t * y.

(** ** The Particle class *)

(** [calculatePositions()]; [u1 .. u6] are the six [Math.random()] values in
    the order the method draws them. *)
Definition calculatePositions (u1 u2 u3 u4 u5 u6 : R) (this : Particle.t)
    (h : Heap) : Heap :=
  let hh := CONFIG.treeHeight in
  let t := Math.pow u1 0.8 in
  let y := (t * hh) - (hh / 2) in
  let rMax := Math.max 0.5 (CONFIG.treeRadius * (1.0 - t)) in
  let angle := t * 50 * Math.PI + u2 * Math.PI in
  let r := rMax * (0.8 + u3 * 0.4) in
  let h1 := set (Particle.posTree this)
                (Math.cos angle * r) y (Math.sin angle * r) h in
  let rScatter := if Particle.isDust this then 12 + u4 * 20 else 8 + u4 * 12 in
  let theta := u5 * Math.PI * 2 in
  let phi := Math.acos (2 * u6 - 1) in
  set (Particle.posScatter this)
      (rScatter * Math.sin phi * Math.cos theta)
      (rScatter * Math.sin phi * Math.sin theta)
      (rScatter * Math.cos phi) h1.

(** [new Particle(mesh, type, isDust)]; [s1 s2 s3] are the three draws of
    the spin speed, [u1 .. u6] those of [calculatePositions]. *)
Definition new_Particle (s1 s2 s3 u1 u2 u3 u4 u5 u6 : R)
    (mesh : Mesh.t) (type : PType) (isDust : bool) (h : Heap)
    : Particle.t * Heap :=
  let '(posTree, h1) := alloc Vector3.zero h in
  let '(posScatter, h2) := alloc Vector3.zero h1 in
  let baseScale := Vector3.x (cell h2 (Mesh.scale mesh)) in
  let speedMult := if isPHOTO type then 0.3 else 2.0 in
  let '(spinSpeed, h3) :=
    alloc (Vector3.mk ((s1 - 0.5) * speedMult)
                      ((s2 - 0.5) * speedMult)
                      ((s3 - 0.5) * speedMult)) h2 in
  let this :=
    Particle.mk mesh type isDust posTree posScatter baseScale spinSpeed in
  (this, calculatePositions u1 u2 u3 u4 u5 u6 this h3).

(** The tree layout's horizontal radius and the scatter layout's distance
    from the origin, read off the stored targets. *)
Definition treeRadiusOf (v : Vector3.t) : R :=
  sqrt (Vector3.x v * Vector3.x v + Vector3.z v * Vector3.z v).

Definition norm (v : Vector3.t) : R :=
  sqrt (Vector3.x v * Vector3.x v + Vector3.y v * Vector3.y v
        + Vector3.z v * Vector3.z v).

Section Update.

(** What [update] takes from three.js and from the script's globals. The
    matrix type, its inverse and its action on a vector belong to three.js;
    [lookAt G h m target] is the Euler triple three.js leaves in
    [m.rotation] after [m.lookAt(target)]. *)
Variable Matrix4 : Type.
Variable invert : Matrix4 -> Matrix4.
Variable applyMatrix4 : Vector3.t -> Matrix4 -> Vector3.t.

Record Globals : Type := mkGlobals {
  mainGroup_matrixWorld : Matrix4;
  camera_position : Vector3.t;
  clock_elapsedTime : R
}.

Variable lookAt : Globals -> Heap -> Mesh.t -> Vector3.t -> Vector3.t.

(** [this.mesh === focusTargetMesh] *)
Definition is_focus (this : Particle.t) (focusTargetMesh : option Mesh.t) : bool :=
  match focusTargetMesh with
  | Some m => Mesh.eqb (Particle.mesh this) m
  | None => false
  end.

(** The interpolation target [update] picks. *)
Definition target_of (G : Globals) (mode : Mode)
    (focusTargetMesh : option Mesh.t) (this : Particle.t) : Operand :=
  let target :=
    if Mode_eqb mode SCATTER then Obj (Particle.posScatter this)
    else Obj (Particle.posTree this) in
  if Mode_eqb mode FOCUS then
    if is_focus this focusTargetMesh then
      let invMatrix := invert (mainGroup_matrixWorld G) in
      Tmp (applyMatrix4 (Vector3.mk 0 2 35) invMatrix)
    else Obj (Particle.posScatter this)
  else target.

(** [this.update(dt, mode, focusTargetMesh)]. The method assigns to no
    field of [this]; the object is returned beside the heap it leaves. *)
Definition update (G : Globals) (dt : R) (mode : Mode)
    (focusTargetMesh : option Mesh.t) (this : Particle.t) (h : Heap)
    : Particle.t * Heap :=
  let m := Particle.mesh this in
  let target := target_of G mode focusTargetMesh this in
  let lerpSpeed :=
    if Mode_eqb mode FOCUS && is_focus this focusTargetMesh then 5.0 else 2.0 in
  let h1 := lerp_at (Mesh.position m) target (lerpSpeed * dt) h in
  let rot := Mesh.rotation m in
  let spin := Particle.spinSpeed this in
  let h2 :=
    if Mode_eqb mode SCATTER then
      let a := setx rot (Vector3.x (cell h1 rot) + Vector3.x (cell h1 spin) * dt) h1 in
      let b := sety rot (Vector3.y (cell a rot) + Vector3.y (cell a spin) * dt) a in
      setz rot (Vector3.z (cell b rot) + Vector3.z (cell b spin) * dt) b
    else if Mode_eqb mode TREE then
      let a := setx rot (MathUtils_lerp (Vector3.x (cell h1 rot)) 0 dt) h1 in
      let b := setz rot (MathUtils_lerp (Vector3.z (cell a rot)) 0 dt) a in
      sety rot (Vector3.y (cell b rot) + 0.5 * dt) b
    else h1 in
  let h3 :=
    if Mode_eqb mode FOCUS && is_focus this focusTargetMesh
    then store rot (lookAt G h2 m (camera_position G)) h2
    else h2 in
  let s :=
    if Particle.isDust this then
      if Mode_eqb mode TREE then 0
      else Particle.baseScale this
           * (0.8 + 0.4 * Math.sin (clock_elapsedTime G * 4
                                    + INR (Mesh.id m)))
    else if Mode_eqb mode SCATTER && isPHOTO (Particle.type this) then
      Particle.baseScale this * 2.5
    else if Mode_eqb mode FOCUS then
      if is_focus this focusTargetMesh then 4.5
      else Particle.baseScale this * 0.8
    else Particle.baseScale this in
  (this, lerp_at (Mesh.scale m) (Tmp (Vector3.mk s s s)) (4 * dt) h3).

(** [particleSystem.forEach(p => p.update(dt, STATE.mode, STATE.focusTarget))] *)
Fixpoint update_all (G : Globals) (dt : R) (mode : Mode)
    (focusTargetMesh : option Mesh.t) (ps : list Particle.t) (h : Heap)
    : list Particle.t * Heap :=
  match ps with
  | [] => ([], h)
  | p :: rest =>
      let '(p', h1) := update G dt mode focusTargetMesh p h in
      let '(rest', h2) := update_all G dt mode focusTargetMesh rest h1 in
      (p' :: rest', h2)
  end.

(** Successive frames for one particle, the mode and the focus target
    staying the same: each frame has its own globals and elapsed time. *)
Fixpoint updates (frames : list (Globals * R)) (mode : Mode)
    (focusTargetMesh : option Mesh.t) (this : Particle.t) (h : Heap)
    : Particle.t * Heap :=
  match frames with
  | [] => (this, h)
  | (G, dt) :: rest =>
      let '(this', h1) := update G dt mode focusTargetMesh this h in
      updates rest mode focusTargetMesh this' h1
  end.

End Update.

(** ** Building the scene *)

(** [new THREE.Group()] (an [Object3D]): fresh [position], [rotation] and
    [scale] objects, the scale being [(1, 1, 1)]. *)
Definition new_Object3D (id : nat) (h : Heap) : Mesh.t * Heap :=
  let '(position, h1) := alloc Vector3.zero h in
  let '(rotation, h2) := alloc Vector3.zero h1 in
  let '(scale, h3) := alloc (Vector3.mk 1 1 1) h2 in
  (Mesh.mk id position rotation scale, h3).

(** [addPhotoToScene(texture)], as far as the particle system goes: a group
    scaled to 0.8 and a PHOTO particle pushed for it. [id] is the object id
    three.js gives the group. *)
Definition addPhotoToScene (id : nat) (s1 s2 s3 u1 u2 u3 u4 u5 u6 : R)
    (particleSystem : list Particle.t) (h : Heap)
    : list Particle.t * Heap :=
  let '(group, h1) := new_Object3D id h in
  let h2 := set (Mesh.scale group) 0.8 0.8 0.8 h1 in
  let '(p, h3) := new_Particle s1 s2 s3 u1 u2 u3 u4 u5 u6 group PHOTO false h2 in
  (particleSystem ++ [p], h3).

(** ** Ownership of cells *)

Definition mesh_cells (m : Mesh.t) : list ref :=
  [Mesh.position m; Mesh.rotation m; Mesh.scale m].

Definition target_cells (p : Particle.t) : list ref :=
  [Particle.posTree p; Particle.posScatter p; Particle.spinSpeed p].

(** No layout or spin vector of [p] is one of the vectors of [q]'s mesh. *)
Definition separate (p q : Particle.t) : Prop :=
  forall r, In r (target_cells p) -> ~ In r (mesh_cells (Particle.mesh q)).

(** What the constructor guarantees: the three vectors of the mesh are
    distinct objects, and none of them is a vector the particle made. *)
Definition well_formed (p : Particle.t) : Prop :=
  NoDup (mesh_cells (Particle.mesh p)) /\ separate p p.

(** Every vector of [p] and of its mesh is an object of the heap. *)
Definition allocated (p : Particle.t) (h : Heap) : Prop :=
  forall r, In r (mesh_cells (Particle.mesh p) ++ target_cells p) ->
            (r < next h)%nat.

(** The attributes of a particle that are fixed at construction. *)
Record Fixed : Type := mkFixed {
  fixed_type : PType;
  fixed_isDust : bool;
  fixed_baseScale : R;
  fixed_posTree : Vector3.t;
  fixed_posScatter : Vector3.t;
  fixed_spinSpeed : Vector3.t
}.

Definition fixed_of (p : Particle.t) (h : Heap) : Fixed :=
  mkFixed (Particle.type p) (Particle.isDust p) (Particle.baseScale p)
          (cell h (Particle.posTree p)) (cell h (Particle.posScatter p))
          (cell h (Particle.spinSpeed p)).

(** A draw of [Math.random()]. *)
Definition draw (u : R) : Prop := 0 <= u < 1.

(** ** The measures the gesture classifier is specified by *)

(** Landmark [i] of a detected hand. *)
Definition landmark (lm : list Lm.t) (i : nat) : Lm.t := nth i lm (Lm.mk 0 0).

(** Euclidean distance between two landmarks of the image plane. *)
Definition dist (a b : Lm.t) : R :=
  Math.hypot (Lm.x a - Lm.x b) (Lm.y a - Lm.y b).

(** Pinch distance: thumb tip (4) to index tip (8). *)
Definition pinchDistance (lm : list Lm.t) : R :=
  dist (landmark lm 4) (landmark lm 8).

(** Openness: mean distance from the wrist (0) to the fingertips 8, 12, 16
    and 20. *)
Definition avgDistance (lm : list Lm.t) : R :=
  (dist (landmark lm 8) (landmark lm 0) + dist (landmark lm 12) (landmark lm 0)
   + dist (landmark lm 16) (landmark lm 0) + dist (landmark lm 20) (landmark lm 0))
  / 4.

(** The detector hands out the 21 points of its hand topology. *)
Definition full_hand (lm : list Lm.t) : Prop := (21 <= length lm)%nat.

(** The photo particles, as [processGestures] filters them. *)
Definition photosOf (ps : list Particle.t) : list Particle.t :=
  filter (fun p => isPHOTO (Particle.type p)) ps.

(** The state after the hand signal has been written. *)
Definition with_hand (lm : list Lm.t) (S : STATE.t) : STATE.t :=
  STATE.set_hand_y ((Lm.y (landmark lm 9) - 0.5) * 2)
    (STATE.set_hand_x ((Lm.x (landmark lm 9) - 0.5) * 2)
       (STATE.set_hand_detected true S)).

(** The invariant of the mode machine. *)
Definition focus_inv (S : STATE.t) : Prop :=
  STATE.focusTarget S <> None -> STATE.mode S = FOCUS.

(** What one call may do to the pair of mode and focus target, on every
    input and also when it throws. *)
Inductive mode_change (S S' : STATE.t) : Prop :=
| mc_keep :
    STATE.mode S' = STATE.mode S -> STATE.focusTarget S' = STATE.focusTarget S ->
    mode_change S S'
| mc_focus :
    STATE.mode S' = FOCUS -> mode_change S S'
| mc_clear :
    STATE.focusTarget S' = None -> mode_change S S'.

(** ** Sample inputs *)

(** A hand lying on the horizontal axis: wrist and joints at the origin,
    thumb tip at [(thumb, 0)], the four fingertips at [(tip, 0)]. *)
Definition hand_with (thumb tip : R) : list Lm.t :=
  let o := Lm.mk 0 0 in
  let f := Lm.mk tip 0 in
  [o; o; o; o; Lm.mk thumb 0; o; o; o; f; o; o; o; f; o; o; o; f; o; o; o; f].

Definition mesh0 : Mesh.t := Mesh.mk 7%nat 0%nat 1%nat 2%nat.

Definition photo0 : Particle.t := Particle.mk mesh0 PHOTO false 3%nat 4%nat 0.8 5%nat.

Definition one_hand (lm : list Lm.t) : Result := mkResult (Some [lm]).

(** Globals over a one-point matrix type, for the sample runs. *)
Definition globals0 : Globals unit :=
  mkGlobals unit tt (Vector3.mk 0 2 50) 0.

(** A heap holding the three vectors of [mesh0], all zero. *)
Definition heap0 : Heap := mkHeap (fun _ => Vector3.zero) 3%nat.

(** ** The rest of the script: building the scene *)

(** Difference of two vectors, for distances between a position and its
    target. *)
Definition vsub (a b : Vector3.t) : Vector3.t :=
  Vector3.mk (Vector3.x a - Vector3.x b) (Vector3.y a - Vector3.y b)
             (Vector3.z a - Vector3.z b).

(** All the vectors of a particle: those of its mesh, then those the
    constructor made. *)
Definition cells (p : Particle.t) : list ref :=
  mesh_cells (Particle.mesh p) ++ target_cells p.

(** The particle system owns its vectors: no vector belongs to two
    particles or twice to one, and all of them are objects of the heap. *)
Definition scene_ok (ps : list Particle.t) (h : Heap) : Prop :=
  NoDup (flat_map cells ps) /\
  Forall (fun r => (r < next h)%nat) (flat_map cells ps).

(** The type [createParticles] gives a decoration, from its first draw. *)
Definition decoration_type (rand : R) : PType :=
  if Rlt_dec rand 0.4 then BOX
  else if Rlt_dec rand 0.7 then GOLD_BOX
  else if Rlt_dec rand 0.92 then GOLD_SPHERE
  else if Rlt_dec rand 0.97 then RED
  else CANE.

(** One pass of the loop of [createParticles]. [rnd] is the sequence of
    values [Math.random()] returns and [k] the number of values drawn so
    far; [id] is the object id three.js gives the new mesh. A pass draws 14
    values. *)
Definition createParticle (rnd : nat -> R) (k id : nat) (h : Heap)
    : Particle.t * Heap :=
  let rand := rnd k in
  let type := decoration_type rand in
  let '(mesh, h1) := new_Object3D id h in
  let s := 0.4 + rnd (k + 1)%nat * 0.5 in
  let h2 := set (Mesh.scale mesh) s s s h1 in
  let h3 := set (Mesh.rotation mesh) (rnd (k + 2)%nat * 6)
                (rnd (k + 3)%nat * 6) (rnd (k + 4)%nat * 6) h2 in
  new_Particle (rnd (k + 5)%nat) (rnd (k + 6)%nat) (rnd (k + 7)%nat)
               (rnd (k + 8)%nat) (rnd (k + 9)%nat) (rnd (k + 10)%nat)
               (rnd (k + 11)%nat) (rnd (k + 12)%nat) (rnd (k + 13)%nat)
               mesh type false h3.

(** [for (let i = 0; i < n; i++) { ...; particleSystem.push(...) }] *)
Fixpoint createParticles_loop (n : nat) (rnd : nat -> R) (k id : nat)
    (particleSystem : list Particle.t) (h : Heap) : list Particle.t * Heap :=
  match n with
  | O => (particleSystem, h)
  | S n' =>
      let '(p, h1) := createParticle rnd k id h in
      createParticles_loop n' rnd (k + 14) (S id) (particleSystem ++ [p]) h1
  end.

(** The star: its mesh and the emissive intensity of its material. *)
Record Star : Type := mkStar { starMesh : Mesh.t; emissiveIntensity : R }.

(** [createStar()], as far as the mesh and the material go. *)
Definition createStar (id : nat) (h : Heap) : Star * Heap :=
  let '(m, h1) := new_Object3D id h in
  let h2 := setz (Mesh.rotation m) (Math.PI / 2) h1 in
  let h3 := set (Mesh.position m) 0 (CONFIG.treeHeight / 2 + 1.5) 0 h2 in
  (mkStar m 1.5, h3).

Definition createParticles (rnd : nat -> R) (k id : nat)
    (particleSystem : list Particle.t) (h : Heap)
    : list Particle.t * Star * Heap :=
  let '(ps, h1) :=
    createParticles_loop CONFIG.count rnd k id particleSystem h in
  let '(star, h2) := createStar (id + CONFIG.count) h1 in
  (ps, star, h2).

(** One pass of the loop of [createDust]; it draws 10 values. *)
Definition createDustParticle (rnd : nat -> R) (k id : nat) (h : Heap)
    : Particle.t * Heap :=
  let '(mesh, h1) := new_Object3D id h in
  let s := 0.5 + rnd k in
  let h2 := set (Mesh.scale mesh) s s s h1 in
  new_Particle (rnd (k + 1)%nat) (rnd (k + 2)%nat) (rnd (k + 3)%nat)
               (rnd (k + 4)%nat) (rnd (k + 5)%nat) (rnd (k + 6)%nat)
               (rnd (k + 7)%nat) (rnd (k + 8)%nat) (rnd (k + 9)%nat)
               mesh DUST true h2.

Fixpoint createDust_loop (n : nat) (rnd : nat -> R) (k id : nat)
    (particleSystem : list Particle.t) (h : Heap) : list Particle.t * Heap :=
  match n with
  | O => (particleSystem, h)
  | S n' =>
      let '(p, h1) := createDustParticle rnd k id h in
      createDust_loop n' rnd (k + 10) (S id) (particleSystem ++ [p]) h1
  end.

Definition createDust (rnd : nat -> R) (k id : nat)
    (particleSystem : list Particle.t) (h : Heap) : list Particle.t * Heap :=
  createDust_loop CONFIG.dustCount rnd k id particleSystem h.

(** ** The rest of the script: the star pulse and the background *)

(** An entry of the [Uint8Array] the analyser fills, as a number. *)
Definition byte_value (b : Byte.byte) : R := IZR (Z.of_N (Byte.to_N b)).

(** [for (let i = 0; i < n; i++) bass += dataArray[i]], from index [i] on.
    Reading past the end of the array gives [undefined], and the sum is
    then not a number: [None]. *)
Fixpoint sum_bins (dataArray : list Byte.byte) (i n : nat) (bass : R)
    : option R :=
  match n with
  | O => Some bass
  | S n' =>
      match nth_error dataArray i with
      | Some b => sum_bins dataArray (S i) n' (bass + byte_value b)
      | None => None
      end
  end.

(** [updateStarPulse()]. [audio] is [None] while there is no analyser, and
    otherwise holds what [getByteFrequencyData] has written to [dataArray];
    [star] is [None] before [createStar]. The result is [None] when the
    values written are not numbers. *)
Definition updateStarPulse (audio : option (list Byte.byte))
    (star : option Star) (h : Heap) : option (option Star * Heap) :=
  match audio, star with
  | Some dataArray, Some st =>
      match sum_bins dataArray 0 10 0 with
      | Some sum =>
          let bass := sum / 10 in
          let e := MathUtils_lerp (emissiveIntensity st)
                     (1.0 + (bass / 255) * 8.0) 0.1 in
          let s := MathUtils_lerp
                     (Vector3.x (cell h (Mesh.scale (starMesh st))))
                     (1.0 + (bass / 255) * 0.5) 0.2 in
          Some (Some (mkStar (starMesh st) e),
                set (Mesh.scale (starMesh st)) s s s h)
      | None => None
      end
  | _, _ => Some (star, h)
  end.

Module Color.

(** A [THREE.Color]. *)
Record t : Type := mk { r : R; g : R; b : R }.

(** [a.lerp(c, alpha)]: the new value of [a]. *)
Definition lerp (a c : t) (alpha : R) : t :=
  mk (r a + (r c - r a) * alpha)
     (g a + (g c - g a) * alpha)
     (b a + (b c - b a) * alpha).

End Color.

(** An object of the scene graph, as [scene.traverse] sees it: whether it
    is an ambient light, and its intensity. *)
Record SceneObject : Type := mkObject { isAmbientLight : bool; intensity : R }.

(** What [updateDynamicBackground] works on: the background and the fog
    colour of the scene (either may be missing), the exposure of the
    renderer, and the objects of the scene graph in the order
    [scene.traverse] visits them. *)
Record Stage : Type := mkStage {
  background : option Color.t;
  fog_color : option Color.t;
  toneMappingExposure : R;
  objects : list SceneObject
}.

(** A sample stage with the values of [initThree] and [setupLights]:
    exposure 1.2, the ambient light of intensity 0.6 and the four other
    lights. *)
Definition initial_stage (bg fogc : Color.t) : Stage :=
  mkStage (Some bg) (Some fogc) 1.2
          [mkObject true 0.6; mkObject false 2; mkObject false 1200;
           mkObject false 600; mkObject false 0.8].

Section Background.

(** [new THREE.Color(hex)], from three.js. *)
Variable Color_hex : Z -> Color.t.

(** [updateDynamicBackground()]; [hours] is [new Date().getHours()]. *)
Definition updateDynamicBackground (hours : Z) (st : Stage) : Stage :=
  let isDay := (6 <=? hours)%Z && (hours <? 18)%Z in
  let bgColor := Color_hex (if isDay then 0x101a2d%Z else 0x000000%Z) in
  let fogColor := Color_hex (if isDay then 0x0a121e%Z else 0x010103%Z) in
  let ambient := if isDay then 0.7 else 0.2 in
  let exposure := if isDay then 1.4 else 1.0 in
  mkStage
    (match background st with
     | Some c => Some (Color.lerp c bgColor 0.02)
     | None => None
     end)
    (match fog_color st with
     | Some c => Some (Color.lerp c fogColor 0.02)
     | None => None
     end)
    (MathUtils_lerp (toneMappingExposure st) exposure 0.02)
    (map (fun c =>
            if isAmbientLight c
            then mkObject (isAmbientLight c)
                          (MathUtils_lerp (intensity c) ambient 0.02)
            else c)
         (objects st)).

(** Successive frames, each at its own hour. *)
Definition backgrounds (hours : list Z) (st : Stage) : Stage :=
  fold_left (fun st hr => updateDynamicBackground hr st) hours st.

End Background.

(** ** The rest of the script: the frame loop and the detection loop *)

Definition STATE_set_rotation (r : R * R) (s : STATE.t) : STATE.t :=
  STATE.mk (STATE.mode s) (STATE.focusIndex s) (STATE.focusTarget s)
           (STATE.hand s) r.

(** The rotation step of [animate]; [STATE.rotation] is the pair of
    [rotation.x] and [rotation.y]. *)
Definition rotate (dt : R) (S : STATE.t) : STATE.t :=
  let rx := fst (STATE.rotation S) in
  let ry := snd (STATE.rotation S) in
  if Mode_eqb (STATE.mode S) SCATTER && Hand.detected (STATE.hand S) then
    let ry' := ry + ((Hand.x (STATE.hand S) * Math.PI * 0.9) - ry) * 3.0 * dt in
    let rx' := rx + ((Hand.y (STATE.hand S) * Math.PI * 0.25) - rx) * 3.0 * dt in
    STATE_set_rotation (rx', ry') S
  else
    let ry' := ry + (if Mode_eqb (STATE.mode S) TREE then 0.3 else 0.1) * dt in
    let rx' := rx + (0 - rx) * 2.0 * dt in
    STATE_set_rotation (rx', ry') S.

(** Everything [animate] reads and writes. *)
Record World : Type := mkWorld {
  W_STATE : STATE.t;
  W_particleSystem : list Particle.t;
  W_heap : Heap;
  W_stage : Stage;
  W_star : option Star;
  W_mainGroup : Mesh.t
}.

Section Animate.

Variable Matrix4 : Type.
Variable invert : Matrix4 -> Matrix4.
Variable applyMatrix4 : Vector3.t -> Matrix4 -> Vector3.t.
Variable lookAt : Globals Matrix4 -> Heap -> Mesh.t -> Vector3.t -> Vector3.t.
Variable Color_hex : Z -> Color.t.

(** [animate()], one frame. [dt] is [clock.getDelta()], [G] holds the
    world matrix of the main group as the last render left it, the camera
    position and the elapsed time of the clock; [hours] and [audio] are as
    for [updateDynamicBackground] and [updateStarPulse]. Rendering itself
    is three.js's. *)
Definition animate (G : Globals Matrix4) (dt : R) (hours : Z)
    (audio : option (list Byte.byte)) (w : World) : option World :=
  let stage := updateDynamicBackground Color_hex hours (W_stage w) in
  match updateStarPulse audio (W_star w) (W_heap w) with
  | Some (star, h1) =>
      let S := rotate dt (W_STATE w) in
      let h2 := sety (Mesh.rotation (W_mainGroup w)) (snd (STATE.rotation S)) h1 in
      let h3 := setx (Mesh.rotation (W_mainGroup w)) (fst (STATE.rotation S)) h2 in
      let '(ps, h4) :=
        update_all Matrix4 invert applyMatrix4 lookAt G dt (STATE.mode S)
                   (STATE.focusTarget S) (W_particleSystem w) h3 in
      Some (mkWorld S ps h4 stage star (W_mainGroup w))
  | None => None
  end.

End Animate.

(** [predictWebcam()], as far as [STATE] and [lastVideoTime] go; the
    preview canvas is not modelled. [handLandmarker] is [None] while there
    is no landmarker and otherwise holds the result of [detectForVideo] on
    the frame. The value returned is the new [lastVideoTime]. *)
Definition predictWebcam (video_currentTime : R)
    (handLandmarker : option Result) (rnd : R)
    (particleSystem : list Particle.t) (lastVideoTime : R) : M R :=
  if Req_dec_T video_currentTime lastVideoTime then ret lastVideoTime
  else
    match handLandmarker with
    | Some result =>
        processGestures rnd particleSystem result ;;; ret video_currentTime
    | None => ret video_currentTime
    end.

Record VideoFrame : Type := mkVideoFrame {
  vf_currentTime : R;
  vf_handLandmarker : option Result;
  vf_rnd : R;
  vf_particles : list Particle.t
}.

(** The detection loop: [predictWebcam] schedules itself again with
    [requestAnimationFrame] as its last statement, so a call that throws
    ends the loop. *)
Fixpoint detection_loop (frames : list VideoFrame) (lastVideoTime : R)
    (S : STATE.t) : STATE.t :=
  match frames with
  | [] => S
  | f :: rest =>
      match predictWebcam (vf_currentTime f) (vf_handLandmarker f) (vf_rnd f)
                          (vf_particles f) lastVideoTime S with
      | Normal t S' => detection_loop rest t S'
      | TypeError S' => S'
      end
  end.

(** The factor by which a run of frames shrinks the offset of a position
    from its target: the product of [1 - k * dt] over the frames, [k] being
    the interpolation speed. *)
Definition approach (k : R) (dts : list R) : R :=
  fold_right (fun dt acc => (1 - k * dt) * acc) 1 dts.

(** A sample dust particle on the vectors of [mesh0]. *)
Definition dust0 : Particle.t :=
  Particle.mk mesh0 DUST true 3%nat 4%nat 0.5 5%nat.

(** A sample star on [mesh0], and a heap in which its scale is 1. *)
Definition star0 : Star := mkStar mesh0 1.5.

Definition heap1 : Heap := store 2%nat (Vector3.mk 1 1 1) heap0.

(** The ranges of a stage: exposure between the night and the day value,
    every ambient light between the night and the day intensity. *)
Definition stage_in_range (st : Stage) : Prop :=
  1 <= toneMappingExposure st <= 1.4 /\
  Forall (fun c => isAmbientLight c = true -> 0.2 <= intensity c <= 0.7)
         (objects st).

(** The analyser is missing, or its array has the ten bins the pulse
    reads. *)
Definition bins_ok (audio : option (list Byte.byte)) : Prop :=
  match audio with
  | Some dataArray => (10 <= length dataArray)%nat
  | None => True
  end.

(** A sample world: the photo [photo0] alone, a main group on vectors of
    its own, no star. *)
Definition world0 : World :=
  mkWorld STATE.init [photo0] heap0
          (initial_stage (Color.mk 0 0 0) (Color.mk 0 0 0)) None
          (Mesh.mk 1%nat 10%nat 11%nat 12%nat).

(** A sample world in SCATTER mode with a hand pointing up and to the
    right, on a heap in which all the vectors in use are allocated. *)
Definition world1 : World :=
  mkWorld (STATE.mk SCATTER (-1) None (Hand.mk true 0.5 0.5) (0, 0))
          [photo0] (mkHeap (fun _ => Vector3.zero) 13%nat)
          (initial_stage (Color.mk 0 0 0) (Color.mk 0 0 0)) None
          (Mesh.mk 1%nat 10%nat 11%nat 12%nat).

(** ** Basic facts *)

Lemma Mode_eqb_eq (a b : Mode) : Mode_eqb a b = true <-> a = b.
Proof. destruct a, b; simpl; split; congruence. Qed.

Lemma Mode_eqb_neq (a b : Mode) : Mode_eqb a b = false <-> a <> b.
Proof. destruct a, b; simpl; split; congruence. Qed.

Lemma js_index_nth {A : Type} (a : list A) (i : nat) (d : A) :
  (i < length a)%nat -> js_index a (Z.of_nat i) = Some (nth i a d).
Proof.
  intros Hi. unfold js_index.
  destruct (Z.ltb_spec (Z.of_nat i) 0) as [Hneg | _]; [lia |].
  rewrite Nat2Z.id. now apply nth_error_nth'.
Qed.

Lemma js_index_landmark (lm : list Lm.t) (k : Z) :
  (0 <= k < Z.of_nat (length lm))%Z ->
  js_index lm k = Some (landmark lm (Z.to_nat k)).
Proof.
  intros Hk. rewrite <- (Z2Nat.id k) at 1 by lia.
  apply js_index_nth. lia.
Qed.

Lemma at_landmark (lm : list Lm.t) (k : Z) :
  (0 <= k < Z.of_nat (length lm))%Z ->
  at_ lm k = ret (landmark lm (Z.to_nat k)).
Proof. intros Hk. unfold at_. now rewrite js_index_landmark. Qed.

(** With a full hand no property read fails: the call is the three writes
    of the hand signal followed by the threshold cascade. *)
Lemma processGestures_full_hand rnd ps lm rest S :
  full_hand lm ->
  processGestures rnd ps (mkResult (Some (lm :: rest))) S =
  (if Rlt_dec (pinchDistance lm) 0.05 then
     if Mode_eqb (STATE.mode S) FOCUS then ret tt
     else
       modify (STATE.set_mode FOCUS) ;;;
       if Nat.eqb (length (photosOf ps)) 0 then ret tt
       else
         p <- at_ (photosOf ps) (Math.floor (rnd * INR (length (photosOf ps)))) ;;
         modify (STATE.set_focusTarget (Some (Particle.mesh p)))
   else if Rlt_dec (avgDistance lm) 0.25 then
     modify (STATE.set_mode TREE) ;;; modify (STATE.set_focusTarget None)
   else if Rgt_dec (avgDistance lm) 0.4 then
     modify (STATE.set_mode SCATTER) ;;; modify (STATE.set_focusTarget None)
   else ret tt) (with_hand lm S).
Proof.
  unfold full_hand. intros Hlen.
  unfold processGestures, landmarks.
  rewrite (js_index_landmark lm 0) by lia.
  unfold reduce.
  rewrite !at_landmark by lia.
  change (Z.to_nat 0) with 0%nat. change (Z.to_nat 4) with 4%nat.
  change (Z.to_nat 8) with 8%nat. change (Z.to_nat 9) with 9%nat.
  change (Z.to_nat 12) with 12%nat. change (Z.to_nat 16) with 16%nat.
  change (Z.to_nat 20) with 20%nat.
  unfold pinchDistance, avgDistance, dist, photosOf.
  cbv [bind ret modify prop_of get].
  rewrite Rplus_0_l.
  destruct (Rlt_dec _ 0.05); [reflexivity |].
  destruct (Rlt_dec _ 0.25); [reflexivity |].
  destruct (Rgt_dec _ 0.4); reflexivity.
Qed.

(** [Math.floor(rnd * n)] picks index [k] exactly on the [k]-th of the [n]
    equal intervals of [[0, 1)]. *)
Lemma floor_interval (rnd : R) (n k : nat) :
  (0 < n)%nat ->
  INR k / INR n <= rnd < (INR k + 1) / INR n ->
  Math.floor (rnd * INR n) = Z.of_nat k.
Proof.
  intros Hn [Hlo Hhi]. unfold Math.floor. symmetry. apply Int_part_spec.
  assert (Hpos : 0 < INR n) by (apply lt_0_INR; lia).
  rewrite <- INR_IZR_INZ.
  apply (Rmult_le_compat_r (INR n)) in Hlo; [| lra].
  apply (Rmult_lt_compat_r (INR n)) in Hhi; [| lra].
  unfold Rdiv in Hlo, Hhi. rewrite Rmult_assoc, Rinv_l, Rmult_1_r in Hlo, Hhi by lra.
  lra.
Qed.

Lemma floor_in_range (rnd : R) (n : nat) :
  (0 < n)%nat -> 0 <= rnd < 1 ->
  exists k, (k < n)%nat /\ INR k / INR n <= rnd < (INR k + 1) / INR n.
Proof.
  intros Hn [Hlo Hhi].
  assert (Hpos : 0 < INR n) by (apply lt_0_INR; lia).
  destruct (base_Int_part (rnd * INR n)) as [Hb1 Hb2].
  assert (H0 : (0 <= Int_part (rnd * INR n))%Z).
  { assert (Hm : (-1 < Int_part (rnd * INR n))%Z).
    { apply lt_IZR. assert (0 <= rnd * INR n) by nra. lra. }
    lia. }
  exists (Z.to_nat (Int_part (rnd * INR n))).
  assert (HI : INR (Z.to_nat (Int_part (rnd * INR n))) = IZR (Int_part (rnd * INR n))).
  { rewrite INR_IZR_INZ, Z2Nat.id by exact H0. reflexivity. }
  split.
  - apply INR_lt. rewrite HI. nra.
  - rewrite HI. split.
    + apply (Rmult_le_reg_r (INR n)); [lra |].
      unfold Rdiv. rewrite Rmult_assoc, Rinv_l, Rmult_1_r by lra. lra.
    + apply (Rmult_lt_reg_r (INR n)); [lra |].
      unfold Rdiv. rewrite Rmult_assoc, Rinv_l, Rmult_1_r by lra. lra.
Qed.

Lemma photosOf_In (ps : list Particle.t) (p : Particle.t) :
  In p (photosOf ps) -> In p ps /\ Particle.type p = PHOTO.
Proof.
  unfold photosOf. rewrite filter_In. intros [Hin Hty]. split; [exact Hin |].
  destruct (Particle.type p); simpl in Hty; congruence.
Qed.

Lemma hypot_axis (a : R) : Math.hypot a (0 - 0) = Rabs a.
Proof.
  unfold Math.hypot. replace (a * a + (0 - 0) * (0 - 0)) with (Rsqr a).
  - apply sqrt_Rsqr_abs.
  - unfold Rsqr. ring.
Qed.

Lemma pinchDistance_hand_with (a b : R) :
  pinchDistance (hand_with a b) = Rabs (a - b).
Proof. unfold pinchDistance, dist, hand_with, landmark. simpl. apply hypot_axis. Qed.

Lemma avgDistance_hand_with (a b : R) :
  avgDistance (hand_with a b) = Rabs b.
Proof.
  unfold avgDistance, dist, hand_with, landmark. simpl.
  rewrite hypot_axis. replace (b - 0) with b by ring. field.
Qed.

Lemma full_hand_hand_with (a b : R) : full_hand (hand_with a b).
Proof. unfold full_hand, hand_with. simpl. lia. Qed.

(** ** The mode state machine *)

(** Entering FOCUS with at least one photo: the read of [photos[k]] succeeds
    and the target is the mesh of the photo the draw selects. *)
Lemma enter_focus rnd ps S :
  0 <= rnd < 1 -> photosOf ps <> [] ->
  exists k p,
    nth_error (photosOf ps) k = Some p /\
    INR k / INR (length (photosOf ps)) <= rnd
      < (INR k + 1) / INR (length (photosOf ps)) /\
    (p <- at_ (photosOf ps) (Math.floor (rnd * INR (length (photosOf ps)))) ;;
     modify (STATE.set_focusTarget (Some (Particle.mesh p)))) S
    = Normal tt (STATE.set_focusTarget (Some (Particle.mesh p)) S).
Proof.
  intros Hrnd Hne.
  assert (Hn : (0 < length (photosOf ps))%nat).
  { destruct (photosOf ps); [congruence | simpl; lia]. }
  destruct (floor_in_range rnd _ Hn Hrnd) as (k & Hk & Hint).
  destruct (nth_error (photosOf ps) k) as [p |] eqn:Hp.
  - exists k, p. split; [exact Hp |]. split; [exact Hint |].
    rewrite (floor_interval rnd _ k Hn Hint).
    unfold at_, js_index.
    destruct (Z.ltb_spec (Z.of_nat k) 0) as [Hneg | _]; [lia |].
    rewrite Nat2Z.id, Hp. reflexivity.
  - apply nth_error_None in Hp. lia.
Qed.

(** The pinch branch taken from a mode other than FOCUS. *)
Lemma pinch_branch rnd ps lm rest S :
  full_hand lm -> 0 <= rnd < 1 ->
  pinchDistance lm < 0.05 -> STATE.mode S <> FOCUS ->
  exists S',
    processGestures rnd ps (mkResult (Some (lm :: rest))) S = Normal tt S' /\
    STATE.mode S' = FOCUS /\
    (photosOf ps = [] -> STATE.focusTarget S' = STATE.focusTarget S) /\
    (photosOf ps <> [] ->
       (exists p, In p ps /\ Particle.type p = PHOTO /\
                  STATE.focusTarget S' = Some (Particle.mesh p)) /\
       (forall k p,
          nth_error (photosOf ps) k = Some p ->
          INR k / INR (length (photosOf ps)) <= rnd
            < (INR k + 1) / INR (length (photosOf ps)) ->
          STATE.focusTarget S' = Some (Particle.mesh p))).
Proof.
  intros Hfull Hrnd Hpinch Hmode.
  rewrite processGestures_full_hand by exact Hfull.
  destruct (Rlt_dec (pinchDistance lm) 0.05) as [_ | Hn]; [| contradiction].
  apply Mode_eqb_neq in Hmode. rewrite Hmode.
  destruct (photosOf ps) as [| q qs] eqn:Hphotos.
  - eexists. split; [reflexivity |]. repeat split; try congruence.
  - assert (Hne : photosOf ps <> []) by (rewrite Hphotos; discriminate).
    destruct (enter_focus rnd ps (STATE.set_mode FOCUS (with_hand lm S)) Hrnd Hne)
      as (k & p & Hp & Hint & Hrun).
    rewrite Hphotos in Hp, Hint, Hrun.
    exists (STATE.set_focusTarget (Some (Particle.mesh p))
              (STATE.set_mode FOCUS (with_hand lm S))).
    split.
    { unfold bind at 1. unfold modify at 1.
      change (length (q :: qs) =? 0)%nat with false. cbv iota. exact Hrun. }
    split; [reflexivity |]. split; [discriminate |]. intros _. split.
    + exists p. assert (Hin : In p (photosOf ps)).
      { rewrite Hphotos. eapply nth_error_In; eauto. }
      apply photosOf_In in Hin. destruct Hin as [Hin Hty].
      repeat split; assumption.
    + intros k' p' Hp' Hint'.
      assert (Hlen : (0 < length (q :: qs))%nat) by (simpl; lia).
      pose proof (floor_interval rnd _ k Hlen Hint) as E1.
      pose proof (floor_interval rnd _ k' Hlen Hint') as E2.
      assert (k' = k) by lia. subst k'.
      simpl. congruence.
Qed.

(** C1. For a full hand whose pinch distance is below 0.05, from any prior
    mode other than FOCUS the call returns with the mode FOCUS. If no
    particle has type PHOTO the focus target is left as it was; otherwise
    it becomes the mesh of a PHOTO particle of the particle system, namely
    of photo [k] whenever the draw [rnd] of [[0, 1)] falls into the [k]-th
    of the [n] intervals of width [1/n], [n] being the number of photos:
    every photo is selected on an interval of the same length. *)
Theorem pinch_enters_focus rnd ps lm rest S :
  full_hand lm -> 0 <= rnd < 1 ->
  pinchDistance lm < 0.05 -> STATE.mode S <> FOCUS ->
  exists S',
    processGestures rnd ps (mkResult (Some (lm :: rest))) S = Normal tt S' /\
    STATE.mode S' = FOCUS /\
    (photosOf ps = [] -> STATE.focusTarget S' = STATE.focusTarget S) /\
    (photosOf ps <> [] ->
       (exists p, In p ps /\ Particle.type p = PHOTO /\
                  STATE.focusTarget S' = Some (Particle.mesh p)) /\
       (forall k p,
          nth_error (photosOf ps) k = Some p ->
          INR k / INR (length (photosOf ps)) <= rnd
            < (INR k + 1) / INR (length (photosOf ps)) ->
          STATE.focusTarget S' = Some (Particle.mesh p))).
Proof. exact (pinch_branch rnd ps lm rest S). Qed.

(** C1, at a hand with pinch distance 0.02, one photo and the initial state. *)
Lemma pinch_enters_focus_witness :
  exists S',
    processGestures 0 [photo0] (mkResult (Some ([hand_with 0.32 0.3]))) STATE.init
      = Normal tt S' /\
    STATE.mode S' = FOCUS /\
    (photosOf [photo0] = [] -> STATE.focusTarget S' = STATE.focusTarget STATE.init) /\
    (photosOf [photo0] <> [] ->
       (exists p, In p [photo0] /\ Particle.type p = PHOTO /\
                  STATE.focusTarget S' = Some (Particle.mesh p)) /\
       (forall k p,
          nth_error (photosOf [photo0]) k = Some p ->
          INR k / INR (length (photosOf [photo0])) <= 0
            < (INR k + 1) / INR (length (photosOf [photo0])) ->
          STATE.focusTarget S' = Some (Particle.mesh p))).
Proof.
  apply (pinch_enters_focus 0 [photo0] (hand_with 0.32 0.3) [] STATE.init).
  - apply full_hand_hand_with.
  - lra.
  - rewrite pinchDistance_hand_with. unfold Rabs. destruct (Rcase_abs _); lra.
  - simpl. discriminate.
Defined.

(** C10. Pinch takes precedence over openness: for a full hand whose pinch
    distance is below 0.05 the call returns with the mode FOCUS whatever the
    average fingertip-to-wrist distance is, so the mode is neither TREE nor
    SCATTER afterwards; if the mode was FOCUS already, mode and focus target
    stay as they were. *)
Theorem pinch_precedes_openness rnd ps lm rest S :
  full_hand lm -> 0 <= rnd < 1 -> pinchDistance lm < 0.05 ->
  exists S',
    processGestures rnd ps (mkResult (Some (lm :: rest))) S = Normal tt S' /\
    STATE.mode S' = FOCUS /\ STATE.mode S' <> TREE /\ STATE.mode S' <> SCATTER /\
    (STATE.mode S = FOCUS -> STATE.focusTarget S' = STATE.focusTarget S).
Proof.
  intros Hfull Hrnd Hpinch.
  destruct (Mode_eqb (STATE.mode S) FOCUS) eqn:Hm.
  - rewrite processGestures_full_hand by exact Hfull.
    destruct (Rlt_dec (pinchDistance lm) 0.05) as [_ | Hn]; [| contradiction].
    rewrite Hm. apply Mode_eqb_eq in Hm.
    exists (with_hand lm S). split; [reflexivity |]. simpl.
    rewrite Hm. repeat split; congruence.
  - apply Mode_eqb_neq in Hm.
    destruct (pinch_branch rnd ps lm rest S Hfull Hrnd Hpinch Hm)
      as (S' & Hrun & Hmode & _).
    exists S'. split; [exact Hrun |]. rewrite Hmode.
    repeat split; congruence.
Qed.

(** C10, at a hand that pinches (distance 0) while fully open (average 0.5). *)
Lemma pinch_precedes_openness_witness :
  exists S',
    processGestures 0 [] (mkResult (Some [hand_with 0.5 0.5])) STATE.init
      = Normal tt S' /\
    STATE.mode S' = FOCUS /\ STATE.mode S' <> TREE /\ STATE.mode S' <> SCATTER /\
    (STATE.mode STATE.init = FOCUS ->
     STATE.focusTarget S' = STATE.focusTarget STATE.init).
Proof.
  apply (pinch_precedes_openness 0 [] (hand_with 0.5 0.5) [] STATE.init).
  - apply full_hand_hand_with.
  - lra.
  - rewrite pinchDistance_hand_with. unfold Rabs. destruct (Rcase_abs _); lra.
Defined.

(** The openness branches, reached only when the hand does not pinch. *)
Lemma openness_branch rnd ps lm rest S :
  full_hand lm -> 0.05 <= pinchDistance lm ->
  processGestures rnd ps (mkResult (Some (lm :: rest))) S =
  (if Rlt_dec (avgDistance lm) 0.25 then
     Normal tt (STATE.set_focusTarget None (STATE.set_mode TREE (with_hand lm S)))
   else if Rgt_dec (avgDistance lm) 0.4 then
     Normal tt (STATE.set_focusTarget None (STATE.set_mode SCATTER (with_hand lm S)))
   else Normal tt (with_hand lm S)).
Proof.
  intros Hfull Hpinch.
  rewrite processGestures_full_hand by exact Hfull.
  destruct (Rlt_dec (pinchDistance lm) 0.05) as [Hlt | _]; [lra |].
  destruct (Rlt_dec (avgDistance lm) 0.25); [reflexivity |].
  destruct (Rgt_dec (avgDistance lm) 0.4); reflexivity.
Qed.

(** The run of a pinching hand from the initial state with one photo. *)
Lemma pinching_run (tip : R) :
  processGestures 0 [photo0] (one_hand (hand_with tip tip)) STATE.init
  = Normal tt (STATE.set_focusTarget (Some mesh0)
                 (STATE.set_mode FOCUS (with_hand (hand_with tip tip) STATE.init))).
Proof.
  unfold one_hand.
  rewrite processGestures_full_hand by apply full_hand_hand_with.
  destruct (Rlt_dec (pinchDistance (hand_with tip tip)) 0.05) as [_ | Hn].
  - change (Mode_eqb (STATE.mode STATE.init) FOCUS) with false. cbv iota.
    change (photosOf [photo0]) with [photo0].
    change (length [photo0] =? 0)%nat with false. cbv iota.
    change (INR (length [photo0])) with 1.
    replace (0 * 1) with (INR 0) by (simpl; ring).
    unfold Math.floor. rewrite Int_part_INR. reflexivity.
  - exfalso. apply Hn. rewrite pinchDistance_hand_with.
    replace (tip - tip) with 0 by ring. rewrite Rabs_R0. lra.
Qed.

(** C4 as stated fails: a hand whose average fingertip-to-wrist distance is
    0.5 but whose thumb tip touches the index tip moves the mode to FOCUS
    and sets a focus target. *)
Lemma open_hand_scatter_counterexample :
  full_hand (hand_with 0.5 0.5) /\
  avgDistance (hand_with 0.5 0.5) = 0.5 /\
  exists S',
    processGestures 0 [photo0] (one_hand (hand_with 0.5 0.5)) STATE.init
      = Normal tt S' /\
    STATE.mode S' <> SCATTER /\ STATE.focusTarget S' <> None.
Proof.
  split; [apply full_hand_hand_with |]. split.
  - rewrite avgDistance_hand_with. apply Rabs_right. lra.
  - eexists. split; [apply pinching_run |]. simpl. split; discriminate.
Qed.

(** C4, amended. For a full hand whose pinch distance is at least 0.05 and
    whose average fingertip-to-wrist distance is above 0.4 (0.5, say), the
    call returns with the mode SCATTER and no focus target. *)
Theorem open_hand_scatter rnd ps lm rest S :
  full_hand lm -> 0.05 <= pinchDistance lm -> 0.4 < avgDistance lm ->
  exists S',
    processGestures rnd ps (mkResult (Some (lm :: rest))) S = Normal tt S' /\
    STATE.mode S' = SCATTER /\ STATE.focusTarget S' = None.
Proof.
  intros Hfull Hpinch Havg.
  rewrite openness_branch by assumption.
  destruct (Rlt_dec (avgDistance lm) 0.25) as [Hlt | _]; [lra |].
  destruct (Rgt_dec (avgDistance lm) 0.4) as [_ | Hn]; [| exfalso; apply Hn; lra].
  eexists. split; [reflexivity |]. split; reflexivity.
Qed.

Lemma open_hand_scatter_witness :
  exists S',
    processGestures 0 [photo0] (mkResult (Some [hand_with 0 0.5]))
      (STATE.mk FOCUS (-1) (Some mesh0) (Hand.mk false 0 0) (0, 0))
      = Normal tt S' /\
    STATE.mode S' = SCATTER /\ STATE.focusTarget S' = None.
Proof.
  apply (open_hand_scatter 0 [photo0] (hand_with 0 0.5) []).
  - apply full_hand_hand_with.
  - rewrite pinchDistance_hand_with. unfold Rabs. destruct (Rcase_abs _); lra.
  - rewrite avgDistance_hand_with. unfold Rabs. destruct (Rcase_abs _); lra.
Defined.

(** C5 as stated fails: a hand whose average fingertip-to-wrist distance is
    0.1 but whose thumb tip touches the index tip moves the mode to FOCUS
    and sets a focus target. *)
Lemma closed_hand_tree_counterexample :
  full_hand (hand_with 0.1 0.1) /\
  avgDistance (hand_with 0.1 0.1) = 0.1 /\
  exists S',
    processGestures 0 [photo0] (one_hand (hand_with 0.1 0.1)) STATE.init
      = Normal tt S' /\
    STATE.mode S' <> TREE /\ STATE.focusTarget S' <> None.
Proof.
  split; [apply full_hand_hand_with |]. split.
  - rewrite avgDistance_hand_with. apply Rabs_right. lra.
  - eexists. split; [apply pinching_run |]. simpl. split; discriminate.
Qed.

(** C5, amended. For a full hand whose pinch distance is at least 0.05 and
    whose average fingertip-to-wrist distance is below 0.25 (0.1, say), the
    call returns with the mode TREE and no focus target. *)
Theorem closed_hand_tree rnd ps lm rest S :
  full_hand lm -> 0.05 <= pinchDistance lm -> avgDistance lm < 0.25 ->
  exists S',
    processGestures rnd ps (mkResult (Some (lm :: rest))) S = Normal tt S' /\
    STATE.mode S' = TREE /\ STATE.focusTarget S' = None.
Proof.
  intros Hfull Hpinch Havg.
  rewrite openness_branch by assumption.
  destruct (Rlt_dec (avgDistance lm) 0.25) as [_ | Hn]; [| contradiction].
  eexists. split; [reflexivity |]. split; reflexivity.
Qed.

Lemma closed_hand_tree_witness :
  exists S',
    processGestures 0 [photo0] (mkResult (Some [hand_with 0 0.1]))
      (STATE.mk FOCUS (-1) (Some mesh0) (Hand.mk false 0 0) (0, 0))
      = Normal tt S' /\
    STATE.mode S' = TREE /\ STATE.focusTarget S' = None.
Proof.
  apply (closed_hand_tree 0 [photo0] (hand_with 0 0.1) []).
  - apply full_hand_hand_with.
  - rewrite pinchDistance_hand_with. unfold Rabs. destruct (Rcase_abs _); lra.
  - rewrite avgDistance_hand_with. unfold Rabs. destruct (Rcase_abs _); lra.
Defined.

(** C6. When no hand is detected ([landmarks] missing or empty), or a full
    hand is detected whose pinch distance is at least 0.05 and whose average
    fingertip-to-wrist distance lies strictly between 0.25 and 0.4, the call
    returns and leaves the mode and the focus target as they were. *)
Theorem ambiguous_or_absent_keeps_mode rnd ps result S :
  landmarks result = None \/ landmarks result = Some [] \/
  (exists lm rest,
     landmarks result = Some (lm :: rest) /\ full_hand lm /\
     0.05 <= pinchDistance lm /\ 0.25 < avgDistance lm < 0.4) ->
  exists S',
    processGestures rnd ps result S = Normal tt S' /\
    STATE.mode S' = STATE.mode S /\
    STATE.focusTarget S' = STATE.focusTarget S.
Proof.
  destruct result as [l]. simpl.
  intros [H | [H | (lm & rest & H & Hfull & Hpinch & Hlo & Hhi)]]; subst l.
  - eexists. split; [reflexivity |]. split; reflexivity.
  - eexists. split; [reflexivity |]. split; reflexivity.
  - rewrite openness_branch by assumption.
    destruct (Rlt_dec (avgDistance lm) 0.25) as [Hlt | _]; [lra |].
    destruct (Rgt_dec (avgDistance lm) 0.4) as [Hgt | _]; [unfold Rgt in Hgt; lra |].
    eexists. split; [reflexivity |]. split; reflexivity.
Qed.

Lemma ambiguous_or_absent_keeps_mode_witness :
  exists S',
    processGestures 0 [photo0] (one_hand (hand_with 0 0.3))
      (STATE.mk FOCUS (-1) (Some mesh0) (Hand.mk false 0 0) (0, 0))
      = Normal tt S' /\
    STATE.mode S' = FOCUS /\ STATE.focusTarget S' = Some mesh0.
Proof.
  apply (ambiguous_or_absent_keeps_mode 0 [photo0] (one_hand (hand_with 0 0.3))
           (STATE.mk FOCUS (-1) (Some mesh0) (Hand.mk false 0 0) (0, 0))).
  right. right. exists (hand_with 0 0.3), []. split; [reflexivity |].
  split; [apply full_hand_hand_with |]. split.
  - rewrite pinchDistance_hand_with. unfold Rabs. destruct (Rcase_abs _); lra.
  - rewrite avgDistance_hand_with. unfold Rabs. destruct (Rcase_abs _); lra.
Defined.

Lemma processGestures_mode_change rnd ps result S :
  mode_change S (final (processGestures rnd ps result S)).
Proof.
  unfold processGestures.
  destruct (landmarks result) as [[| lm rest] |];
    try (apply mc_keep; reflexivity).
  unfold reduce, at_.
  destruct (js_index lm 9) as [l9 |]; [| apply mc_keep; reflexivity].
  destruct (js_index lm 4) as [l4 |]; [| apply mc_keep; reflexivity].
  destruct (js_index lm 8) as [l8 |]; [| apply mc_keep; reflexivity].
  destruct (js_index lm 12) as [l12 |];
    [| destruct (js_index lm 0); apply mc_keep; reflexivity].
  destruct (js_index lm 0) as [l0 |]; [| apply mc_keep; reflexivity].
  destruct (js_index lm 16) as [l16 |]; [| apply mc_keep; reflexivity].
  destruct (js_index lm 20) as [l20 |]; [| apply mc_keep; reflexivity].
  cbv [bind ret modify prop_of get throw].
  destruct (Rlt_dec _ 0.05).
  - destruct (Mode_eqb _ FOCUS); [apply mc_keep; reflexivity |].
    destruct (length _ =? 0)%nat; [apply mc_focus; reflexivity |].
    destruct (js_index _ _); apply mc_focus; reflexivity.
  - destruct (Rlt_dec _ 0.25); [apply mc_clear; reflexivity |].
    destruct (Rgt_dec _ 0.4); [apply mc_clear; reflexivity |].
    apply mc_keep; reflexivity.
Qed.

Lemma step_focus_inv (S : STATE.t) (f : Frame) :
  focus_inv S -> focus_inv (step S f).
Proof.
  unfold step, focus_inv. intros Hinv.
  destruct (processGestures_mode_change (frame_rnd f) (frame_particles f)
              (frame_result f) S) as [Hm Hf | Hm | Hf].
  - rewrite Hm, Hf. exact Hinv.
  - intros _. exact Hm.
  - rewrite Hf. congruence.
Qed.

Lemma run_focus_inv (fs : list Frame) (S : STATE.t) :
  focus_inv S -> focus_inv (run fs S).
Proof.
  revert S. induction fs as [| f fs IH]; intros S Hinv; simpl.
  - exact Hinv.
  - apply IH. now apply step_focus_inv.
Qed.

(** C8. From the initial state (mode TREE, no focus target), after any
    sequence of [processGestures] calls, on any detection results, particle
    systems and random draws, the focus target is non-null only while the
    mode is FOCUS. *)
Theorem focus_target_only_in_focus (fs : list Frame) :
  STATE.mode STATE.init = TREE /\ STATE.focusTarget STATE.init = None /\
  (STATE.focusTarget (run fs STATE.init) <> None ->
   STATE.mode (run fs STATE.init) = FOCUS).
Proof.
  split; [reflexivity |]. split; [reflexivity |].
  apply run_focus_inv. unfold focus_inv. simpl. congruence.
Qed.

(** ** The heap *)

Lemma cell_store_eq r v h : cell (store r v h) r = v.
Proof. unfold store. simpl. now rewrite Nat.eqb_refl. Qed.

Lemma cell_store_neq r r' v h : r' <> r -> cell (store r v h) r' = cell h r'.
Proof. intros Hne. unfold store. simpl. apply Nat.eqb_neq in Hne. now rewrite Hne. Qed.

Lemma cell_setx_neq r r' v h : r' <> r -> cell (setx r v h) r' = cell h r'.
Proof. apply cell_store_neq. Qed.

Lemma cell_sety_neq r r' v h : r' <> r -> cell (sety r v h) r' = cell h r'.
Proof. apply cell_store_neq. Qed.

Lemma cell_setz_neq r r' v h : r' <> r -> cell (setz r v h) r' = cell h r'.
Proof. apply cell_store_neq. Qed.

Lemma cell_set_eq r a b c h : cell (set r a b c h) r = Vector3.mk a b c.
Proof.
  unfold set, setz, sety, setx. now rewrite !cell_store_eq.
Qed.

Lemma cell_set_neq r r' a b c h : r' <> r -> cell (set r a b c h) r' = cell h r'.
Proof.
  intros Hne. unfold set.
  now rewrite cell_setz_neq, cell_sety_neq, cell_setx_neq.
Qed.

(** Unfolding the constructor down to the [set] calls of
    [calculatePositions]. *)
Ltac unfold_constructor :=
  cbv [new_Particle alloc calculatePositions fst snd Particle.posTree
       Particle.posScatter Particle.spinSpeed Particle.mesh Particle.type
       Particle.isDust Particle.baseScale];
  cbn [next].

(** ** The layout generator *)

Lemma pow_unit (u : R) : draw u -> 0 <= Math.pow u 0.8 <= 1.
Proof.
  intros [Hlo Hhi]. unfold Math.pow.
  destruct (Req_dec_T u 0) as [_ | Hne]; [lra |].
  assert (Hpos : 0 < u) by lra.
  unfold Rpower. split.
  - left. apply exp_pos.
  - left. rewrite <- exp_0. apply exp_increasing.
    assert (Hln : ln u < 0) by (rewrite <- ln_1; now apply ln_increasing).
    nra.
Qed.

Lemma treeRadiusOf_polar (angle r y : R) :
  treeRadiusOf (Vector3.mk (Math.cos angle * r) y (Math.sin angle * r)) = Rabs r.
Proof.
  unfold treeRadiusOf, Math.cos, Math.sin. simpl.
  replace (cos angle * r * (cos angle * r) + sin angle * r * (sin angle * r))
    with (((sin angle)² + (cos angle)²) * r²) by (unfold Rsqr; ring).
  rewrite sin2_cos2, Rmult_1_l. apply sqrt_Rsqr_abs.
Qed.

Lemma norm_spherical (rho phi theta : R) :
  norm (Vector3.mk (rho * Math.sin phi * Math.cos theta)
                   (rho * Math.sin phi * Math.sin theta)
                   (rho * Math.cos phi)) = Rabs rho.
Proof.
  unfold norm, Math.cos, Math.sin. simpl.
  replace (rho * sin phi * cos theta * (rho * sin phi * cos theta)
           + rho * sin phi * sin theta * (rho * sin phi * sin theta)
           + rho * cos phi * (rho * cos phi))
    with (rho² * ((sin phi)² * ((sin theta)² + (cos theta)²) + (cos phi)²))
    by (unfold Rsqr; ring).
  rewrite (sin2_cos2 theta), Rmult_1_r, sin2_cos2, Rmult_1_r.
  apply sqrt_Rsqr_abs.
Qed.

(** Where the constructor puts the vectors it makes, and what it stores. *)
Lemma new_Particle_cells s1 s2 s3 u1 u2 u3 u4 u5 u6 mesh type isDust h :
  let p := fst (new_Particle s1 s2 s3 u1 u2 u3 u4 u5 u6 mesh type isDust h) in
  let h' := snd (new_Particle s1 s2 s3 u1 u2 u3 u4 u5 u6 mesh type isDust h) in
  Particle.posTree p = next h /\
  Particle.posScatter p = S (next h) /\
  Particle.spinSpeed p = S (S (next h)) /\
  Particle.mesh p = mesh /\ Particle.type p = type /\ Particle.isDust p = isDust /\
  next h' = S (S (S (next h))) /\
  (forall r, (r < next h)%nat -> cell h' r = cell h r).
Proof.
  unfold_constructor.
  repeat split.
  intros r Hr.
  rewrite !cell_set_neq by lia. simpl.
  destruct (Nat.eqb_spec r (S (S (next h)))); [lia |].
  destruct (Nat.eqb_spec r (S (next h))); [lia |].
  destruct (Nat.eqb_spec r (next h)); [lia |]. reflexivity.
Qed.

Lemma new_Particle_posTree s1 s2 s3 u1 u2 u3 u4 u5 u6 mesh type isDust h :
  let p := fst (new_Particle s1 s2 s3 u1 u2 u3 u4 u5 u6 mesh type isDust h) in
  let h' := snd (new_Particle s1 s2 s3 u1 u2 u3 u4 u5 u6 mesh type isDust h) in
  let t := Math.pow u1 0.8 in
  let rMax := Math.max 0.5 (CONFIG.treeRadius * (1.0 - t)) in
  treeRadiusOf (cell h' (Particle.posTree p)) = Rabs (rMax * (0.8 + u3 * 0.4)).
Proof.
  unfold_constructor.
  rewrite cell_set_neq by lia. rewrite cell_set_eq.
  apply treeRadiusOf_polar.
Qed.

Lemma new_Particle_posScatter s1 s2 s3 u1 u2 u3 u4 u5 u6 mesh type isDust h :
  let p := fst (new_Particle s1 s2 s3 u1 u2 u3 u4 u5 u6 mesh type isDust h) in
  let h' := snd (new_Particle s1 s2 s3 u1 u2 u3 u4 u5 u6 mesh type isDust h) in
  norm (cell h' (Particle.posScatter p))
  = Rabs (if isDust then 12 + u4 * 20 else 8 + u4 * 12).
Proof.
  unfold_constructor.
  rewrite cell_set_eq. apply norm_spherical.
Qed.

(** C2 as stated fails: with the draws [u1 = 0] (so [t = 0], the base of the
    tree), [u2 = 0] and [u3 = 0.75] the tree target is [(8.8, -12, 0)], at
    horizontal radius 8.8, above [CONFIG.particles.treeRadius = 8]. *)
Lemma tree_radius_counterexample :
  draw 0 /\ draw 0.75 /\
  let p := fst (new_Particle 0 0 0 0 0 0.75 0 0 0 mesh0 BOX false
                  heap0) in
  let h' := snd (new_Particle 0 0 0 0 0 0.75 0 0 0 mesh0 BOX false
                   heap0) in
  treeRadiusOf (cell h' (Particle.posTree p)) = 8.8 /\
  ~ treeRadiusOf (cell h' (Particle.posTree p)) <= CONFIG.treeRadius.
Proof.
  split; [unfold draw; lra |]. split; [unfold draw; lra |].
  intros p h'. subst p h'.
  rewrite new_Particle_posTree.
  unfold Math.pow, Math.max, CONFIG.treeRadius.
  destruct (Req_dec_T 0 0) as [_ | Hne]; [| lra].
  rewrite Rmax_right by lra.
  replace (8 * (1.0 - 0) * (0.8 + 0.75 * 0.4)) with 8.8 by lra.
  rewrite Rabs_right by lra. split; [reflexivity | lra].
Qed.

(** C2, amended. For every particle the constructor makes, whatever the
    draws in [[0, 1)], the horizontal radius of the tree target is
    non-negative and at most 1.2 times the configured tree radius, that is
    at most 9.6: the cone radius [rMax] lies in [[0.5, 8]] and is scaled by
    a factor of [[0.8, 1.2)]. *)
Theorem tree_radius_bound s1 s2 s3 u1 u2 u3 u4 u5 u6 mesh type isDust h :
  draw u1 -> draw u3 ->
  let p := fst (new_Particle s1 s2 s3 u1 u2 u3 u4 u5 u6 mesh type isDust h) in
  let h' := snd (new_Particle s1 s2 s3 u1 u2 u3 u4 u5 u6 mesh type isDust h) in
  0 <= treeRadiusOf (cell h' (Particle.posTree p)) <= 1.2 * CONFIG.treeRadius.
Proof.
  intros H1 H3 p h'. subst p h'.
  rewrite new_Particle_posTree.
  pose proof (pow_unit u1 H1) as [Ht0 Ht1].
  unfold draw in H3. unfold Math.max, CONFIG.treeRadius.
  set (t := Math.pow u1 0.8) in *.
  assert (Hm : 0.5 <= Rmax 0.5 (8 * (1.0 - t)) <= 8).
  { split; [apply Rmax_l |]. apply Rmax_lub; lra. }
  set (rMax := Rmax 0.5 (8 * (1.0 - t))) in *.
  rewrite Rabs_right by nra. nra.
Qed.

Lemma tree_radius_bound_witness :
  let p := fst (new_Particle 0 0 0 0 0 0.75 0 0 0 mesh0 BOX false
                  heap0) in
  let h' := snd (new_Particle 0 0 0 0 0 0.75 0 0 0 mesh0 BOX false
                   heap0) in
  0 <= treeRadiusOf (cell h' (Particle.posTree p)) <= 1.2 * CONFIG.treeRadius.
Proof.
  apply (tree_radius_bound 0 0 0 0 0 0.75 0 0 0 mesh0 BOX false
           heap0); unfold draw; lra.
Defined.

(** C3. For every particle the constructor makes, whatever the draws in
    [[0, 1)], the distance of the scatter target from the origin lies in
    [[12, 32]] for a dust particle and in [[8, 20]] otherwise. *)
Theorem scatter_shell_bound s1 s2 s3 u1 u2 u3 u4 u5 u6 mesh type isDust h :
  draw u4 ->
  let p := fst (new_Particle s1 s2 s3 u1 u2 u3 u4 u5 u6 mesh type isDust h) in
  let h' := snd (new_Particle s1 s2 s3 u1 u2 u3 u4 u5 u6 mesh type isDust h) in
  if Particle.isDust p
  then 12 <= norm (cell h' (Particle.posScatter p)) <= 32
  else 8 <= norm (cell h' (Particle.posScatter p)) <= 20.
Proof.
  intros H4 p h'. subst p h'.
  rewrite new_Particle_posScatter.
  destruct (new_Particle_cells s1 s2 s3 u1 u2 u3 u4 u5 u6 mesh type isDust h)
    as (_ & _ & _ & _ & _ & Hd & _).
  rewrite Hd. unfold draw in H4.
  destruct isDust; rewrite Rabs_right by lra; lra.
Qed.

Lemma scatter_shell_bound_witness :
  let p := fst (new_Particle 0 0 0 0 0 0 0.5 0 0 mesh0 DUST true
                  heap0) in
  let h' := snd (new_Particle 0 0 0 0 0 0 0.5 0 0 mesh0 DUST true
                   heap0) in
  if Particle.isDust p
  then 12 <= norm (cell h' (Particle.posScatter p)) <= 32
  else 8 <= norm (cell h' (Particle.posScatter p)) <= 20.
Proof.
  apply (scatter_shell_bound 0 0 0 0 0 0 0.5 0 0 mesh0 DUST true
           heap0). unfold draw. lra.
Defined.

(** ** In-place interpolation *)

(** Reading a cell past writes to another one, [H] being the proof that
    the two differ. *)
Ltac skip_writes H :=
  repeat first
    [ rewrite cell_setx_neq by exact H
    | rewrite cell_sety_neq by exact H
    | rewrite cell_setz_neq by exact H
    | rewrite cell_store_neq by exact H ].

Lemma lerp_at_other r r' v alpha h :
  r' <> r -> cell (lerp_at r v alpha h) r' = cell h r'.
Proof.
  intros Hne. unfold lerp_at.
  now rewrite cell_setz_neq, cell_sety_neq, cell_setx_neq.
Qed.

(** When the argument is not the receiver itself, the three assignments
    amount to the vector interpolation. *)
Lemma lerp_at_self r v alpha h :
  v <> Obj r ->
  cell (lerp_at r v alpha h) r = Vector3.lerp (cell h r) (rd h v) alpha.
Proof.
  intros Hv. unfold lerp_at, setx, sety, setz, Vector3.lerp, store.
  destruct v as [r0 | w]; simpl.
  - assert (Hne : Nat.eqb r0 r = false) by (apply Nat.eqb_neq; congruence).
    rewrite !Nat.eqb_refl, !Hne. reflexivity.
  - rewrite !Nat.eqb_refl. reflexivity.
Qed.

Lemma lerp_fixpoint (a : Vector3.t) (alpha : R) : Vector3.lerp a a alpha = a.
Proof.
  destruct a as [ax ay az]. unfold Vector3.lerp. simpl. f_equal; ring.
Qed.

Lemma separate_not_mesh (p q : Particle.t) (r : ref) :
  separate p q -> In r (target_cells p) ->
  r <> Mesh.position (Particle.mesh q) /\
  r <> Mesh.rotation (Particle.mesh q) /\
  r <> Mesh.scale (Particle.mesh q).
Proof.
  intros Hsep Hin. specialize (Hsep r Hin). unfold mesh_cells in Hsep. simpl in Hsep.
  repeat split; intros ->; apply Hsep; auto.
Qed.

Section UpdateFacts.

Variable Matrix4 : Type.
Variable invert : Matrix4 -> Matrix4.
Variable applyMatrix4 : Vector3.t -> Matrix4 -> Vector3.t.
Variable lookAt : Globals Matrix4 -> Heap -> Mesh.t -> Vector3.t -> Vector3.t.

Local Abbreviation update' := (update Matrix4 invert applyMatrix4 lookAt).
Local Abbreviation update_all' := (update_all Matrix4 invert applyMatrix4 lookAt).
Local Abbreviation updates' := (updates Matrix4 invert applyMatrix4 lookAt).
Local Abbreviation target_of' := (target_of Matrix4 invert applyMatrix4).

Lemma update_this G dt mode focus q h : fst (update' G dt mode focus q h) = q.
Proof. reflexivity. Qed.

(** [update] writes to the three vectors of the particle's mesh and to
    nothing else. *)
Lemma update_frame G dt mode focus q h r :
  r <> Mesh.position (Particle.mesh q) ->
  r <> Mesh.rotation (Particle.mesh q) ->
  r <> Mesh.scale (Particle.mesh q) ->
  cell (snd (update' G dt mode focus q h)) r = cell h r.
Proof.
  intros Hp Hr Hs. unfold update. cbn [snd].
  rewrite lerp_at_other by exact Hs.
  destruct (Mode_eqb mode FOCUS && is_focus q focus);
    destruct (Mode_eqb mode SCATTER);
    [| destruct (Mode_eqb mode TREE) | | destruct (Mode_eqb mode TREE)];
    skip_writes Hr;
    apply lerp_at_other; exact Hp.
Qed.

(** The interpolation target is never the position vector itself. *)
Lemma target_not_position G mode focus p :
  separate p p ->
  target_of' G mode focus p <> Obj (Mesh.position (Particle.mesh p)).
Proof.
  intros Hsep.
  destruct (separate_not_mesh p p (Particle.posTree p) Hsep) as (Ht & _);
    [simpl; auto |].
  destruct (separate_not_mesh p p (Particle.posScatter p) Hsep) as (Hs & _);
    [simpl; auto |].
  unfold target_of.
  destruct (Mode_eqb mode FOCUS); [destruct (is_focus p focus) |];
    [discriminate | congruence |].
  destruct (Mode_eqb mode SCATTER); congruence.
Qed.

(** The position after one frame. *)
Lemma update_position G dt mode focus p h :
  well_formed p ->
  cell (snd (update' G dt mode focus p h)) (Mesh.position (Particle.mesh p))
  = Vector3.lerp (cell h (Mesh.position (Particle.mesh p)))
      (rd h (target_of' G mode focus p))
      ((if Mode_eqb mode FOCUS && is_focus p focus then 5.0 else 2.0) * dt).
Proof.
  intros [Hnd Hsep].
  unfold mesh_cells in Hnd.
  assert (Hpr : Mesh.position (Particle.mesh p) <> Mesh.rotation (Particle.mesh p)).
  { inversion Hnd as [| ? ? Hnin _]. simpl in Hnin. intuition. }
  assert (Hps : Mesh.position (Particle.mesh p) <> Mesh.scale (Particle.mesh p)).
  { inversion Hnd as [| ? ? Hnin _]. simpl in Hnin. intuition. }
  unfold update. cbn [snd].
  rewrite lerp_at_other by exact Hps.
  destruct (Mode_eqb mode FOCUS && is_focus p focus);
    destruct (Mode_eqb mode SCATTER);
    [| destruct (Mode_eqb mode TREE) | | destruct (Mode_eqb mode TREE)];
    skip_writes Hpr;
    apply lerp_at_self; apply target_not_position; exact Hsep.
Qed.

(** The value of the target is not touched by the frame. *)
Lemma update_target G G' dt mode focus p h :
  separate p p ->
  rd (snd (update' G' dt mode focus p h)) (target_of' G mode focus p)
  = rd h (target_of' G mode focus p).
Proof.
  intros Hsep.
  destruct (separate_not_mesh p p (Particle.posTree p) Hsep) as (Ht1 & Ht2 & Ht3);
    [simpl; auto |].
  destruct (separate_not_mesh p p (Particle.posScatter p) Hsep) as (Hs1 & Hs2 & Hs3);
    [simpl; auto |].
  unfold target_of.
  destruct (Mode_eqb mode FOCUS); [destruct (is_focus p focus) |];
    [reflexivity | apply update_frame; assumption |].
  destruct (Mode_eqb mode SCATTER); apply update_frame; assumption.
Qed.

(** The target depends on the globals through the world matrix of the main
    group only. *)
Lemma target_of_matrix G G' mode focus p :
  mainGroup_matrixWorld Matrix4 G' = mainGroup_matrixWorld Matrix4 G ->
  target_of' G' mode focus p = target_of' G mode focus p.
Proof. intros HM. unfold target_of. now rewrite HM. Qed.

Lemma updates_cons G dt frames mode focus p h :
  updates' ((G, dt) :: frames) mode focus p h
  = updates' frames mode focus p (snd (update' G dt mode focus p h)).
Proof. reflexivity. Qed.

Lemma updates_position G frames mode focus p h :
  well_formed p ->
  Forall (fun f => mainGroup_matrixWorld Matrix4 (fst f)
                   = mainGroup_matrixWorld Matrix4 G) frames ->
  cell h (Mesh.position (Particle.mesh p)) = rd h (target_of' G mode focus p) ->
  fst (updates' frames mode focus p h) = p /\
  cell (snd (updates' frames mode focus p h)) (Mesh.position (Particle.mesh p))
  = cell h (Mesh.position (Particle.mesh p)).
Proof.
  intros Hwf Hall. revert h.
  induction Hall as [| [G' dt] frames HM _ IH]; intros h Hat.
  - split; reflexivity.
  - simpl in HM.
    assert (Hpos : cell (snd (update' G' dt mode focus p h))
                     (Mesh.position (Particle.mesh p))
                   = cell h (Mesh.position (Particle.mesh p))).
    { rewrite update_position by exact Hwf.
      rewrite (target_of_matrix G G' mode focus p HM), <- Hat.
      apply lerp_fixpoint. }
    specialize (IH (snd (update' G' dt mode focus p h))).
    rewrite Hpos, (update_target G G' dt mode focus p h (proj2 Hwf)) in IH.
    specialize (IH Hat).
    rewrite updates_cons. exact IH.
Qed.

(** C7. If the position of a well-formed particle equals its interpolation
    target for the given mode and focus target, one frame leaves the
    position as it is, whatever [dt] is, and so does any number of further
    frames with the same mode, focus target and main-group matrix, each
    with its own [dt] and clock. *)
Theorem update_idempotent_at_target G dt frames mode focus p h :
  well_formed p ->
  cell h (Mesh.position (Particle.mesh p)) = rd h (target_of' G mode focus p) ->
  Forall (fun f => mainGroup_matrixWorld Matrix4 (fst f)
                   = mainGroup_matrixWorld Matrix4 G) frames ->
  cell (snd (update' G dt mode focus p h)) (Mesh.position (Particle.mesh p))
  = cell h (Mesh.position (Particle.mesh p)) /\
  cell (snd (updates' frames mode focus p h)) (Mesh.position (Particle.mesh p))
  = cell h (Mesh.position (Particle.mesh p)).
Proof.
  intros Hwf Hat Hall. split.
  - rewrite update_position by exact Hwf. rewrite <- Hat. apply lerp_fixpoint.
  - now apply (updates_position G frames mode focus p h Hwf Hall).
Qed.

(** A frame of [q] keeps what is fixed of [p] when their cells are apart. *)
Lemma update_fixed G dt mode focus p q h :
  separate p q ->
  fixed_of p (snd (update' G dt mode focus q h)) = fixed_of p h.
Proof.
  intros Hsep. unfold fixed_of.
  destruct (separate_not_mesh p q (Particle.posTree p) Hsep) as (? & ? & ?);
    [simpl; auto |].
  destruct (separate_not_mesh p q (Particle.posScatter p) Hsep) as (? & ? & ?);
    [simpl; auto |].
  destruct (separate_not_mesh p q (Particle.spinSpeed p) Hsep) as (? & ? & ?);
    [simpl; auto |].
  f_equal; apply update_frame; assumption.
Qed.

Lemma update_all_cons G dt mode focus q ps h :
  update_all' G dt mode focus (q :: ps) h
  = (q :: fst (update_all' G dt mode focus ps (snd (update' G dt mode focus q h))),
     snd (update_all' G dt mode focus ps (snd (update' G dt mode focus q h)))).
Proof.
  simpl.
  destruct (update_all Matrix4 invert applyMatrix4 lookAt G dt mode focus ps _).
  reflexivity.
Qed.

Lemma update_all_fixed G dt mode focus p ps h :
  Forall (separate p) ps ->
  fst (update_all' G dt mode focus ps h) = ps /\
  fixed_of p (snd (update_all' G dt mode focus ps h)) = fixed_of p h.
Proof.
  intros Hall. revert h. induction Hall as [| q ps Hq _ IH]; intros h.
  - split; reflexivity.
  - rewrite update_all_cons. cbn [fst snd].
    destruct (IH (snd (update' G dt mode focus q h))) as [E1 E2].
    rewrite E1, E2. split; [reflexivity |]. now apply update_fixed.
Qed.

(** C9. The per-frame update of a well-formed particle, for every mode,
    focus target and [dt], returns the particle with its fields as they
    were and leaves its tree target, scatter target and spin velocity, as
    well as its type, dust flag and base scale, unchanged; so does the
    frame loop over any particle system whose meshes share no vector with
    the particle's targets. *)
Theorem update_preserves_fixed G dt mode focus p ps h :
  well_formed p -> Forall (separate p) ps ->
  (fst (update' G dt mode focus p h) = p /\
   fixed_of p (snd (update' G dt mode focus p h)) = fixed_of p h) /\
  (fst (update_all' G dt mode focus ps h) = ps /\
   fixed_of p (snd (update_all' G dt mode focus ps h)) = fixed_of p h).
Proof.
  intros [_ Hself] Hall. split.
  - split; [reflexivity | now apply update_fixed].
  - now apply update_all_fixed.
Qed.

End UpdateFacts.

Lemma well_formed_photo0 : well_formed photo0.
Proof.
  split.
  - unfold mesh_cells. simpl. repeat constructor; simpl; intuition discriminate.
  - intros r Hin Hmesh. simpl in Hin, Hmesh.
    intuition (subst; discriminate).
Qed.

(** C7 on the sample photo, resting on its tree target in TREE mode, for
    one frame and for two more. *)
Lemma update_idempotent_at_target_witness :
  cell (snd (update unit (fun m => m) (fun v _ => v) (fun _ _ _ v => v)
               globals0 0.016 TREE None photo0 heap0))
       (Mesh.position (Particle.mesh photo0))
  = cell heap0 (Mesh.position (Particle.mesh photo0)) /\
  cell (snd (updates unit (fun m => m) (fun v _ => v) (fun _ _ _ v => v)
               [(globals0, 0.016); (globals0, 0.02)] TREE None photo0 heap0))
       (Mesh.position (Particle.mesh photo0))
  = cell heap0 (Mesh.position (Particle.mesh photo0)).
Proof.
  apply (update_idempotent_at_target unit (fun m => m) (fun v _ => v)
           (fun _ _ _ v => v) globals0 0.016
           [(globals0, 0.016); (globals0, 0.02)] TREE None photo0 heap0).
  - exact well_formed_photo0.
  - reflexivity.
  - repeat constructor.
Defined.

(** C9 on the sample photo in a particle system made of it alone. *)
Lemma update_preserves_fixed_witness :
  (fst (update unit (fun m => m) (fun v _ => v) (fun _ _ _ v => v)
          globals0 0.016 FOCUS (Some mesh0) photo0 heap0) = photo0 /\
   fixed_of photo0
     (snd (update unit (fun m => m) (fun v _ => v) (fun _ _ _ v => v)
             globals0 0.016 FOCUS (Some mesh0) photo0 heap0))
   = fixed_of photo0 heap0) /\
  (fst (update_all unit (fun m => m) (fun v _ => v) (fun _ _ _ v => v)
          globals0 0.016 FOCUS (Some mesh0) [photo0] heap0) = [photo0] /\
   fixed_of photo0
     (snd (update_all unit (fun m => m) (fun v _ => v) (fun _ _ _ v => v)
             globals0 0.016 FOCUS (Some mesh0) [photo0] heap0))
   = fixed_of photo0 heap0).
Proof.
  apply (update_preserves_fixed unit (fun m => m) (fun v _ => v)
           (fun _ _ _ v => v) globals0 0.016 FOCUS (Some mesh0) photo0
           [photo0] heap0).
  - exact well_formed_photo0.
  - constructor; [apply well_formed_photo0 | constructor].
Defined.

(** ** What construction guarantees *)

Lemma next_set r a b c h : next (set r a b c h) = next h.
Proof. reflexivity. Qed.

Lemma new_Object3D_spec (id : nat) (h : Heap) :
  fst (new_Object3D id h)
  = Mesh.mk id (next h) (S (next h)) (S (S (next h))) /\
  next (snd (new_Object3D id h)) = S (S (S (next h))) /\
  (forall r, (r < next h)%nat -> cell (snd (new_Object3D id h)) r = cell h r).
Proof.
  unfold new_Object3D, alloc. cbn [fst snd next cell].
  repeat split. intros r Hr.
  destruct (Nat.eqb_spec r (S (S (next h)))); [lia |].
  destruct (Nat.eqb_spec r (S (next h))); [lia |].
  destruct (Nat.eqb_spec r (next h)); [lia |]. reflexivity.
Qed.

Lemma new_Particle_baseScale s1 s2 s3 u1 u2 u3 u4 u5 u6 mesh type isDust h :
  (Mesh.scale mesh < next h)%nat ->
  Particle.baseScale
    (fst (new_Particle s1 s2 s3 u1 u2 u3 u4 u5 u6 mesh type isDust h))
  = Vector3.x (cell h (Mesh.scale mesh)).
Proof.
  intros Hs. unfold_constructor. cbn [cell].
  destruct (Nat.eqb_spec (Mesh.scale mesh) (S (next h))); [lia |].
  destruct (Nat.eqb_spec (Mesh.scale mesh) (next h)); [lia |]. reflexivity.
Qed.

Lemma addPhotoToScene_eq id s1 s2 s3 u1 u2 u3 u4 u5 u6 ps h :
  addPhotoToScene id s1 s2 s3 u1 u2 u3 u4 u5 u6 ps h =
  let group := fst (new_Object3D id h) in
  let h2 := set (Mesh.scale group) 0.8 0.8 0.8 (snd (new_Object3D id h)) in
  let np := new_Particle s1 s2 s3 u1 u2 u3 u4 u5 u6 group PHOTO false h2 in
  (ps ++ [fst np], snd np).
Proof.
  unfold addPhotoToScene.
  destruct (new_Object3D id h) as [group h1]. cbn [fst snd].
  destruct (new_Particle s1 s2 s3 u1 u2 u3 u4 u5 u6 group PHOTO false _).
  reflexivity.
Qed.

(** Uploading a photo appends exactly one particle; it has type PHOTO and
    base scale 0.8, it is well formed, its vectors are fresh, and every
    particle already there keeps its fixed attributes and stays apart from
    the new one. *)
Lemma addPhotoToScene_spec id s1 s2 s3 u1 u2 u3 u4 u5 u6 ps h :
  Forall (fun q => allocated q h) ps ->
  let ps' := fst (addPhotoToScene id s1 s2 s3 u1 u2 u3 u4 u5 u6 ps h) in
  let h' := snd (addPhotoToScene id s1 s2 s3 u1 u2 u3 u4 u5 u6 ps h) in
  exists p,
    ps' = ps ++ [p] /\ length ps' = S (length ps) /\
    Particle.type p = PHOTO /\ Particle.isDust p = false /\
    Particle.baseScale p = 0.8 /\
    well_formed p /\ allocated p h' /\
    Forall (fun q => separate p q /\ separate q p /\
                     fixed_of q h' = fixed_of q h /\ allocated q h') ps.
Proof.
  intros Hall ps' h'. subst ps' h'. rewrite addPhotoToScene_eq. cbn zeta.
  destruct (new_Object3D_spec id h) as (Hg & Hn1 & Hold1).
  set (group := fst (new_Object3D id h)) in *.
  set (h1 := snd (new_Object3D id h)) in *.
  set (h2 := set (Mesh.scale group) 0.8 0.8 0.8 h1).
  assert (Hn2 : next h2 = S (S (S (next h)))) by (unfold h2; now rewrite next_set).
  destruct (new_Particle_cells s1 s2 s3 u1 u2 u3 u4 u5 u6 group PHOTO false h2)
    as (Ht & Hsc & Hsp & Hm & Hty & Hd & Hn3 & Hold2).
  pose proof (new_Particle_baseScale s1 s2 s3 u1 u2 u3 u4 u5 u6 group PHOTO false h2)
    as Hb.
  set (np := new_Particle s1 s2 s3 u1 u2 u3 u4 u5 u6 group PHOTO false h2) in *.
  cbn [fst snd]. cbv zeta in Ht, Hsc, Hsp, Hm, Hty, Hd, Hn3, Hold2.
  rewrite Hn2 in Ht, Hsc, Hsp, Hn3.
  exists (fst np). split; [reflexivity |].
  split; [rewrite length_app; simpl; lia |].
  split; [exact Hty |]. split; [exact Hd |].
  split.
  { rewrite Hb by (rewrite Hn2, Hg; simpl; lia).
    unfold h2. rewrite cell_set_eq. reflexivity. }
  assert (Hcells : mesh_cells (Particle.mesh (fst np))
                   = [next h; S (next h); S (S (next h))]).
  { rewrite Hm, Hg. reflexivity. }
  assert (Htargets : target_cells (fst np)
                     = [S (S (S (next h))); S (S (S (S (next h))));
                        S (S (S (S (S (next h)))))]).
  { unfold target_cells. now rewrite Ht, Hsc, Hsp. }
  split.
  { split.
    - rewrite Hcells. repeat constructor; simpl; intuition lia.
    - intros r Hin Hmesh. rewrite Htargets in Hin. rewrite Hcells in Hmesh.
      simpl in Hin, Hmesh. lia. }
  split.
  { intros r Hin. rewrite Hn3. apply in_app_or in Hin.
    rewrite Hcells, Htargets in Hin. simpl in Hin. lia. }
  apply Forall_forall. intros q Hq.
  rewrite Forall_forall in Hall. specialize (Hall q Hq). unfold allocated in Hall.
  assert (Hqm : forall r, In r (mesh_cells (Particle.mesh q)) -> (r < next h)%nat).
  { intros r Hr. apply Hall. apply in_or_app. now left. }
  assert (Hqt : forall r, In r (target_cells q) -> (r < next h)%nat).
  { intros r Hr. apply Hall. apply in_or_app. now right. }
  assert (Hkeep : forall r, (r < next h)%nat -> cell (snd np) r = cell h r).
  { intros r Hr. rewrite Hold2 by lia. unfold h2.
    rewrite cell_set_neq by (rewrite Hg; simpl; lia). now apply Hold1. }
  repeat split.
  - intros r Hin Hmesh. rewrite Htargets in Hin. apply Hqm in Hmesh.
    simpl in Hin. lia.
  - intros r Hin Hmesh. rewrite Hcells in Hmesh. apply Hqt in Hin.
    simpl in Hmesh. lia.
  - unfold fixed_of. f_equal; apply Hkeep; apply Hqt; simpl; auto.
  - intros r Hin. rewrite Hn3. apply Hall in Hin. lia.
Qed.

(** ** More on processGestures: the hand signal and the failure cases *)

Lemma js_index_In {A : Type} (a : list A) (k : Z) (v : A) :
  js_index a k = Some v -> In v a.
Proof.
  unfold js_index. destruct (k <? 0)%Z; [discriminate |]. apply nth_error_In.
Qed.

Lemma js_index_short {A : Type} (a : list A) (k : Z) :
  (Z.of_nat (length a) <= k)%Z -> js_index a k = None.
Proof.
  intros Hk. unfold js_index.
  destruct (Z.ltb_spec k 0) as [_ | Hpos]; [reflexivity |].
  apply nth_error_None. lia.
Qed.

(** What a call leaves in the fields other than mode and focus target, on
    every input and also when it throws. *)
Lemma processGestures_hand rnd ps result S :
  STATE.focusIndex (final (processGestures rnd ps result S)) = STATE.focusIndex S /\
  STATE.rotation (final (processGestures rnd ps result S)) = STATE.rotation S /\
  STATE.hand (final (processGestures rnd ps result S)) =
  match landmarks result with
  | Some (lm :: _) =>
      match js_index lm 9 with
      | Some l9 => Hand.mk true ((Lm.x l9 - 0.5) * 2) ((Lm.y l9 - 0.5) * 2)
      | None => Hand.mk true (Hand.x (STATE.hand S)) (Hand.y (STATE.hand S))
      end
  | _ => Hand.mk false (Hand.x (STATE.hand S)) (Hand.y (STATE.hand S))
  end.
Proof.
  unfold processGestures.
  destruct (landmarks result) as [[| lm rest] |];
    try (repeat split; reflexivity).
  unfold reduce, at_.
  destruct (js_index lm 9) as [l9 |]; [| repeat split; reflexivity].
  destruct (js_index lm 4) as [l4 |]; [| repeat split; reflexivity].
  destruct (js_index lm 8) as [l8 |]; [| repeat split; reflexivity].
  destruct (js_index lm 12) as [l12 |];
    [| destruct (js_index lm 0); repeat split; reflexivity].
  destruct (js_index lm 0) as [l0 |]; [| repeat split; reflexivity].
  destruct (js_index lm 16) as [l16 |]; [| repeat split; reflexivity].
  destruct (js_index lm 20) as [l20 |]; [| repeat split; reflexivity].
  cbv [bind ret modify prop_of get throw].
  destruct (Rlt_dec _ 0.05).
  - destruct (Mode_eqb _ FOCUS); [repeat split; reflexivity |].
    destruct (length _ =? 0)%nat; [repeat split; reflexivity |].
    destruct (js_index _ _); repeat split; reflexivity.
  - destruct (Rlt_dec _ 0.25); [repeat split; reflexivity |].
    destruct (Rgt_dec _ 0.4); repeat split; reflexivity.
Qed.

(** X1. Whenever the first detected hand has at least ten landmarks, also
    when the call throws later on, the pointing vector left in [STATE.hand]
    is landmark 9 mapped from [[0, 1]] to [[-1, 1]] on both axes, the hand
    is flagged as detected, and [focusIndex] and [rotation] are untouched. *)
Theorem hand_signal rnd ps lm rest S :
  (10 <= length lm)%nat ->
  0 <= Lm.x (landmark lm 9) <= 1 -> 0 <= Lm.y (landmark lm 9) <= 1 ->
  let S' := final (processGestures rnd ps (mkResult (Some (lm :: rest))) S) in
  STATE.hand S' = Hand.mk true ((Lm.x (landmark lm 9) - 0.5) * 2)
                               ((Lm.y (landmark lm 9) - 0.5) * 2) /\
  -1 <= Hand.x (STATE.hand S') <= 1 /\ -1 <= Hand.y (STATE.hand S') <= 1 /\
  STATE.focusIndex S' = STATE.focusIndex S /\
  STATE.rotation S' = STATE.rotation S.
Proof.
  intros Hlen Hx Hy S'. subst S'.
  destruct (processGestures_hand rnd ps (mkResult (Some (lm :: rest))) S)
    as (Hi & Hr & Hh).
  cbn [landmarks] in Hh.
  rewrite (js_index_landmark lm 9) in Hh by lia.
  change (Z.to_nat 9) with 9%nat in Hh.
  rewrite Hh. cbn [Hand.x Hand.y].
  repeat split; try assumption; lra.
Qed.

Lemma hand_signal_witness :
  let S' := final (processGestures 0 [] (mkResult (Some [hand_with 0 0.3]))
                     STATE.init) in
  STATE.hand S' = Hand.mk true ((Lm.x (landmark (hand_with 0 0.3) 9) - 0.5) * 2)
                               ((Lm.y (landmark (hand_with 0 0.3) 9) - 0.5) * 2) /\
  -1 <= Hand.x (STATE.hand S') <= 1 /\ -1 <= Hand.y (STATE.hand S') <= 1 /\
  STATE.focusIndex S' = STATE.focusIndex STATE.init /\
  STATE.rotation S' = STATE.rotation STATE.init.
Proof.
  apply (hand_signal 0 [] (hand_with 0 0.3) [] STATE.init).
  - unfold hand_with. simpl. lia.
  - unfold hand_with, landmark. simpl. lra.
  - unfold hand_with, landmark. simpl. lra.
Defined.

(** X2. After a call, on every input and also when it throws,
    [STATE.hand.detected] tells whether the result held at least one hand;
    when it held none, the pointing vector of the last detection is kept. *)
Theorem hand_detected_iff rnd ps result S :
  let S' := final (processGestures rnd ps result S) in
  (Hand.detected (STATE.hand S') = true <->
   exists lm rest, landmarks result = Some (lm :: rest)) /\
  (Hand.detected (STATE.hand S') = false ->
   Hand.x (STATE.hand S') = Hand.x (STATE.hand S) /\
   Hand.y (STATE.hand S') = Hand.y (STATE.hand S)).
Proof.
  intros S'. subst S'.
  destruct (processGestures_hand rnd ps result S) as (_ & _ & Hh).
  rewrite Hh. destruct (landmarks result) as [[| lm rest] |].
  - split; [split; [discriminate | intros (? & ? & ?); discriminate] |].
    intros _. split; reflexivity.
  - split.
    + split; [intros _; eauto |].
      intros _. destruct (js_index lm 9); reflexivity.
    + destruct (js_index lm 9); discriminate.
  - split; [split; [discriminate | intros (? & ? & ?); discriminate] |].
    intros _. split; reflexivity.
Qed.

(** A hand of fewer than 21 landmarks: some property read fails. *)
Lemma short_hand_throws rnd ps lm rest S :
  (length lm < 21)%nat ->
  exists S',
    processGestures rnd ps (mkResult (Some (lm :: rest))) S = TypeError S' /\
    STATE.mode S' = STATE.mode S /\ STATE.focusTarget S' = STATE.focusTarget S.
Proof.
  intros Hlen.
  assert (H20 : js_index lm 20 = None) by (apply js_index_short; lia).
  unfold processGestures, landmarks, reduce, at_. rewrite H20.
  destruct (js_index lm 9) as [l9 |]; [| eexists; repeat split; reflexivity].
  destruct (js_index lm 4) as [l4 |]; [| eexists; repeat split; reflexivity].
  destruct (js_index lm 8) as [l8 |]; [| eexists; repeat split; reflexivity].
  destruct (js_index lm 12) as [l12 |];
    [| destruct (js_index lm 0); eexists; repeat split; reflexivity].
  destruct (js_index lm 0) as [l0 |]; [| eexists; repeat split; reflexivity].
  destruct (js_index lm 16) as [l16 |]; eexists; repeat split; reflexivity.
Qed.

(** A full hand and a draw of [[0, 1)]: the call returns. *)
Lemma full_hand_returns rnd ps lm rest S :
  full_hand lm -> draw rnd ->
  exists S', processGestures rnd ps (mkResult (Some (lm :: rest))) S = Normal tt S'.
Proof.
  intros Hfull Hrnd.
  rewrite processGestures_full_hand by exact Hfull.
  destruct (Rlt_dec (pinchDistance lm) 0.05).
  - destruct (Mode_eqb (STATE.mode S) FOCUS); [eexists; reflexivity |].
    destruct (photosOf ps) as [| q qs] eqn:Hphotos; [eexists; reflexivity |].
    assert (Hne : photosOf ps <> []) by (rewrite Hphotos; discriminate).
    destruct (enter_focus rnd ps (STATE.set_mode FOCUS (with_hand lm S)) Hrnd Hne)
      as (k & p & _ & _ & Hrun).
    rewrite Hphotos in Hrun. eexists.
    unfold bind at 1. unfold modify at 1.
    change (length (q :: qs) =? 0)%nat with false. cbv iota. exact Hrun.
  - destruct (Rlt_dec (avgDistance lm) 0.25); [eexists; reflexivity |].
    destruct (Rgt_dec (avgDistance lm) 0.4); eexists; reflexivity.
Qed.

(** X3. With [Math.random()] in [[0, 1)], a call throws a [TypeError]
    exactly when the first detected hand has fewer than 21 landmarks; the
    exception leaves the mode and the focus target as they were. *)
Theorem throws_iff_short_hand rnd ps result S :
  draw rnd ->
  ((exists S', processGestures rnd ps result S = TypeError S') <->
   (exists lm rest, landmarks result = Some (lm :: rest) /\ (length lm < 21)%nat)) /\
  (forall S', processGestures rnd ps result S = TypeError S' ->
              STATE.mode S' = STATE.mode S /\
              STATE.focusTarget S' = STATE.focusTarget S).
Proof.
  intros Hrnd. destruct result as [l].
  assert (Hcases :
    (exists S', processGestures rnd ps (mkResult l) S = Normal tt S') \/
    (exists lm rest, l = Some (lm :: rest) /\ (length lm < 21)%nat /\
       exists S', processGestures rnd ps (mkResult l) S = TypeError S' /\
                  STATE.mode S' = STATE.mode S /\
                  STATE.focusTarget S' = STATE.focusTarget S)).
  { destruct l as [[| lm rest] |].
    - left. eexists. reflexivity.
    - destruct (le_lt_dec 21 (length lm)) as [Hfull | Hshort].
      + left. now apply full_hand_returns.
      + right. exists lm, rest. split; [reflexivity |]. split; [exact Hshort |].
        now apply short_hand_throws.
    - left. eexists. reflexivity. }
  cbn [landmarks]. split; [split |].
  - intros (S' & Hthrow).
    destruct Hcases as [(S1 & Hret) | (lm & rest & Hl & Hlen & _)];
      [congruence | eauto].
  - intros (lm & rest & Hl & Hlen).
    destruct Hcases as [(S1 & Hret) | (lm' & rest' & _ & _ & S' & Hthrow & _)];
      [| eauto].
    subst l.
    destruct (short_hand_throws rnd ps lm rest S Hlen) as (S2 & Hthrow & _).
    congruence.
  - intros S' Hthrow.
    destruct Hcases as [(S1 & Hret) | (lm & rest & _ & _ & S2 & Hthrow2 & Hm & Hf)];
      [congruence |].
    assert (S' = S2) by congruence. subst S2. split; assumption.
Qed.

Lemma throws_iff_short_hand_witness :
  ((exists S', processGestures 0 [photo0]
                 (mkResult (Some [[Lm.mk 0.5 0.5]])) STATE.init = TypeError S') <->
   (exists lm rest,
      landmarks (mkResult (Some [[Lm.mk 0.5 0.5]])) = Some (lm :: rest) /\
      (length lm < 21)%nat)) /\
  (forall S', processGestures 0 [photo0]
                (mkResult (Some [[Lm.mk 0.5 0.5]])) STATE.init = TypeError S' ->
              STATE.mode S' = STATE.mode STATE.init /\
              STATE.focusTarget S' = STATE.focusTarget STATE.init).
Proof.
  apply (throws_iff_short_hand 0 [photo0] (mkResult (Some [[Lm.mk 0.5 0.5]]))
           STATE.init).
  unfold draw. lra.
Defined.

(** X4. The thresholds are strict. For a full hand whose pinch distance is
    at least 0.05 (0.05 itself included) and whose average fingertip-to-wrist
    distance lies in the closed interval from 0.25 to 0.4, the call returns
    and changes neither the mode nor the focus target. *)
Theorem thresholds_are_strict rnd ps lm rest S :
  full_hand lm -> 0.05 <= pinchDistance lm -> 0.25 <= avgDistance lm <= 0.4 ->
  exists S',
    processGestures rnd ps (mkResult (Some (lm :: rest))) S = Normal tt S' /\
    STATE.mode S' = STATE.mode S /\ STATE.focusTarget S' = STATE.focusTarget S.
Proof.
  intros Hfull Hpinch [Hlo Hhi].
  rewrite openness_branch by assumption.
  destruct (Rlt_dec (avgDistance lm) 0.25) as [Hlt | _]; [lra |].
  destruct (Rgt_dec (avgDistance lm) 0.4) as [Hgt | _]; [unfold Rgt in Hgt; lra |].
  eexists. split; [reflexivity |]. split; reflexivity.
Qed.

(** X4 on two boundary values at once: pinch distance exactly 0.05 and
    average distance exactly 0.4, from the initial state. *)
Lemma thresholds_are_strict_witness :
  exists S',
    processGestures 0 [photo0] (mkResult (Some [hand_with 0.45 0.4])) STATE.init
      = Normal tt S' /\
    STATE.mode S' = STATE.mode STATE.init /\
    STATE.focusTarget S' = STATE.focusTarget STATE.init.
Proof.
  apply (thresholds_are_strict 0 [photo0] (hand_with 0.45 0.4) [] STATE.init).
  - apply full_hand_hand_with.
  - rewrite pinchDistance_hand_with. unfold Rabs. destruct (Rcase_abs _); lra.
  - rewrite avgDistance_hand_with. unfold Rabs. destruct (Rcase_abs _); lra.
Defined.

(** X5. Repeating a detection frame changes nothing: a second call on the
    same result and the same particle system, whatever its random draw,
    leaves the whole state as the first call left it. In particular a pinch
    that is held does not select another photo. *)
Theorem processGestures_idempotent rnd rnd' ps result S :
  step (step S (mkFrame rnd ps result)) (mkFrame rnd' ps result)
  = step S (mkFrame rnd ps result).
Proof.
  unfold step. cbn [frame_rnd frame_particles frame_result].
  unfold processGestures.
  destruct (landmarks result) as [[| lm rest] |]; try reflexivity.
  unfold reduce, at_.
  destruct (js_index lm 9) as [l9 |]; [| reflexivity].
  destruct (js_index lm 4) as [l4 |]; [| reflexivity].
  destruct (js_index lm 8) as [l8 |]; [| reflexivity].
  destruct (js_index lm 12) as [l12 |];
    [| destruct (js_index lm 0); reflexivity].
  destruct (js_index lm 0) as [l0 |]; [| reflexivity].
  destruct (js_index lm 16) as [l16 |]; [| reflexivity].
  destruct (js_index lm 20) as [l20 |]; [| reflexivity].
  cbv [bind ret modify prop_of get throw].
  destruct (Rlt_dec _ 0.05).
  - cbn [STATE.mode STATE.set_hand_y STATE.set_hand_x STATE.set_hand_detected].
    destruct (Mode_eqb (STATE.mode S) FOCUS) eqn:Hm.
    + cbn [final STATE.mode STATE.set_hand_y STATE.set_hand_x
           STATE.set_hand_detected]. rewrite Hm. reflexivity.
    + destruct (length _ =? 0)%nat; [reflexivity |].
      destruct (js_index _ _); reflexivity.
  - destruct (Rlt_dec _ 0.25); [reflexivity |].
    destruct (Rgt_dec _ 0.4); reflexivity.
Qed.

(** Where the focus target of a call can come from. *)
Lemma step_focus_source (S : STATE.t) (f : Frame) :
  STATE.focusTarget (step S f) = STATE.focusTarget S \/
  STATE.focusTarget (step S f) = None \/
  exists p, In p (frame_particles f) /\ Particle.type p = PHOTO /\
            STATE.focusTarget (step S f) = Some (Particle.mesh p).
Proof.
  unfold step, processGestures.
  destruct (landmarks (frame_result f)) as [[| lm rest] |];
    try (left; reflexivity).
  unfold reduce, at_.
  destruct (js_index lm 9) as [l9 |]; [| left; reflexivity].
  destruct (js_index lm 4) as [l4 |]; [| left; reflexivity].
  destruct (js_index lm 8) as [l8 |]; [| left; reflexivity].
  destruct (js_index lm 12) as [l12 |];
    [| destruct (js_index lm 0); left; reflexivity].
  destruct (js_index lm 0) as [l0 |]; [| left; reflexivity].
  destruct (js_index lm 16) as [l16 |]; [| left; reflexivity].
  destruct (js_index lm 20) as [l20 |]; [| left; reflexivity].
  cbv [bind ret modify prop_of get throw].
  destruct (Rlt_dec _ 0.05).
  - destruct (Mode_eqb _ FOCUS); [left; reflexivity |].
    destruct (length _ =? 0)%nat; [left; reflexivity |].
    destruct (js_index _ _) as [p |] eqn:Hp; [| left; reflexivity].
    right. right. exists p. apply js_index_In in Hp.
    apply (photosOf_In (frame_particles f) p) in Hp. destruct Hp as [Hin Hty].
    repeat split; assumption.
  - destruct (Rlt_dec _ 0.25); [right; left; reflexivity |].
    destruct (Rgt_dec _ 0.4); [right; left; reflexivity | left; reflexivity].
Qed.

Lemma run_focus_source (fs : list Frame) (S : STATE.t) (m : Mesh.t) :
  STATE.focusTarget (run fs S) = Some m ->
  STATE.focusTarget S = Some m \/
  exists f p, In f fs /\ In p (frame_particles f) /\
              Particle.type p = PHOTO /\ Particle.mesh p = m.
Proof.
  revert S. induction fs as [| f fs IH]; intros S Hrun; simpl in Hrun.
  - now left.
  - destruct (IH _ Hrun) as [Hstep | (f' & p & Hf & Hp & Hty & Hm)].
    + destruct (step_focus_source S f) as [Hk | [Hn | (p & Hp & Hty & Hs)]].
      * left. congruence.
      * congruence.
      * right. exists f, p. repeat split; [now left | assumption .. | congruence].
    + right. exists f', p. repeat split; [now right | assumption ..].
Qed.

(** X6. After any sequence of calls from the initial state, a focus target
    is the mesh of a particle of type PHOTO that was in the particle system
    at one of the calls: nothing but a photo is ever pulled forward. *)
Theorem focus_target_is_a_photo (fs : list Frame) (m : Mesh.t) :
  STATE.focusTarget (run fs STATE.init) = Some m ->
  exists f p, In f fs /\ In p (frame_particles f) /\
              Particle.type p = PHOTO /\ Particle.mesh p = m.
Proof.
  intros Hrun. destruct (run_focus_source fs STATE.init m Hrun) as [H0 | H];
    [discriminate | exact H].
Qed.

Lemma focus_target_is_a_photo_witness :
  exists f p,
    In f [mkFrame 0 [photo0] (one_hand (hand_with 0.3 0.3))] /\
    In p (frame_particles f) /\ Particle.type p = PHOTO /\ Particle.mesh p = mesh0.
Proof.
  apply (focus_target_is_a_photo
           [mkFrame 0 [photo0] (one_hand (hand_with 0.3 0.3))] mesh0).
  unfold run, step. cbn [fold_left frame_rnd frame_particles frame_result].
  rewrite pinching_run. reflexivity.
Defined.

(** ** More on the layout generator *)

Lemma new_Particle_posTree_cell s1 s2 s3 u1 u2 u3 u4 u5 u6 mesh type isDust h :
  let p := fst (new_Particle s1 s2 s3 u1 u2 u3 u4 u5 u6 mesh type isDust h) in
  let h' := snd (new_Particle s1 s2 s3 u1 u2 u3 u4 u5 u6 mesh type isDust h) in
  let t := Math.pow u1 0.8 in
  let rMax := Math.max 0.5 (CONFIG.treeRadius * (1.0 - t)) in
  let angle := t * 50 * Math.PI + u2 * Math.PI in
  cell h' (Particle.posTree p)
  = Vector3.mk (Math.cos angle * (rMax * (0.8 + u3 * 0.4)))
               (t * CONFIG.treeHeight - CONFIG.treeHeight / 2)
               (Math.sin angle * (rMax * (0.8 + u3 * 0.4))).
Proof.
  unfold_constructor.
  rewrite cell_set_neq by lia. rewrite cell_set_eq. reflexivity.
Qed.

Lemma new_Particle_posScatter_cell s1 s2 s3 u1 u2 u3 u4 u5 u6 mesh type isDust h :
  let p := fst (new_Particle s1 s2 s3 u1 u2 u3 u4 u5 u6 mesh type isDust h) in
  let h' := snd (new_Particle s1 s2 s3 u1 u2 u3 u4 u5 u6 mesh type isDust h) in
  let rScatter := if isDust then 12 + u4 * 20 else 8 + u4 * 12 in
  let theta := u5 * Math.PI * 2 in
  let phi := Math.acos (2 * u6 - 1) in
  cell h' (Particle.posScatter p)
  = Vector3.mk (rScatter * Math.sin phi * Math.cos theta)
               (rScatter * Math.sin phi * Math.sin theta)
               (rScatter * Math.cos phi).
Proof.
  unfold_constructor. rewrite cell_set_eq. reflexivity.
Qed.

Lemma new_Particle_spinSpeed_cell s1 s2 s3 u1 u2 u3 u4 u5 u6 mesh type isDust h :
  let p := fst (new_Particle s1 s2 s3 u1 u2 u3 u4 u5 u6 mesh type isDust h) in
  let h' := snd (new_Particle s1 s2 s3 u1 u2 u3 u4 u5 u6 mesh type isDust h) in
  let speedMult := if isPHOTO type then 0.3 else 2.0 in
  cell h' (Particle.spinSpeed p)
  = Vector3.mk ((s1 - 0.5) * speedMult) ((s2 - 0.5) * speedMult)
               ((s3 - 0.5) * speedMult).
Proof.
  unfold_constructor. rewrite !cell_set_neq by lia.
  cbn [cell]. rewrite Nat.eqb_refl. reflexivity.
Qed.

(** X7. The tree layout is a cone. For every particle the constructor
    makes, the height [y] of the tree target lies between -12 and 12 (half
    the tree height on either side), and its horizontal radius lies between
    0.8 and 1.2 times the cone radius at that height, which is
    [(12 - y) / 3] with a floor of 0.5: the target is never on the trunk
    axis and the tree narrows linearly towards the top. *)
Theorem tree_target_in_cone s1 s2 s3 u1 u2 u3 u4 u5 u6 mesh type isDust h :
  draw u1 -> draw u3 ->
  let p := fst (new_Particle s1 s2 s3 u1 u2 u3 u4 u5 u6 mesh type isDust h) in
  let h' := snd (new_Particle s1 s2 s3 u1 u2 u3 u4 u5 u6 mesh type isDust h) in
  let y := Vector3.y (cell h' (Particle.posTree p)) in
  let r := treeRadiusOf (cell h' (Particle.posTree p)) in
  - (CONFIG.treeHeight / 2) <= y <= CONFIG.treeHeight / 2 /\
  0.8 * Rmax 0.5 ((12 - y) / 3) <= r < 1.2 * Rmax 0.5 ((12 - y) / 3) /\
  0.4 <= r.
Proof.
  intros H1 H3 p h' y r. subst y r p h'.
  rewrite new_Particle_posTree, new_Particle_posTree_cell.
  cbn [Vector3.y].
  pose proof (pow_unit u1 H1) as [Ht0 Ht1].
  unfold draw in H3. unfold Math.max, CONFIG.treeRadius, CONFIG.treeHeight.
  set (t := Math.pow u1 0.8) in *.
  replace ((12 - (t * 24 - 24 / 2)) / 3) with (8 * (1.0 - t)) by lra.
  assert (Hm : 0.5 <= Rmax 0.5 (8 * (1.0 - t))) by apply Rmax_l.
  set (rMax := Rmax 0.5 (8 * (1.0 - t))) in *.
  rewrite Rabs_right by nra.
  repeat split; nra.
Qed.

Lemma tree_target_in_cone_witness :
  let p := fst (new_Particle 0 0 0 0.5 0 0.75 0 0 0 mesh0 BOX false heap0) in
  let h' := snd (new_Particle 0 0 0 0.5 0 0.75 0 0 0 mesh0 BOX false heap0) in
  let y := Vector3.y (cell h' (Particle.posTree p)) in
  let r := treeRadiusOf (cell h' (Particle.posTree p)) in
  - (CONFIG.treeHeight / 2) <= y <= CONFIG.treeHeight / 2 /\
  0.8 * Rmax 0.5 ((12 - y) / 3) <= r < 1.2 * Rmax 0.5 ((12 - y) / 3) /\
  0.4 <= r.
Proof.
  apply (tree_target_in_cone 0 0 0 0.5 0 0.75 0 0 0 mesh0 BOX false heap0);
    unfold draw; lra.
Defined.

(** X8. Every component of the spin velocity the constructor draws lies in
    [[-0.15, 0.15)] for a photo and in [[-1, 1)] for any other particle:
    photos tumble slowly. *)
Theorem spin_speed_bound s1 s2 s3 u1 u2 u3 u4 u5 u6 mesh type isDust h :
  draw s1 -> draw s2 -> draw s3 ->
  let p := fst (new_Particle s1 s2 s3 u1 u2 u3 u4 u5 u6 mesh type isDust h) in
  let h' := snd (new_Particle s1 s2 s3 u1 u2 u3 u4 u5 u6 mesh type isDust h) in
  let v := cell h' (Particle.spinSpeed p) in
  let bound := if isPHOTO (Particle.type p) then 0.15 else 1 in
  - bound <= Vector3.x v < bound /\
  - bound <= Vector3.y v < bound /\
  - bound <= Vector3.z v < bound.
Proof.
  intros H1 H2 H3 p h' v bound. subst bound v p h'.
  rewrite new_Particle_spinSpeed_cell.
  destruct (new_Particle_cells s1 s2 s3 u1 u2 u3 u4 u5 u6 mesh type isDust h)
    as (_ & _ & _ & _ & Hty & _).
  rewrite Hty. cbn [Vector3.x Vector3.y Vector3.z].
  unfold draw in *. destruct (isPHOTO type); repeat split; lra.
Qed.

Lemma spin_speed_bound_witness :
  let p := fst (new_Particle 0 0.5 0.9 0 0 0 0 0 0 mesh0 PHOTO false heap0) in
  let h' := snd (new_Particle 0 0.5 0.9 0 0 0 0 0 0 mesh0 PHOTO false heap0) in
  let v := cell h' (Particle.spinSpeed p) in
  let bound := if isPHOTO (Particle.type p) then 0.15 else 1 in
  - bound <= Vector3.x v < bound /\
  - bound <= Vector3.y v < bound /\
  - bound <= Vector3.z v < bound.
Proof.
  apply (spin_speed_bound 0 0.5 0.9 0 0 0 0 0 0 mesh0 PHOTO false heap0);
    unfold draw; lra.
Defined.

(** X9. Inverse-cosine sampling: the third coordinate of the scatter target
    is the shell radius times [2 u - 1], [u] being the draw behind the
    polar angle, so it is an affine function of a uniform draw and ranges
    over the whole diameter of the shell. *)
Theorem scatter_height_is_affine s1 s2 s3 u1 u2 u3 u4 u5 u6 mesh type isDust h :
  draw u6 ->
  let p := fst (new_Particle s1 s2 s3 u1 u2 u3 u4 u5 u6 mesh type isDust h) in
  let h' := snd (new_Particle s1 s2 s3 u1 u2 u3 u4 u5 u6 mesh type isDust h) in
  Vector3.z (cell h' (Particle.posScatter p))
  = (if Particle.isDust p then 12 + u4 * 20 else 8 + u4 * 12) * (2 * u6 - 1).
Proof.
  intros H6 p h'. subst p h'.
  rewrite new_Particle_posScatter_cell.
  destruct (new_Particle_cells s1 s2 s3 u1 u2 u3 u4 u5 u6 mesh type isDust h)
    as (_ & _ & _ & _ & _ & Hd & _).
  rewrite Hd. cbn [Vector3.z]. unfold Math.cos, Math.acos.
  unfold draw in H6. rewrite cos_acos by lra. reflexivity.
Qed.

Lemma scatter_height_is_affine_witness :
  let p := fst (new_Particle 0 0 0 0 0 0 0.5 0 0.25 mesh0 DUST true heap0) in
  let h' := snd (new_Particle 0 0 0 0 0 0 0.5 0 0.25 mesh0 DUST true heap0) in
  Vector3.z (cell h' (Particle.posScatter p))
  = (if Particle.isDust p then 12 + 0.5 * 20 else 8 + 0.5 * 12) * (2 * 0.25 - 1).
Proof.
  apply (scatter_height_is_affine 0 0 0 0 0 0 0.5 0 0.25 mesh0 DUST true heap0).
  unfold draw. lra.
Defined.

(** ** More on the per-frame updater *)

Lemma lerp_lerp (T a : Vector3.t) (alpha F : R) :
  Vector3.lerp T (Vector3.lerp a T alpha) F
  = Vector3.lerp T a ((1 - alpha) * F).
Proof.
  destruct T as [tx ty tz], a as [ax ay az]. unfold Vector3.lerp. simpl.
  f_equal; ring.
Qed.

Lemma lerp_one (T a : Vector3.t) : Vector3.lerp T a 1 = a.
Proof.
  destruct T as [tx ty tz], a as [ax ay az]. unfold Vector3.lerp. simpl.
  f_equal; ring.
Qed.

Lemma norm_vsub_lerp (T a : Vector3.t) (F : R) :
  norm (vsub (Vector3.lerp T a F) T) = Rabs F * norm (vsub a T).
Proof.
  destruct T as [tx ty tz], a as [ax ay az].
  unfold norm, vsub, Vector3.lerp. simpl.
  rewrite <- sqrt_Rsqr_abs, <- sqrt_mult_alt by apply Rle_0_sqr.
  f_equal. unfold Rsqr. ring.
Qed.


Section UpdateLaws.

Variable Matrix4 : Type.
Variable invert : Matrix4 -> Matrix4.
Variable applyMatrix4 : Vector3.t -> Matrix4 -> Vector3.t.
Variable lookAt : Globals Matrix4 -> Heap -> Mesh.t -> Vector3.t -> Vector3.t.

Local Abbreviation update' := (update Matrix4 invert applyMatrix4 lookAt).
Local Abbreviation update_all' := (update_all Matrix4 invert applyMatrix4 lookAt).
Local Abbreviation updates' := (updates Matrix4 invert applyMatrix4 lookAt).
Local Abbreviation target_of' := (target_of Matrix4 invert applyMatrix4).

(** The position after a run of frames: the interpolation between the
    target and the starting position, weighted by the approach factor. *)
Lemma updates_approach G frames mode focus p h :
  well_formed p ->
  Forall (fun f => mainGroup_matrixWorld Matrix4 (fst f)
                   = mainGroup_matrixWorld Matrix4 G) frames ->
  cell (snd (updates' frames mode focus p h)) (Mesh.position (Particle.mesh p))
  = Vector3.lerp (rd h (target_of' G mode focus p))
      (cell h (Mesh.position (Particle.mesh p)))
      (approach (if Mode_eqb mode FOCUS && is_focus p focus then 5.0 else 2.0)
                (map snd frames)).
Proof.
  intros Hwf Hall. revert h.
  induction Hall as [| [G' dt] frames HM _ IH]; intros h.
  - simpl. now rewrite lerp_one.
  - simpl in HM.
    rewrite (updates_cons Matrix4 invert applyMatrix4 lookAt), IH.
    rewrite (update_target Matrix4 invert applyMatrix4 lookAt G G' dt mode
               focus p h (proj2 Hwf)).
    rewrite (update_position Matrix4 invert applyMatrix4 lookAt) by exact Hwf.
    rewrite (target_of_matrix Matrix4 invert applyMatrix4 G G' mode focus p HM).
    rewrite lerp_lerp. reflexivity.
Qed.

(** X10. Exponential smoothing. Over any run of frames with the same mode,
    focus target and main-group matrix, the offset of a well-formed
    particle's position from its interpolation target is the starting
    offset scaled by the product of [1 - k * dt] over the frames, where the
    speed [k] is 5 for the focused particle in FOCUS mode and 2 otherwise;
    the distance to the target is scaled by the absolute value of that
    product. *)
Theorem position_approaches_target G frames mode focus p h :
  well_formed p ->
  Forall (fun f => mainGroup_matrixWorld Matrix4 (fst f)
                   = mainGroup_matrixWorld Matrix4 G) frames ->
  let k := if Mode_eqb mode FOCUS && is_focus p focus then 5.0 else 2.0 in
  let T := rd h (target_of' G mode focus p) in
  let pos := cell h (Mesh.position (Particle.mesh p)) in
  let pos' := cell (snd (updates' frames mode focus p h))
                   (Mesh.position (Particle.mesh p)) in
  Vector3.x pos' - Vector3.x T
    = approach k (map snd frames) * (Vector3.x pos - Vector3.x T) /\
  Vector3.y pos' - Vector3.y T
    = approach k (map snd frames) * (Vector3.y pos - Vector3.y T) /\
  Vector3.z pos' - Vector3.z T
    = approach k (map snd frames) * (Vector3.z pos - Vector3.z T) /\
  norm (vsub pos' T) = Rabs (approach k (map snd frames)) * norm (vsub pos T).
Proof.
  intros Hwf Hall k T pos pos'. subst pos'.
  rewrite (updates_approach G frames mode focus p h Hwf Hall).
  fold k T pos. split; [| split; [| split]].
  - unfold Vector3.lerp. cbn [Vector3.x]. ring.
  - unfold Vector3.lerp. cbn [Vector3.y]. ring.
  - unfold Vector3.lerp. cbn [Vector3.z]. ring.
  - apply norm_vsub_lerp.
Qed.


End UpdateLaws.

Lemma position_approaches_target_witness :
  let frames := [(globals0, 0.016); (globals0, 0.02)] in
  let k := if Mode_eqb SCATTER FOCUS && is_focus photo0 None then 5.0 else 2.0 in
  let T := rd heap0 (target_of unit (fun m => m) (fun v _ => v) globals0
                       SCATTER None photo0) in
  let pos := cell heap0 (Mesh.position (Particle.mesh photo0)) in
  let pos' := cell (snd (updates unit (fun m => m) (fun v _ => v)
                           (fun _ _ _ v => v) frames SCATTER None photo0 heap0))
                   (Mesh.position (Particle.mesh photo0)) in
  Vector3.x pos' - Vector3.x T
    = approach k (map snd frames) * (Vector3.x pos - Vector3.x T) /\
  Vector3.y pos' - Vector3.y T
    = approach k (map snd frames) * (Vector3.y pos - Vector3.y T) /\
  Vector3.z pos' - Vector3.z T
    = approach k (map snd frames) * (Vector3.z pos - Vector3.z T) /\
  norm (vsub pos' T) = Rabs (approach k (map snd frames)) * norm (vsub pos T).
Proof.
  apply (position_approaches_target unit (fun m => m) (fun v _ => v)
           (fun _ _ _ v => v) globals0
           [(globals0, 0.016); (globals0, 0.02)] SCATTER None photo0 heap0).
  - exact well_formed_photo0.
  - repeat constructor.
Defined.


(** The distinctness facts a well-formed particle gives, as tests. *)
Lemma well_formed_eqb (p : Particle.t) :
  well_formed p ->
  let m := Particle.mesh p in
  Nat.eqb (Mesh.rotation m) (Mesh.position m) = false /\
  Nat.eqb (Mesh.scale m) (Mesh.position m) = false /\
  Nat.eqb (Mesh.scale m) (Mesh.rotation m) = false /\
  Nat.eqb (Particle.spinSpeed p) (Mesh.position m) = false /\
  Nat.eqb (Particle.spinSpeed p) (Mesh.rotation m) = false.
Proof.
  intros [Hnd Hsep] m. subst m.
  destruct (separate_not_mesh p p (Particle.spinSpeed p) Hsep) as (Hs1 & Hs2 & _);
    [simpl; auto |].
  unfold mesh_cells in Hnd.
  inversion Hnd as [| ? ? Hn1 Hnd1]. inversion Hnd1 as [| ? ? Hn2 _].
  simpl in Hn1, Hn2.
  repeat split; apply Nat.eqb_neq; intuition congruence.
Qed.


Lemma cell_setx_eq r v h :
  cell (setx r v h) r = Vector3.mk v (Vector3.y (cell h r)) (Vector3.z (cell h r)).
Proof. apply cell_store_eq. Qed.

Lemma cell_sety_eq r v h :
  cell (sety r v h) r = Vector3.mk (Vector3.x (cell h r)) v (Vector3.z (cell h r)).
Proof. apply cell_store_eq. Qed.

Lemma cell_setz_eq r v h :
  cell (setz r v h) r = Vector3.mk (Vector3.x (cell h r)) (Vector3.y (cell h r)) v.
Proof. apply cell_store_eq. Qed.

Section UpdateRotationScale.

Variable Matrix4 : Type.
Variable invert : Matrix4 -> Matrix4.
Variable applyMatrix4 : Vector3.t -> Matrix4 -> Vector3.t.
Variable lookAt : Globals Matrix4 -> Heap -> Mesh.t -> Vector3.t -> Vector3.t.

Local Abbreviation update' := (update Matrix4 invert applyMatrix4 lookAt).

(** X12. The rotation a frame leaves in a well-formed particle's mesh. In
    SCATTER mode the Euler angles advance by the spin velocity times [dt];
    in TREE mode the tilt about x and z is damped by the factor [1 - dt]
    while the yaw advances by [0.5 * dt]; in FOCUS mode a particle that is
    not the focus target keeps its rotation. *)
Theorem rotation_law G dt focus p h :
  well_formed p ->
  let rot := cell h (Mesh.rotation (Particle.mesh p)) in
  let spin := cell h (Particle.spinSpeed p) in
  cell (snd (update' G dt SCATTER focus p h)) (Mesh.rotation (Particle.mesh p))
  = Vector3.mk (Vector3.x rot + Vector3.x spin * dt)
               (Vector3.y rot + Vector3.y spin * dt)
               (Vector3.z rot + Vector3.z spin * dt) /\
  cell (snd (update' G dt TREE focus p h)) (Mesh.rotation (Particle.mesh p))
  = Vector3.mk ((1 - dt) * Vector3.x rot) (Vector3.y rot + 0.5 * dt)
               ((1 - dt) * Vector3.z rot) /\
  (is_focus p focus = false ->
   cell (snd (update' G dt FOCUS focus p h)) (Mesh.rotation (Particle.mesh p))
   = rot).
Proof.
  intros Hwf rot spin. subst rot spin.
  destruct (well_formed_eqb p Hwf) as (E1 & E2 & E3 & E4 & E5).
  apply Nat.eqb_neq in E1, E2, E3, E4, E5.
  split; [| split].
  - unfold update. cbn [snd Mode_eqb andb].
    rewrite lerp_at_other by congruence.
    rewrite cell_setz_eq, cell_sety_eq, !cell_setx_eq.
    cbn [Vector3.x Vector3.y Vector3.z].
    rewrite !cell_sety_neq, !cell_setx_neq by exact E5.
    rewrite !lerp_at_other by assumption. reflexivity.
  - unfold update. cbn [snd Mode_eqb andb].
    rewrite lerp_at_other by congruence.
    rewrite cell_sety_eq, cell_setz_eq, !cell_setx_eq.
    cbn [Vector3.x Vector3.y Vector3.z].
    rewrite !lerp_at_other by assumption.
    unfold MathUtils_lerp. f_equal; ring.
  - intros Hnf. unfold update. rewrite Hnf. cbn [snd Mode_eqb andb].
    rewrite !lerp_at_other by congruence. reflexivity.
Qed.

(** The scale after a frame: interpolated at rate [4 * dt] towards the
    uniform scale the mode and the kind of particle ask for. *)
Lemma update_scale G dt mode focus p h :
  well_formed p ->
  cell (snd (update' G dt mode focus p h)) (Mesh.scale (Particle.mesh p))
  = let s :=
      if Particle.isDust p then
        if Mode_eqb mode TREE then 0
        else Particle.baseScale p
             * (0.8 + 0.4 * Math.sin (clock_elapsedTime Matrix4 G * 4
                                      + INR (Mesh.id (Particle.mesh p))))
      else if Mode_eqb mode SCATTER && isPHOTO (Particle.type p) then
        Particle.baseScale p * 2.5
      else if Mode_eqb mode FOCUS then
        if is_focus p focus then 4.5 else Particle.baseScale p * 0.8
      else Particle.baseScale p in
    Vector3.lerp (cell h (Mesh.scale (Particle.mesh p))) (Vector3.mk s s s)
                 (4 * dt).
Proof.
  intros Hwf.
  destruct (well_formed_eqb p Hwf) as (E1 & E2 & E3 & E4 & E5).
  apply Nat.eqb_neq in E1, E2, E3, E4, E5.
  unfold update. cbn [snd]. cbv zeta.
  rewrite lerp_at_self by discriminate. cbn [rd].
  f_equal.
  destruct (Mode_eqb mode FOCUS && is_focus p focus);
    destruct (Mode_eqb mode SCATTER);
    [| destruct (Mode_eqb mode TREE) | | destruct (Mode_eqb mode TREE)];
    skip_writes E3; apply lerp_at_other; exact E2.
Qed.

(** X13. Dust fades in TREE mode and pulses elsewhere. For a well-formed
    dust particle with a non-negative base scale, a frame in TREE mode
    multiplies every component of the mesh scale by [1 - 4 * dt]; in the
    other modes it interpolates the scale at rate [4 * dt] towards a
    uniform scale that lies between 0.4 and 1.2 times the base scale. *)
Theorem dust_scale G dt mode focus p h :
  well_formed p -> Particle.isDust p = true -> 0 <= Particle.baseScale p ->
  let old := cell h (Mesh.scale (Particle.mesh p)) in
  let new := cell (snd (update' G dt mode focus p h))
                  (Mesh.scale (Particle.mesh p)) in
  (mode = TREE ->
   new = Vector3.mk ((1 - 4 * dt) * Vector3.x old) ((1 - 4 * dt) * Vector3.y old)
                    ((1 - 4 * dt) * Vector3.z old)) /\
  (mode <> TREE ->
   exists s, 0.4 * Particle.baseScale p <= s <= 1.2 * Particle.baseScale p /\
             new = Vector3.lerp old (Vector3.mk s s s) (4 * dt)).
Proof.
  intros Hwf Hd Hb old new. subst old new.
  rewrite update_scale by exact Hwf. cbv zeta. rewrite Hd. split.
  - intros ->. cbn [Mode_eqb]. unfold Vector3.lerp.
    cbn [Vector3.x Vector3.y Vector3.z]. f_equal; ring.
  - intros Hm. apply Mode_eqb_neq in Hm. rewrite Hm.
    eexists. split; [| reflexivity].
    pose proof (SIN_bound (clock_elapsedTime Matrix4 G * 4
                           + INR (Mesh.id (Particle.mesh p)))) as [Hlo Hhi].
    unfold Math.sin. nra.
Qed.

End UpdateRotationScale.

Lemma rotation_law_witness :
  let rot := cell heap0 (Mesh.rotation (Particle.mesh photo0)) in
  let spin := cell heap0 (Particle.spinSpeed photo0) in
  cell (snd (update unit (fun m => m) (fun v _ => v) (fun _ _ _ v => v)
               globals0 0.016 SCATTER None photo0 heap0))
       (Mesh.rotation (Particle.mesh photo0))
  = Vector3.mk (Vector3.x rot + Vector3.x spin * 0.016)
               (Vector3.y rot + Vector3.y spin * 0.016)
               (Vector3.z rot + Vector3.z spin * 0.016) /\
  cell (snd (update unit (fun m => m) (fun v _ => v) (fun _ _ _ v => v)
               globals0 0.016 TREE None photo0 heap0))
       (Mesh.rotation (Particle.mesh photo0))
  = Vector3.mk ((1 - 0.016) * Vector3.x rot) (Vector3.y rot + 0.5 * 0.016)
               ((1 - 0.016) * Vector3.z rot) /\
  (is_focus photo0 None = false ->
   cell (snd (update unit (fun m => m) (fun v _ => v) (fun _ _ _ v => v)
                globals0 0.016 FOCUS None photo0 heap0))
        (Mesh.rotation (Particle.mesh photo0))
   = rot).
Proof.
  apply (rotation_law unit (fun m => m) (fun v _ => v) (fun _ _ _ v => v)
           globals0 0.016 None photo0 heap0).
  exact well_formed_photo0.
Defined.

Lemma well_formed_dust0 : well_formed dust0.
Proof.
  split.
  - unfold mesh_cells. simpl. repeat constructor; simpl; intuition discriminate.
  - intros r Hin Hmesh. simpl in Hin, Hmesh.
    intuition (subst; discriminate).
Qed.

Lemma dust_scale_witness :
  let old := cell heap0 (Mesh.scale (Particle.mesh dust0)) in
  let new := cell (snd (update unit (fun m => m) (fun v _ => v)
                          (fun _ _ _ v => v) globals0 0.016 SCATTER None
                          dust0 heap0))
                  (Mesh.scale (Particle.mesh dust0)) in
  (SCATTER = TREE ->
   new = Vector3.mk ((1 - 4 * 0.016) * Vector3.x old)
                    ((1 - 4 * 0.016) * Vector3.y old)
                    ((1 - 4 * 0.016) * Vector3.z old)) /\
  (SCATTER <> TREE ->
   exists s, 0.4 * Particle.baseScale dust0 <= s <= 1.2 * Particle.baseScale dust0 /\
             new = Vector3.lerp old (Vector3.mk s s s) (4 * 0.016)).
Proof.
  apply (dust_scale unit (fun m => m) (fun v _ => v) (fun _ _ _ v => v)
           globals0 0.016 SCATTER None dust0 heap0).
  - exact well_formed_dust0.
  - reflexivity.
  - simpl. lra.
Defined.

(** ** Building the scene: ownership of vectors *)

Lemma flat_map_cells_snoc (ps : list Particle.t) (p : Particle.t) :
  flat_map cells (ps ++ [p]) = flat_map cells ps ++ cells p.
Proof. rewrite flat_map_app. cbn [flat_map]. now rewrite app_nil_r. Qed.

(** A particle whose six vectors are the next six cells of the heap joins
    the particle system without breaking ownership. *)
Lemma scene_ok_snoc (ps : list Particle.t) (p : Particle.t) (h h' : Heap) :
  scene_ok ps h -> cells p = seq (next h) 6 -> next h' = (6 + next h)%nat ->
  scene_ok (ps ++ [p]) h'.
Proof.
  intros [Hnd Hall] Hcells Hnext. unfold scene_ok.
  rewrite flat_map_cells_snoc, Hcells. rewrite Forall_forall in Hall. split.
  - apply NoDup_app; [exact Hnd | apply seq_NoDup |].
    intros r Hr Hin. apply Hall in Hr. apply in_seq in Hin. lia.
  - apply Forall_forall. intros r Hr. apply in_app_or in Hr.
    destruct Hr as [Hr | Hr]; [apply Hall in Hr | apply in_seq in Hr]; lia.
Qed.

Lemma scene_ok_In (ps : list Particle.t) (h : Heap) (p : Particle.t) :
  scene_ok ps h -> In p ps ->
  NoDup (cells p) /\ allocated p h.
Proof.
  intros [Hnd Hall] Hin. apply in_split in Hin. destruct Hin as (l1 & l2 & ->).
  rewrite flat_map_app in Hnd, Hall. cbn [flat_map] in Hnd, Hall. split.
  - apply NoDup_app_remove_l in Hnd. now apply NoDup_app_remove_r in Hnd.
  - intros r Hr. rewrite Forall_forall in Hall. apply Hall.
    apply in_or_app. right. apply in_or_app. now left.
Qed.

Lemma cells_NoDup_well_formed (p : Particle.t) : NoDup (cells p) -> well_formed p.
Proof.
  unfold cells. intros Hnd. split.
  - now apply NoDup_app_remove_r in Hnd.
  - intros r Hin Hmesh.
    apply in_split in Hmesh. destruct Hmesh as (l1 & l2 & Hm).
    rewrite Hm, <- app_assoc in Hnd. simpl in Hnd.
    apply NoDup_remove_2 in Hnd. apply Hnd.
    apply in_or_app. right. apply in_or_app. now right.
Qed.

(** In a particle system that owns its vectors, no layout or spin vector
    of a particle is a vector of the mesh of any particle. *)
Lemma scene_ok_separate (ps : list Particle.t) (h : Heap) (p q : Particle.t) :
  scene_ok ps h -> In p ps -> In q ps -> separate p q.
Proof.
  intros [Hnd _]. revert p q. induction ps as [| a l IH]; intros p q Hp Hq.
  - destruct Hp.
  - cbn [flat_map] in Hnd.
    pose proof (NoDup_app_remove_r _ _ Hnd) as Ha.
    pose proof (NoDup_app_remove_l _ _ Hnd) as Hl.
    assert (Hdisj : forall r x, In r (cells a) -> In x l -> ~ In r (cells x)).
    { intros r x Hr Hx Hrx.
      apply in_split in Hr. destruct Hr as (l1 & l2 & Hc).
      rewrite Hc, <- app_assoc in Hnd. simpl in Hnd.
      apply NoDup_remove_2 in Hnd. apply Hnd.
      apply in_or_app. right. apply in_or_app. right.
      apply in_flat_map. exists x. split; assumption. }
    destruct Hp as [-> | Hp], Hq as [-> | Hq].
    + apply cells_NoDup_well_formed. exact Ha.
    + intros r Hr Hm. apply (Hdisj r q); [| exact Hq |].
      * unfold cells. apply in_or_app. now right.
      * unfold cells. apply in_or_app. now left.
    + intros r Hr Hm. apply (Hdisj r p); [| exact Hp |].
      * unfold cells. apply in_or_app. now left.
      * unfold cells. apply in_or_app. now right.
    + now apply IH.
Qed.

(** The vectors of a particle made on a mesh that was just made. *)
Lemma fresh_particle_cells id s1 s2 s3 u1 u2 u3 u4 u5 u6 type isDust h h2 :
  next h2 = next (snd (new_Object3D id h)) ->
  let mesh := fst (new_Object3D id h) in
  let np := new_Particle s1 s2 s3 u1 u2 u3 u4 u5 u6 mesh type isDust h2 in
  cells (fst np) = seq (next h) 6 /\ next (snd np) = (6 + next h)%nat /\
  Particle.type (fst np) = type /\ Particle.isDust (fst np) = isDust /\
  Particle.baseScale (fst np) = Vector3.x (cell h2 (Mesh.scale mesh)) /\
  (forall r, (r < next h)%nat -> cell (snd np) r = cell h2 r).
Proof.
  intros Hn mesh np.
  destruct (new_Object3D_spec id h) as (Hg & Hn1 & _).
  rewrite Hn1 in Hn.
  destruct (new_Particle_cells s1 s2 s3 u1 u2 u3 u4 u5 u6 mesh type isDust h2)
    as (Ht & Hsc & Hsp & Hm & Hty & Hd & Hn3 & Hold).
  fold np in Ht, Hsc, Hsp, Hm, Hty, Hd, Hn3, Hold.
  cbv zeta in Ht, Hsc, Hsp, Hm, Hty, Hd, Hn3, Hold.
  rewrite Hn in Ht, Hsc, Hsp, Hn3, Hold.
  split; [| split; [| split; [| split; [| split]]]]; try assumption.
  - unfold cells, mesh_cells, target_cells. rewrite Hm, Ht, Hsc, Hsp.
    unfold mesh. rewrite Hg. reflexivity.
  - apply new_Particle_baseScale. rewrite Hn. unfold mesh. rewrite Hg. simpl. lia.
  - intros r Hr. apply Hold. lia.
Qed.

Lemma createParticle_eq rnd k id h :
  createParticle rnd k id h =
  let mesh := fst (new_Object3D id h) in
  let s := 0.4 + rnd (k + 1)%nat * 0.5 in
  let h2 := set (Mesh.scale mesh) s s s (snd (new_Object3D id h)) in
  let h3 := set (Mesh.rotation mesh) (rnd (k + 2)%nat * 6)
                (rnd (k + 3)%nat * 6) (rnd (k + 4)%nat * 6) h2 in
  new_Particle (rnd (k + 5)%nat) (rnd (k + 6)%nat) (rnd (k + 7)%nat)
               (rnd (k + 8)%nat) (rnd (k + 9)%nat) (rnd (k + 10)%nat)
               (rnd (k + 11)%nat) (rnd (k + 12)%nat) (rnd (k + 13)%nat)
               mesh (decoration_type (rnd k)) false h3.
Proof.
  unfold createParticle. destruct (new_Object3D id h) as [mesh h1]. reflexivity.
Qed.

Lemma createParticle_spec rnd k id h :
  let p := fst (createParticle rnd k id h) in
  let h' := snd (createParticle rnd k id h) in
  cells p = seq (next h) 6 /\ next h' = (6 + next h)%nat /\
  Particle.type p = decoration_type (rnd k) /\ Particle.isDust p = false /\
  Particle.baseScale p = 0.4 + rnd (k + 1)%nat * 0.5 /\
  (forall r, (r < next h)%nat -> cell h' r = cell h r).
Proof.
  rewrite createParticle_eq. cbv zeta.
  destruct (new_Object3D_spec id h) as (Hg & Hn1 & Hold1).
  set (mesh := fst (new_Object3D id h)) in *.
  set (s := 0.4 + rnd (k + 1)%nat * 0.5).
  set (h2 := set (Mesh.scale mesh) s s s (snd (new_Object3D id h))).
  set (h3 := set (Mesh.rotation mesh) _ _ _ h2).
  destruct (fresh_particle_cells id (rnd (k + 5)%nat) (rnd (k + 6)%nat)
              (rnd (k + 7)%nat) (rnd (k + 8)%nat) (rnd (k + 9)%nat)
              (rnd (k + 10)%nat) (rnd (k + 11)%nat) (rnd (k + 12)%nat)
              (rnd (k + 13)%nat) (decoration_type (rnd k)) false h h3)
    as (Hc & Hn & Hty & Hd & Hb & Hold); [reflexivity |].
  fold mesh in Hc, Hn, Hty, Hd, Hb, Hold.
  split; [exact Hc |]. split; [exact Hn |]. split; [exact Hty |].
  split; [exact Hd |]. split.
  - rewrite Hb. unfold h3. rewrite cell_set_neq by (rewrite Hg; simpl; lia).
    unfold h2. rewrite cell_set_eq. reflexivity.
  - intros r Hr. rewrite Hold by exact Hr. unfold h3, h2.
    rewrite !cell_set_neq by (rewrite Hg; simpl; lia). now apply Hold1.
Qed.

Lemma createDustParticle_eq rnd k id h :
  createDustParticle rnd k id h =
  let mesh := fst (new_Object3D id h) in
  let s := 0.5 + rnd k in
  let h2 := set (Mesh.scale mesh) s s s (snd (new_Object3D id h)) in
  new_Particle (rnd (k + 1)%nat) (rnd (k + 2)%nat) (rnd (k + 3)%nat)
               (rnd (k + 4)%nat) (rnd (k + 5)%nat) (rnd (k + 6)%nat)
               (rnd (k + 7)%nat) (rnd (k + 8)%nat) (rnd (k + 9)%nat)
               mesh DUST true h2.
Proof.
  unfold createDustParticle. destruct (new_Object3D id h) as [mesh h1].
  reflexivity.
Qed.

Lemma createDustParticle_spec rnd k id h :
  let p := fst (createDustParticle rnd k id h) in
  let h' := snd (createDustParticle rnd k id h) in
  cells p = seq (next h) 6 /\ next h' = (6 + next h)%nat /\
  Particle.type p = DUST /\ Particle.isDust p = true /\
  Particle.baseScale p = 0.5 + rnd k /\
  (forall r, (r < next h)%nat -> cell h' r = cell h r).
Proof.
  rewrite createDustParticle_eq. cbv zeta.
  destruct (new_Object3D_spec id h) as (Hg & Hn1 & Hold1).
  set (mesh := fst (new_Object3D id h)) in *.
  set (s := 0.5 + rnd k).
  set (h2 := set (Mesh.scale mesh) s s s (snd (new_Object3D id h))).
  destruct (fresh_particle_cells id (rnd (k + 1)%nat) (rnd (k + 2)%nat)
              (rnd (k + 3)%nat) (rnd (k + 4)%nat) (rnd (k + 5)%nat)
              (rnd (k + 6)%nat) (rnd (k + 7)%nat) (rnd (k + 8)%nat)
              (rnd (k + 9)%nat) DUST true h h2)
    as (Hc & Hn & Hty & Hd & Hb & Hold); [reflexivity |].
  fold mesh in Hc, Hn, Hty, Hd, Hb, Hold.
  split; [exact Hc |]. split; [exact Hn |]. split; [exact Hty |].
  split; [exact Hd |]. split.
  - rewrite Hb. unfold h2. rewrite cell_set_eq. reflexivity.
  - intros r Hr. rewrite Hold by exact Hr. unfold h2.
    rewrite cell_set_neq by (rewrite Hg; simpl; lia). now apply Hold1.
Qed.

Lemma scene_ok_grow (ps : list Particle.t) (h h' : Heap) :
  scene_ok ps h -> (next h <= next h')%nat -> scene_ok ps h'.
Proof.
  intros [Hnd Hall] Hle. split; [exact Hnd |].
  eapply Forall_impl; [| exact Hall]. intros r Hr. simpl in Hr. lia.
Qed.

Lemma fixed_of_kept (q : Particle.t) (h h' : Heap) :
  allocated q h -> (forall r, (r < next h)%nat -> cell h' r = cell h r) ->
  fixed_of q h' = fixed_of q h.
Proof.
  intros Hal Hold. unfold fixed_of.
  f_equal; apply Hold; apply Hal; apply in_or_app; right; simpl; auto.
Qed.

Lemma decoration_type_cases (rand : R) :
  In (decoration_type rand) [BOX; GOLD_BOX; GOLD_SPHERE; RED; CANE].
Proof.
  unfold decoration_type.
  repeat (destruct (Rlt_dec rand _); [simpl; auto 6 |]). simpl. auto 6.
Qed.

Lemma createParticles_loop_S n rnd k id ps h :
  createParticles_loop (S n) rnd k id ps h
  = createParticles_loop n rnd (k + 14) (S id)
      (ps ++ [fst (createParticle rnd k id h)]) (snd (createParticle rnd k id h)).
Proof. simpl. destruct (createParticle rnd k id h). reflexivity. Qed.

Lemma createDust_loop_S n rnd k id ps h :
  createDust_loop (S n) rnd k id ps h
  = createDust_loop n rnd (k + 10) (S id)
      (ps ++ [fst (createDustParticle rnd k id h)])
      (snd (createDustParticle rnd k id h)).
Proof. simpl. destruct (createDustParticle rnd k id h). reflexivity. Qed.

(** What the loop of [createParticles] does to a particle system that owns
    its vectors. *)
Lemma createParticles_loop_spec n rnd : forall k id ps h,
  (forall i, draw (rnd i)) -> scene_ok ps h ->
  exists new,
    fst (createParticles_loop n rnd k id ps h) = ps ++ new /\
    length new = n /\
    scene_ok (ps ++ new) (snd (createParticles_loop n rnd k id ps h)) /\
    (next h <= next (snd (createParticles_loop n rnd k id ps h)))%nat /\
    (forall r, (r < next h)%nat ->
       cell (snd (createParticles_loop n rnd k id ps h)) r = cell h r) /\
    Forall (fun p => Particle.isDust p = false /\
                     In (Particle.type p) [BOX; GOLD_BOX; GOLD_SPHERE; RED; CANE] /\
                     0.4 <= Particle.baseScale p < 0.9) new.
Proof.
  induction n as [| n IH]; intros k id ps h Hrnd Hok.
  - exists []. simpl. rewrite app_nil_r.
    repeat split; try assumption; try lia; try apply Hok. constructor.
  - rewrite createParticles_loop_S.
    destruct (createParticle_spec rnd k id h) as (Hc & Hn & Hty & Hd & Hb & Hold).
    set (p := fst (createParticle rnd k id h)) in *.
    set (h1 := snd (createParticle rnd k id h)) in *.
    cbv zeta in Hc, Hn, Hty, Hd, Hb, Hold.
    assert (Hok1 : scene_ok (ps ++ [p]) h1) by (eapply scene_ok_snoc; eauto).
    destruct (IH (k + 14)%nat (S id) (ps ++ [p]) h1 Hrnd Hok1)
      as (new & Hfst & Hlen & Hok2 & Hle & Hkeep & Hall).
    exists (p :: new). rewrite <- app_assoc in Hfst, Hok2. simpl in Hfst, Hok2.
    split; [exact Hfst |]. split; [simpl; lia |]. split; [exact Hok2 |].
    split; [lia |]. split.
    + intros r Hr. rewrite Hkeep by lia. now apply Hold.
    + constructor; [| exact Hall].
      split; [exact Hd |]. split; [rewrite Hty; apply decoration_type_cases |].
      rewrite Hb. specialize (Hrnd (k + 1)%nat). unfold draw in Hrnd. lra.
Qed.

Lemma createDust_loop_spec n rnd : forall k id ps h,
  (forall i, draw (rnd i)) -> scene_ok ps h ->
  exists new,
    fst (createDust_loop n rnd k id ps h) = ps ++ new /\
    length new = n /\
    scene_ok (ps ++ new) (snd (createDust_loop n rnd k id ps h)) /\
    (next h <= next (snd (createDust_loop n rnd k id ps h)))%nat /\
    (forall r, (r < next h)%nat ->
       cell (snd (createDust_loop n rnd k id ps h)) r = cell h r) /\
    Forall (fun p => Particle.isDust p = true /\ Particle.type p = DUST /\
                     0.5 <= Particle.baseScale p < 1.5) new.
Proof.
  induction n as [| n IH]; intros k id ps h Hrnd Hok.
  - exists []. simpl. rewrite app_nil_r.
    repeat split; try assumption; try lia; try apply Hok. constructor.
  - rewrite createDust_loop_S.
    destruct (createDustParticle_spec rnd k id h)
      as (Hc & Hn & Hty & Hd & Hb & Hold).
    set (p := fst (createDustParticle rnd k id h)) in *.
    set (h1 := snd (createDustParticle rnd k id h)) in *.
    cbv zeta in Hc, Hn, Hty, Hd, Hb, Hold.
    assert (Hok1 : scene_ok (ps ++ [p]) h1) by (eapply scene_ok_snoc; eauto).
    destruct (IH (k + 10)%nat (S id) (ps ++ [p]) h1 Hrnd Hok1)
      as (new & Hfst & Hlen & Hok2 & Hle & Hkeep & Hall).
    exists (p :: new). rewrite <- app_assoc in Hfst, Hok2. simpl in Hfst, Hok2.
    split; [exact Hfst |]. split; [simpl; lia |]. split; [exact Hok2 |].
    split; [lia |]. split.
    + intros r Hr. rewrite Hkeep by lia. now apply Hold.
    + constructor; [| exact Hall].
      split; [exact Hd |]. split; [exact Hty |].
      rewrite Hb. specialize (Hrnd k). unfold draw in Hrnd. lra.
Qed.

Lemma createStar_spec (id : nat) (h : Heap) :
  let star := fst (createStar id h) in
  let h' := snd (createStar id h) in
  mesh_cells (starMesh star) = seq (next h) 3 /\
  next h' = (3 + next h)%nat /\
  emissiveIntensity star = 1.5 /\
  cell h' (Mesh.position (starMesh star))
  = Vector3.mk 0 (CONFIG.treeHeight / 2 + 1.5) 0 /\
  cell h' (Mesh.scale (starMesh star)) = Vector3.mk 1 1 1 /\
  (forall r, (r < next h)%nat -> cell h' r = cell h r).
Proof.
  unfold createStar.
  destruct (new_Object3D_spec id h) as (Hg & Hn1 & Hold1).
  assert (Hsc : cell (snd (new_Object3D id h))
                  (Mesh.scale (fst (new_Object3D id h))) = Vector3.mk 1 1 1).
  { unfold new_Object3D, alloc. cbn [cell fst snd next Mesh.scale].
    now rewrite Nat.eqb_refl. }
  destruct (new_Object3D id h) as [m h1]. cbn [fst snd] in *.
  subst m. cbn [starMesh emissiveIntensity Mesh.position Mesh.rotation
                Mesh.scale mesh_cells].
  split; [reflexivity |]. split; [rewrite next_set; exact Hn1 |].
  split; [reflexivity |]. split; [apply cell_set_eq |]. split.
  - rewrite cell_set_neq, cell_setz_neq by lia. exact Hsc.
  - intros r Hr. rewrite cell_set_neq, cell_setz_neq by lia. now apply Hold1.
Qed.

Lemma createParticles_fst rnd k id ps h :
  fst (fst (createParticles rnd k id ps h))
  = fst (createParticles_loop CONFIG.count rnd k id ps h).
Proof.
  unfold createParticles.
  destruct (createParticles_loop CONFIG.count rnd k id ps h) as [ps' h1].
  destruct (createStar (id + CONFIG.count) h1). reflexivity.
Qed.

Lemma createParticles_star rnd k id ps h :
  snd (fst (createParticles rnd k id ps h))
  = fst (createStar (id + CONFIG.count)
           (snd (createParticles_loop CONFIG.count rnd k id ps h))).
Proof.
  unfold createParticles.
  destruct (createParticles_loop CONFIG.count rnd k id ps h) as [ps' h1].
  cbn [snd]. destruct (createStar (id + CONFIG.count) h1). reflexivity.
Qed.

Lemma createParticles_snd rnd k id ps h :
  snd (createParticles rnd k id ps h)
  = snd (createStar (id + CONFIG.count)
           (snd (createParticles_loop CONFIG.count rnd k id ps h))).
Proof.
  unfold createParticles.
  destruct (createParticles_loop CONFIG.count rnd k id ps h) as [ps' h1].
  cbn [snd]. destruct (createStar (id + CONFIG.count) h1). reflexivity.
Qed.

(** The loop followed by [createStar], for any number of passes. *)
Lemma createParticles_n_spec n rnd k id ps h :
  (forall i, draw (rnd i)) -> scene_ok ps h ->
  exists new,
    fst (createParticles_loop n rnd k id ps h) = ps ++ new /\ length new = n /\
    Forall (fun p => Particle.isDust p = false /\
                     In (Particle.type p) [BOX; GOLD_BOX; GOLD_SPHERE; RED; CANE] /\
                     0.4 <= Particle.baseScale p < 0.9) new /\
    scene_ok (fst (createParticles_loop n rnd k id ps h))
             (snd (createStar (id + n) (snd (createParticles_loop n rnd k id ps h)))) /\
    Forall (fun q =>
              fixed_of q (snd (createStar (id + n)
                                 (snd (createParticles_loop n rnd k id ps h))))
              = fixed_of q h) ps.
Proof.
  intros Hrnd Hok.
  destruct (createParticles_loop_spec n rnd k id ps h Hrnd Hok)
    as (new & Hfst & Hlen & Hok2 & Hle & Hkeep & Hall).
  set (l := createParticles_loop n rnd k id ps h) in *.
  destruct (createStar_spec (id + n) (snd l)) as (_ & Hn & _ & _ & _ & Hold).
  cbv zeta in Hn, Hold.
  exists new. split; [exact Hfst |]. split; [exact Hlen |]. split; [exact Hall |].
  split.
  - rewrite Hfst. eapply scene_ok_grow; [exact Hok2 | lia].
  - apply Forall_forall. intros q Hq.
    destruct (scene_ok_In ps h q Hok Hq) as [_ Hal].
    apply fixed_of_kept; [exact Hal |].
    intros r Hr. rewrite Hold by lia. now apply Hkeep.
Qed.

(** X14. [createParticles] appends exactly [CONFIG.particles.count] (1500)
    particles. With draws in [[0, 1)] each of them is a decoration (BOX,
    GOLD_BOX, GOLD_SPHERE, RED or CANE, never PHOTO or DUST), is not dust
    and has a base scale in [[0.4, 0.9)]. If the particle system owned its
    vectors before, it does so afterwards, and the fixed attributes of the
    particles that were there are unchanged. *)
Theorem createParticles_makes_decorations rnd k id ps h :
  (forall i, draw (rnd i)) -> scene_ok ps h ->
  exists new,
    fst (fst (createParticles rnd k id ps h)) = ps ++ new /\
    length new = CONFIG.count /\
    Forall (fun p => Particle.isDust p = false /\
                     In (Particle.type p) [BOX; GOLD_BOX; GOLD_SPHERE; RED; CANE] /\
                     0.4 <= Particle.baseScale p < 0.9) new /\
    scene_ok (fst (fst (createParticles rnd k id ps h)))
             (snd (createParticles rnd k id ps h)) /\
    Forall (fun q => fixed_of q (snd (createParticles rnd k id ps h))
                     = fixed_of q h) ps.
Proof.
  intros Hrnd Hok. rewrite createParticles_fst, createParticles_snd.
  exact (createParticles_n_spec CONFIG.count rnd k id ps h Hrnd Hok).
Qed.

Lemma createDust_n_spec n rnd k id ps h :
  (forall i, draw (rnd i)) -> scene_ok ps h ->
  exists new,
    fst (createDust_loop n rnd k id ps h) = ps ++ new /\ length new = n /\
    Forall (fun p => Particle.isDust p = true /\ Particle.type p = DUST /\
                     0.5 <= Particle.baseScale p < 1.5) new /\
    scene_ok (fst (createDust_loop n rnd k id ps h))
             (snd (createDust_loop n rnd k id ps h)) /\
    Forall (fun q => fixed_of q (snd (createDust_loop n rnd k id ps h))
                     = fixed_of q h) ps.
Proof.
  intros Hrnd Hok.
  destruct (createDust_loop_spec n rnd k id ps h Hrnd Hok)
    as (new & Hfst & Hlen & Hok2 & Hle & Hkeep & Hall).
  exists new. split; [exact Hfst |]. split; [exact Hlen |]. split; [exact Hall |].
  split.
  - rewrite Hfst. exact Hok2.
  - apply Forall_forall. intros q Hq.
    destruct (scene_ok_In ps h q Hok Hq) as [_ Hal].
    now apply fixed_of_kept.
Qed.

(** X15. [createDust] appends exactly [CONFIG.particles.dustCount] (2500)
    particles. With draws in [[0, 1)] each of them has type DUST, is dust
    and has a base scale in [[0.5, 1.5)]. If the particle system owned its
    vectors before, it does so afterwards, and the fixed attributes of the
    particles that were there are unchanged. *)
Theorem createDust_makes_dust rnd k id ps h :
  (forall i, draw (rnd i)) -> scene_ok ps h ->
  exists new,
    fst (createDust rnd k id ps h) = ps ++ new /\
    length new = CONFIG.dustCount /\
    Forall (fun p => Particle.isDust p = true /\ Particle.type p = DUST /\
                     0.5 <= Particle.baseScale p < 1.5) new /\
    scene_ok (fst (createDust rnd k id ps h)) (snd (createDust rnd k id ps h)) /\
    Forall (fun q => fixed_of q (snd (createDust rnd k id ps h))
                     = fixed_of q h) ps.
Proof.
  intros Hrnd Hok.
  exact (createDust_n_spec CONFIG.dustCount rnd k id ps h Hrnd Hok).
Qed.

Lemma createParticles_makes_decorations_witness :
  exists new,
    fst (fst (createParticles (fun _ => 0.5) 0 0 [] heap0)) = [] ++ new /\
    length new = CONFIG.count /\
    Forall (fun p => Particle.isDust p = false /\
                     In (Particle.type p) [BOX; GOLD_BOX; GOLD_SPHERE; RED; CANE] /\
                     0.4 <= Particle.baseScale p < 0.9) new /\
    scene_ok (fst (fst (createParticles (fun _ => 0.5) 0 0 [] heap0)))
             (snd (createParticles (fun _ => 0.5) 0 0 [] heap0)) /\
    Forall (fun q => fixed_of q (snd (createParticles (fun _ => 0.5) 0 0 [] heap0))
                     = fixed_of q heap0) [].
Proof.
  apply (createParticles_makes_decorations (fun _ => 0.5) 0 0 [] heap0).
  - intros i. unfold draw. lra.
  - split; constructor.
Defined.

Lemma createDust_makes_dust_witness :
  exists new,
    fst (createDust (fun _ => 0.5) 0 0 [] heap0) = [] ++ new /\
    length new = CONFIG.dustCount /\
    Forall (fun p => Particle.isDust p = true /\ Particle.type p = DUST /\
                     0.5 <= Particle.baseScale p < 1.5) new /\
    scene_ok (fst (createDust (fun _ => 0.5) 0 0 [] heap0))
             (snd (createDust (fun _ => 0.5) 0 0 [] heap0)) /\
    Forall (fun q => fixed_of q (snd (createDust (fun _ => 0.5) 0 0 [] heap0))
                     = fixed_of q heap0) [].
Proof.
  apply (createDust_makes_dust (fun _ => 0.5) 0 0 [] heap0).
  - intros i. unfold draw. lra.
  - split; constructor.
Defined.

Lemma photosOf_app (ps qs : list Particle.t) :
  photosOf (ps ++ qs) = photosOf ps ++ photosOf qs.
Proof. unfold photosOf. apply filter_app. Qed.

Lemma photosOf_none (ps : list Particle.t) :
  Forall (fun p => isPHOTO (Particle.type p) = false) ps -> photosOf ps = [].
Proof.
  induction 1 as [| p ps Hp _ IH]; [reflexivity |].
  unfold photosOf in *. simpl. now rewrite Hp.
Qed.

(** X16. Uploading a photo appends exactly one particle. It has type
    PHOTO, is not dust and has base scale 0.8 (the scale given to its
    group); it is the last of the photos. If the particle system owned its
    vectors before, it does so afterwards, and the fixed attributes of the
    particles that were there are unchanged. *)
Theorem addPhotoToScene_adds_one_photo id s1 s2 s3 u1 u2 u3 u4 u5 u6 ps h :
  scene_ok ps h ->
  exists p,
    fst (addPhotoToScene id s1 s2 s3 u1 u2 u3 u4 u5 u6 ps h) = ps ++ [p] /\
    length (fst (addPhotoToScene id s1 s2 s3 u1 u2 u3 u4 u5 u6 ps h))
      = S (length ps) /\
    Particle.type p = PHOTO /\ Particle.isDust p = false /\
    Particle.baseScale p = 0.8 /\ Mesh.id (Particle.mesh p) = id /\
    photosOf (fst (addPhotoToScene id s1 s2 s3 u1 u2 u3 u4 u5 u6 ps h))
      = photosOf ps ++ [p] /\
    scene_ok (fst (addPhotoToScene id s1 s2 s3 u1 u2 u3 u4 u5 u6 ps h))
             (snd (addPhotoToScene id s1 s2 s3 u1 u2 u3 u4 u5 u6 ps h)) /\
    Forall (fun q =>
              fixed_of q (snd (addPhotoToScene id s1 s2 s3 u1 u2 u3 u4 u5 u6 ps h))
              = fixed_of q h) ps.
Proof.
  intros Hok. rewrite addPhotoToScene_eq. cbv zeta. cbn [fst snd].
  destruct (new_Object3D_spec id h) as (Hg & Hn1 & Hold1).
  set (group := fst (new_Object3D id h)) in *.
  set (h2 := set (Mesh.scale group) 0.8 0.8 0.8 (snd (new_Object3D id h))).
  destruct (fresh_particle_cells id s1 s2 s3 u1 u2 u3 u4 u5 u6 PHOTO false h h2)
    as (Hc & Hn & Hty & Hd & Hb & Hold); [reflexivity |].
  fold group in Hc, Hn, Hty, Hd, Hb, Hold.
  destruct (new_Particle_cells s1 s2 s3 u1 u2 u3 u4 u5 u6 group PHOTO false h2)
    as (_ & _ & _ & Hm & _).
  set (np := new_Particle s1 s2 s3 u1 u2 u3 u4 u5 u6 group PHOTO false h2) in *.
  cbv zeta in Hm.
  exists (fst np). split; [reflexivity |].
  split; [rewrite length_app; simpl; lia |].
  split; [exact Hty |]. split; [exact Hd |]. split.
  { rewrite Hb. unfold h2. rewrite cell_set_eq. reflexivity. }
  split; [rewrite Hm, Hg; reflexivity |].
  split.
  { rewrite photosOf_app. apply f_equal. unfold photosOf. cbn [filter].
    rewrite Hty. reflexivity. }
  split; [eapply scene_ok_snoc; eauto |].
  apply Forall_forall. intros q Hq.
  destruct (scene_ok_In ps h q Hok Hq) as [_ Hal].
  apply fixed_of_kept; [exact Hal |].
  intros r Hr. rewrite Hold by exact Hr. unfold h2.
  rewrite cell_set_neq by (rewrite Hg; simpl; lia).
  now apply Hold1.
Qed.

Lemma addPhotoToScene_adds_one_photo_witness :
  exists p,
    fst (addPhotoToScene 9 0 0 0 0 0 0 0 0 0 [] heap0) = [] ++ [p] /\
    length (fst (addPhotoToScene 9 0 0 0 0 0 0 0 0 0 [] heap0))
      = S (length (@nil Particle.t)) /\
    Particle.type p = PHOTO /\ Particle.isDust p = false /\
    Particle.baseScale p = 0.8 /\ Mesh.id (Particle.mesh p) = 9%nat /\
    photosOf (fst (addPhotoToScene 9 0 0 0 0 0 0 0 0 0 [] heap0))
      = photosOf [] ++ [p] /\
    scene_ok (fst (addPhotoToScene 9 0 0 0 0 0 0 0 0 0 [] heap0))
             (snd (addPhotoToScene 9 0 0 0 0 0 0 0 0 0 [] heap0)) /\
    Forall (fun q =>
              fixed_of q (snd (addPhotoToScene 9 0 0 0 0 0 0 0 0 0 [] heap0))
              = fixed_of q heap0) [].
Proof.
  apply (addPhotoToScene_adds_one_photo 9 0 0 0 0 0 0 0 0 0 [] heap0).
  split; constructor.
Defined.

Lemma decorations_are_not_photos (new : list Particle.t) :
  Forall (fun p => Particle.isDust p = false /\
                   In (Particle.type p) [BOX; GOLD_BOX; GOLD_SPHERE; RED; CANE] /\
                   0.4 <= Particle.baseScale p < 0.9) new ->
  Forall (fun p => isPHOTO (Particle.type p) = false) new.
Proof.
  intros H. eapply Forall_impl; [| exact H]. intros p (_ & Hty & _). simpl in Hty.
  destruct Hty as [<- | [<- | [<- | [<- | [<- | []]]]]]; reflexivity.
Qed.

Lemma dust_is_not_photo (new : list Particle.t) :
  Forall (fun p => Particle.isDust p = true /\ Particle.type p = DUST /\
                   0.5 <= Particle.baseScale p < 1.5) new ->
  Forall (fun p => isPHOTO (Particle.type p) = false) new.
Proof.
  intros H. eapply Forall_impl; [| exact H]. intros p (_ & Hty & _). simpl.
  now rewrite Hty.
Qed.

(** The scene [init] builds, for any numbers of decorations and of dust. *)
Lemma built_scene_spec n m rnd k id k' id' h :
  (forall i, draw (rnd i)) -> scene_ok [] h ->
  let l := createParticles_loop n rnd k id [] h in
  let h1 := snd (createStar (id + n) (snd l)) in
  let d := createDust_loop m rnd k' id' (fst l) h1 in
  length (fst d) = (n + m)%nat /\ photosOf (fst d) = [] /\
  scene_ok (fst d) (snd d).
Proof.
  intros Hrnd Hok l h1 d.
  destruct (createParticles_n_spec n rnd k id [] h Hrnd Hok)
    as (new & Hfst & Hlen & Hall & Hok1 & _).
  fold l in Hfst, Hok1. fold h1 in Hok1.
  destruct (createDust_n_spec m rnd k' id' (fst l) h1 Hrnd Hok1)
    as (new' & Hfst' & Hlen' & Hall' & Hok2 & _).
  fold d in Hfst', Hok2.
  rewrite Hfst', Hfst. simpl app. split; [| split].
  - rewrite length_app. lia.
  - rewrite photosOf_app.
    rewrite (photosOf_none new (decorations_are_not_photos new Hall)).
    rewrite (photosOf_none new' (dust_is_not_photo new' Hall')). reflexivity.
  - rewrite Hfst', Hfst in Hok2. exact Hok2.
Qed.

(** X17. The scene [init] builds, [createParticles] followed by
    [createDust] on an empty particle system, holds 1500 + 2500 particles
    that own their vectors, and none of them is a photo. So until a photo
    is uploaded a pinch from a mode other than FOCUS moves the mode to FOCUS
    and leaves the focus target as it was: FOCUS mode without a focused
    particle. *)
Theorem pinch_before_upload rnd k id k' id' h r lm rest S :
  (forall i, draw (rnd i)) -> scene_ok [] h ->
  full_hand lm -> draw r -> pinchDistance lm < 0.05 -> STATE.mode S <> FOCUS ->
  let ps := fst (createDust rnd k' id'
                   (fst (fst (createParticles rnd k id [] h)))
                   (snd (createParticles rnd k id [] h))) in
  length ps = (CONFIG.count + CONFIG.dustCount)%nat /\
  photosOf ps = [] /\
  exists S',
    processGestures r ps (mkResult (Some (lm :: rest))) S = Normal tt S' /\
    STATE.mode S' = FOCUS /\ STATE.focusTarget S' = STATE.focusTarget S.
Proof.
  intros Hrnd Hok Hfull Hr Hpinch Hmode.
  rewrite createParticles_fst, createParticles_snd.
  unfold createDust.
  destruct (built_scene_spec CONFIG.count CONFIG.dustCount rnd k id k' id' h
              Hrnd Hok) as (Hlen & Hph & _).
  cbv zeta in Hlen, Hph. cbv zeta.
  split; [exact Hlen |]. split; [exact Hph |].
  match goal with
  | |- context [processGestures r ?ps] =>
      destruct (pinch_branch r ps lm rest S Hfull Hr Hpinch Hmode)
        as (S' & Hrun & Hm & Hnone & _)
  end.
  exists S'. split; [exact Hrun |]. split; [exact Hm |]. exact (Hnone Hph).
Qed.

Lemma pinch_before_upload_witness :
  let ps := fst (createDust (fun _ => 0.5) 0 0
                   (fst (fst (createParticles (fun _ => 0.5) 0 0 [] heap0)))
                   (snd (createParticles (fun _ => 0.5) 0 0 [] heap0))) in
  length ps = (CONFIG.count + CONFIG.dustCount)%nat /\
  photosOf ps = [] /\
  exists S',
    processGestures 0 ps (mkResult (Some (hand_with 0.3 0.3 :: []))) STATE.init
      = Normal tt S' /\
    STATE.mode S' = FOCUS /\
    STATE.focusTarget S' = STATE.focusTarget STATE.init.
Proof.
  apply (pinch_before_upload (fun _ => 0.5) 0 0 0 0 heap0 0
           (hand_with 0.3 0.3) [] STATE.init).
  - intros i. unfold draw. lra.
  - split; constructor.
  - apply full_hand_hand_with.
  - unfold draw. lra.
  - rewrite pinchDistance_hand_with. unfold Rabs. destruct (Rcase_abs _); lra.
  - simpl. discriminate.
Defined.

Lemma addPhotoToScene_photos id s1 s2 s3 u1 u2 u3 u4 u5 u6 ps h :
  exists p,
    fst (addPhotoToScene id s1 s2 s3 u1 u2 u3 u4 u5 u6 ps h) = ps ++ [p] /\
    Particle.type p = PHOTO /\ Mesh.id (Particle.mesh p) = id /\
    photosOf (fst (addPhotoToScene id s1 s2 s3 u1 u2 u3 u4 u5 u6 ps h))
    = photosOf ps ++ [p].
Proof.
  rewrite addPhotoToScene_eq. cbv zeta. cbn [fst snd].
  destruct (new_Object3D_spec id h) as (Hg & _ & _).
  set (group := fst (new_Object3D id h)) in *.
  set (h2 := set (Mesh.scale group) 0.8 0.8 0.8 (snd (new_Object3D id h))).
  destruct (new_Particle_cells s1 s2 s3 u1 u2 u3 u4 u5 u6 group PHOTO false h2)
    as (_ & _ & _ & Hm & Hty & _).
  set (np := new_Particle s1 s2 s3 u1 u2 u3 u4 u5 u6 group PHOTO false h2) in *.
  cbv zeta in Hm, Hty.
  exists (fst np). split; [reflexivity |]. split; [exact Hty |].
  split; [rewrite Hm, Hg; reflexivity |].
  rewrite photosOf_app. apply f_equal. unfold photosOf. cbn [filter].
  rewrite Hty. reflexivity.
Qed.

(** X18. Upload, then pinch. When the particle system holds no photo, after
    one photo is uploaded a pinch from a mode other than FOCUS moves the
    mode to FOCUS and makes the group of the uploaded photo the focus
    target, whatever the random draw is. *)
Theorem pinch_after_first_upload id s1 s2 s3 u1 u2 u3 u4 u5 u6 ps h r lm rest S :
  photosOf ps = [] ->
  full_hand lm -> draw r -> pinchDistance lm < 0.05 -> STATE.mode S <> FOCUS ->
  exists p S',
    fst (addPhotoToScene id s1 s2 s3 u1 u2 u3 u4 u5 u6 ps h) = ps ++ [p] /\
    Particle.type p = PHOTO /\ Mesh.id (Particle.mesh p) = id /\
    processGestures r (fst (addPhotoToScene id s1 s2 s3 u1 u2 u3 u4 u5 u6 ps h))
      (mkResult (Some (lm :: rest))) S = Normal tt S' /\
    STATE.mode S' = FOCUS /\
    STATE.focusTarget S' = Some (Particle.mesh p).
Proof.
  intros Hnone Hfull Hr Hpinch Hmode.
  destruct (addPhotoToScene_photos id s1 s2 s3 u1 u2 u3 u4 u5 u6 ps h)
    as (p & Hfst & Hty & Hid & Hph).
  rewrite Hnone in Hph. cbn [app] in Hph.
  destruct (pinch_branch r (fst (addPhotoToScene id s1 s2 s3 u1 u2 u3 u4 u5 u6 ps h))
              lm rest S Hfull Hr Hpinch Hmode)
    as (S' & Hrun & Hm & _ & Hsome).
  rewrite Hph in Hsome.
  destruct Hsome as [_ Hpick]; [discriminate |].
  exists p, S'. repeat split; try assumption.
  apply (Hpick 0%nat p); [reflexivity |].
  unfold draw in Hr. simpl. lra.
Qed.

Lemma pinch_after_first_upload_witness :
  exists p S',
    fst (addPhotoToScene 9 0 0 0 0 0 0 0 0 0 [dust0] heap0) = [dust0] ++ [p] /\
    Particle.type p = PHOTO /\ Mesh.id (Particle.mesh p) = 9%nat /\
    processGestures 0.7 (fst (addPhotoToScene 9 0 0 0 0 0 0 0 0 0 [dust0] heap0))
      (mkResult (Some (hand_with 0.3 0.3 :: []))) STATE.init = Normal tt S' /\
    STATE.mode S' = FOCUS /\
    STATE.focusTarget S' = Some (Particle.mesh p).
Proof.
  apply (pinch_after_first_upload 9 0 0 0 0 0 0 0 0 0 [dust0] heap0 0.7
           (hand_with 0.3 0.3) [] STATE.init).
  - reflexivity.
  - apply full_hand_hand_with.
  - unfold draw. lra.
  - rewrite pinchDistance_hand_with. unfold Rabs. destruct (Rcase_abs _); lra.
  - simpl. discriminate.
Defined.

(** ** The star *)

Lemma seq_mesh_cells_apart (ps : list Particle.t) (h : Heap) (m : Mesh.t) (n : nat) :
  scene_ok ps h -> (next h <= n)%nat -> mesh_cells m = seq n 3 ->
  forall p r, In p ps -> In r (mesh_cells m) -> ~ In r (cells p).
Proof.
  intros Hok Hle Hm p r Hp Hr Hin.
  destruct (scene_ok_In ps h p Hok Hp) as [_ Hal].
  apply Hal in Hin. rewrite Hm in Hr. apply in_seq in Hr. lia.
Qed.

Lemma createStar_above (id : nat) (h : Heap) :
  Vector3.y (cell (snd (createStar id h))
               (Mesh.position (starMesh (fst (createStar id h)))))
  = CONFIG.treeHeight / 2 + 1.5.
Proof.
  destruct (createStar_spec id h) as (_ & _ & _ & Hpos & _).
  cbv zeta in Hpos. rewrite Hpos. reflexivity.
Qed.

(** X19. The star tops the tree. The star [createParticles] makes sits on
    the trunk axis at height 13.5, that is 1.5 above the highest point a
    tree target can have; its material starts with emissive intensity 1.5
    and its mesh with scale 1. None of its vectors is a vector of a
    particle, so no particle update moves or resizes it. *)
Theorem star_tops_the_tree rnd k id ps h s1 s2 s3 u1 u2 u3 u4 u5 u6 mesh type isDust h0 :
  (forall i, draw (rnd i)) -> scene_ok ps h -> draw u1 ->
  let star := snd (fst (createParticles rnd k id ps h)) in
  let h' := snd (createParticles rnd k id ps h) in
  let p := fst (new_Particle s1 s2 s3 u1 u2 u3 u4 u5 u6 mesh type isDust h0) in
  let hp := snd (new_Particle s1 s2 s3 u1 u2 u3 u4 u5 u6 mesh type isDust h0) in
  cell h' (Mesh.position (starMesh star)) = Vector3.mk 0 13.5 0 /\
  Vector3.y (cell hp (Particle.posTree p)) + 1.5
    <= Vector3.y (cell h' (Mesh.position (starMesh star))) /\
  emissiveIntensity star = 1.5 /\
  cell h' (Mesh.scale (starMesh star)) = Vector3.mk 1 1 1 /\
  (forall q r, In q (fst (fst (createParticles rnd k id ps h))) ->
               In r (mesh_cells (starMesh star)) -> ~ In r (cells q)).
Proof.
  intros Hrnd Hok H1 star h' p hp. subst star h' p hp.
  rewrite createParticles_fst, createParticles_star, createParticles_snd.
  generalize CONFIG.count. intros n.
  destruct (createParticles_loop_spec n rnd k id ps h Hrnd Hok)
    as (new & Hfst & _ & Hok2 & _ & _ & _).
  rewrite <- Hfst in Hok2.
  set (l := createParticles_loop n rnd k id ps h) in *.
  destruct (createStar_spec (id + n) (snd l)) as (Hcells & _ & He & Hpos & Hsc & _).
  cbv zeta in Hcells, He, Hpos, Hsc.
  rewrite new_Particle_posTree_cell. cbn [Vector3.y].
  rewrite Hpos. cbn [Vector3.y].
  pose proof (pow_unit u1 H1) as [Ht0 Ht1].
  unfold CONFIG.treeHeight in *.
  split; [f_equal; lra |]. split; [lra |]. split; [exact He |].
  split; [exact Hsc |].
  intros q r Hq Hr. eapply seq_mesh_cells_apart; eauto.
Qed.

Lemma star_tops_the_tree_witness :
  let star := snd (fst (createParticles (fun _ => 0.5) 0 0 [] heap0)) in
  let h' := snd (createParticles (fun _ => 0.5) 0 0 [] heap0) in
  let p := fst (new_Particle 0 0 0 0.999 0 0 0 0 0 mesh0 BOX false heap0) in
  let hp := snd (new_Particle 0 0 0 0.999 0 0 0 0 0 mesh0 BOX false heap0) in
  cell h' (Mesh.position (starMesh star)) = Vector3.mk 0 13.5 0 /\
  Vector3.y (cell hp (Particle.posTree p)) + 1.5
    <= Vector3.y (cell h' (Mesh.position (starMesh star))) /\
  emissiveIntensity star = 1.5 /\
  cell h' (Mesh.scale (starMesh star)) = Vector3.mk 1 1 1 /\
  (forall q r, In q (fst (fst (createParticles (fun _ => 0.5) 0 0 [] heap0))) ->
               In r (mesh_cells (starMesh star)) -> ~ In r (cells q)).
Proof.
  apply (star_tops_the_tree (fun _ => 0.5) 0 0 [] heap0 0 0 0 0.999 0 0 0 0 0
           mesh0 BOX false heap0).
  - intros i. unfold draw. lra.
  - split; constructor.
  - unfold draw. lra.
Defined.

(** ** The star pulse *)

Lemma byte_value_range (b : Byte.byte) : 0 <= byte_value b <= 255.
Proof.
  unfold byte_value. pose proof (Byte.to_N_bounded b) as Hb. split.
  - apply IZR_le. lia.
  - apply IZR_le. lia.
Qed.

Lemma sum_bins_range (dataArray : list Byte.byte) (n : nat) :
  forall i bass s,
    sum_bins dataArray i n bass = Some s ->
    bass <= s <= bass + 255 * INR n.
Proof.
  induction n as [| n IH]; intros i bass s Hs.
  - simpl in Hs. injection Hs as <-. simpl. lra.
  - cbn [sum_bins] in Hs.
    destruct (nth_error dataArray i) as [b |]; [| discriminate].
    apply IH in Hs. pose proof (byte_value_range b). rewrite S_INR. lra.
Qed.

Lemma sum_bins_some (dataArray : list Byte.byte) (n : nat) :
  forall i bass,
    (i + n <= length dataArray)%nat ->
    exists s, sum_bins dataArray i n bass = Some s.
Proof.
  induction n as [| n IH]; intros i bass Hlen.
  - eexists. reflexivity.
  - cbn [sum_bins].
    destruct (nth_error dataArray i) as [b |] eqn:Hb.
    + apply IH. lia.
    + apply nth_error_None in Hb. lia.
Qed.

(** X20. The pulse keeps the star within bounds. With an analyser whose
    array has at least 10 bins and a star whose emissive intensity lies in
    [[1, 9]] and whose scale lies in [[1, 1.5]], [updateStarPulse] writes
    numbers, leaves the intensity in [[1, 9]], sets the three components of
    the scale to one value of [[1, 1.5]], keeps the mesh of the star and
    touches no other vector. The star [createStar] makes (intensity 1.5,
    scale 1) starts within these bounds. *)
Theorem star_pulse_in_range dataArray st h :
  (10 <= length dataArray)%nat ->
  1 <= emissiveIntensity st <= 9 ->
  1 <= Vector3.x (cell h (Mesh.scale (starMesh st))) <= 1.5 ->
  exists st' h' s,
    updateStarPulse (Some dataArray) (Some st) h = Some (Some st', h') /\
    starMesh st' = starMesh st /\
    1 <= emissiveIntensity st' <= 9 /\
    cell h' (Mesh.scale (starMesh st')) = Vector3.mk s s s /\ 1 <= s <= 1.5 /\
    (forall r, r <> Mesh.scale (starMesh st) -> cell h' r = cell h r).
Proof.
  intros Hlen He Hs. unfold updateStarPulse.
  destruct (sum_bins_some dataArray 10 0 0) as (sum & Hsum); [simpl; lia |].
  rewrite Hsum. apply sum_bins_range in Hsum.
  replace (INR 10) with 10 in Hsum by (simpl; lra).
  eexists. eexists. eexists. split; [reflexivity |].
  cbn [starMesh emissiveIntensity]. split; [reflexivity |]. split.
  - unfold MathUtils_lerp. lra.
  - split; [apply cell_set_eq |]. split.
    + unfold MathUtils_lerp. lra.
    + intros r Hr. now apply cell_set_neq.
Qed.

Lemma star_pulse_in_range_witness :
  exists st' h' s,
    updateStarPulse (Some (repeat Byte.xff 128)) (Some star0) heap1
      = Some (Some st', h') /\
    starMesh st' = starMesh star0 /\
    1 <= emissiveIntensity st' <= 9 /\
    cell h' (Mesh.scale (starMesh st')) = Vector3.mk s s s /\ 1 <= s <= 1.5 /\
    (forall r, r <> Mesh.scale (starMesh star0) -> cell h' r = cell heap1 r).
Proof.
  apply (star_pulse_in_range (repeat Byte.xff 128) star0 heap1).
  - rewrite repeat_length. lia.
  - simpl. lra.
  - simpl. lra.
Defined.

(** ** The background *)

Lemma Color_lerp_one (T c : Color.t) : Color.lerp T c 1 = c.
Proof. destruct T, c. unfold Color.lerp. simpl. f_equal; ring. Qed.

Lemma Color_lerp_lerp (T c : Color.t) (alpha F : R) :
  Color.lerp T (Color.lerp c T alpha) F = Color.lerp T c ((1 - alpha) * F).
Proof. destruct T, c. unfold Color.lerp. simpl. f_equal; ring. Qed.

Section BackgroundFacts.

Variable Color_hex : Z -> Color.t.

Local Abbreviation update_bg := (updateDynamicBackground Color_hex).
Local Abbreviation backgrounds' := (backgrounds Color_hex).

Lemma update_bg_in_range hr st :
  stage_in_range st -> stage_in_range (update_bg hr st).
Proof.
  intros [He Hobj]. unfold stage_in_range, updateDynamicBackground.
  cbn [toneMappingExposure objects]. split.
  - unfold MathUtils_lerp. destruct ((6 <=? hr)%Z && (hr <? 18)%Z); lra.
  - apply Forall_map. eapply Forall_impl; [| exact Hobj].
    intros c Hc. cbv beta in Hc.
    destruct (isAmbientLight c) eqn:Ha; [| congruence].
    cbn [isAmbientLight intensity]. intros _. specialize (Hc eq_refl).
    unfold MathUtils_lerp. destruct ((6 <=? hr)%Z && (hr <? 18)%Z); lra.
Qed.

Lemma update_bg_others hr st :
  length (objects (update_bg hr st)) = length (objects st) /\
  (forall i c, nth_error (objects st) i = Some c -> isAmbientLight c = false ->
               nth_error (objects (update_bg hr st)) i = Some c) /\
  (forall i c', nth_error (objects (update_bg hr st)) i = Some c' ->
                exists c, nth_error (objects st) i = Some c /\
                          isAmbientLight c' = isAmbientLight c).
Proof.
  unfold updateDynamicBackground. cbn [objects]. split; [apply length_map |].
  split.
  - intros i c Hc Ha. rewrite nth_error_map, Hc. simpl. now rewrite Ha.
  - intros i c' Hc'. rewrite nth_error_map in Hc'.
    destruct (nth_error (objects st) i) as [c |]; [| discriminate].
    simpl in Hc'. exists c. split; [reflexivity |].
    injection Hc' as <-. destruct (isAmbientLight c) eqn:Ha; simpl; congruence.
Qed.

(** X21. The background stays within its day and night values. Over any
    sequence of frames, at whatever hours, a stage whose exposure lies in
    [[1, 1.4]] and whose ambient lights have intensities in [[0.2, 0.7]]
    stays so; the number of objects of the scene does not change, and an
    object that is not an ambient light is left exactly as it was. *)
Theorem background_in_range hours st :
  1 <= toneMappingExposure st <= 1.4 ->
  Forall (fun c => isAmbientLight c = true -> 0.2 <= intensity c <= 0.7)
         (objects st) ->
  1 <= toneMappingExposure (backgrounds Color_hex hours st) <= 1.4 /\
  Forall (fun c => isAmbientLight c = true -> 0.2 <= intensity c <= 0.7)
         (objects (backgrounds Color_hex hours st)) /\
  length (objects (backgrounds Color_hex hours st)) = length (objects st) /\
  (forall i c, nth_error (objects st) i = Some c -> isAmbientLight c = false ->
               nth_error (objects (backgrounds Color_hex hours st)) i = Some c).
Proof.
  intros He Hobj.
  assert (Hr : stage_in_range st) by (split; assumption). clear He Hobj.
  revert st Hr. induction hours as [| hr hours IH]; intros st Hr.
  - destruct Hr as [He Hobj]. unfold backgrounds. cbn [fold_left].
    split; [exact He |]. split; [exact Hobj |]. split; [reflexivity |].
    intros i c Hc _. exact Hc.
  - unfold backgrounds. cbn [fold_left].
    destruct (IH (update_bg hr st) (update_bg_in_range hr st Hr))
      as (He' & Hobj' & Hlen' & Hkeep').
    destruct (update_bg_others hr st) as (Hlen & Hkeep & _).
    unfold backgrounds in *.
    split; [exact He' |]. split; [exact Hobj' |].
    split; [congruence |].
    intros i c Hc Ha. apply Hkeep'; [| exact Ha]. now apply Hkeep.
Qed.

(** X22. The background converges geometrically. After [n] frames at the
    same hour, the exposure, the intensity of every ambient light, the
    background colour and the fog colour are each the target of that hour
    plus [0.98 ^ n] times the initial offset from it; the targets are the
    day values (exposure 1.4, ambient 0.7) from 6 to 17 o'clock and the
    night values (1.0 and 0.2) otherwise. *)
Theorem background_after_n_frames (hr : Z) (n : nat) (st : Stage) :
  let isDay := (6 <=? hr)%Z && (hr <? 18)%Z in
  let bgColor := Color_hex (if isDay then 0x101a2d%Z else 0x000000%Z) in
  let fogColor := Color_hex (if isDay then 0x0a121e%Z else 0x010103%Z) in
  let ambient := if isDay then 0.7 else 0.2 in
  let exposure := if isDay then 1.4 else 1.0 in
  backgrounds Color_hex (repeat hr n) st =
  mkStage
    (option_map (fun c => Color.lerp bgColor c (0.98 ^ n)) (background st))
    (option_map (fun c => Color.lerp fogColor c (0.98 ^ n)) (fog_color st))
    (exposure + (toneMappingExposure st - exposure) * 0.98 ^ n)
    (map (fun c =>
            if isAmbientLight c
            then mkObject (isAmbientLight c)
                          (ambient + (intensity c - ambient) * 0.98 ^ n)
            else c)
         (objects st)).
Proof.
  intros isDay bgColor fogColor ambient exposure.
  revert st. induction n as [| n IH]; intros st.
  - destruct st as [bg fg e objs]. unfold backgrounds.
    cbn [repeat fold_left background fog_color toneMappingExposure objects pow].
    f_equal.
    + destruct bg; [| reflexivity]. simpl. now rewrite Color_lerp_one.
    + destruct fg; [| reflexivity]. simpl. now rewrite Color_lerp_one.
    + ring.
    + rewrite <- (map_id objs) at 1. apply map_ext. intros [a i].
      cbn [isAmbientLight intensity]. destruct a; [f_equal; ring | reflexivity].
  - unfold backgrounds in *. cbn [repeat fold_left]. rewrite IH.
    unfold updateDynamicBackground.
    fold isDay. fold bgColor fogColor ambient exposure.
    cbn [background fog_color toneMappingExposure objects]. f_equal.
    + destruct (background st) as [c |]; [| reflexivity]. cbn [option_map].
      rewrite Color_lerp_lerp. apply f_equal.
      apply (f_equal (Color.lerp bgColor c)). simpl. lra.
    + destruct (fog_color st) as [c |]; [| reflexivity]. cbn [option_map].
      rewrite Color_lerp_lerp. apply f_equal.
      apply (f_equal (Color.lerp fogColor c)). simpl. lra.
    + unfold MathUtils_lerp. simpl. lra.
    + rewrite map_map. apply map_ext. intros [a i].
      cbn [isAmbientLight intensity]. destruct a; [| reflexivity].
      cbn [isAmbientLight intensity]. apply f_equal.
      unfold MathUtils_lerp. simpl. lra.
Qed.

End BackgroundFacts.

Lemma background_in_range_witness :
  let st := initial_stage (Color.mk 0 0 0) (Color.mk 0 0 0) in
  let run := backgrounds (fun _ => Color.mk 0 0 0) [5; 6; 17; 18]%Z st in
  1 <= toneMappingExposure run <= 1.4 /\
  Forall (fun c => isAmbientLight c = true -> 0.2 <= intensity c <= 0.7)
         (objects run) /\
  length (objects run) = length (objects st) /\
  (forall i c, nth_error (objects st) i = Some c -> isAmbientLight c = false ->
               nth_error (objects run) i = Some c).
Proof.
  apply (background_in_range (fun _ => Color.mk 0 0 0) [5; 6; 17; 18]%Z
           (initial_stage (Color.mk 0 0 0) (Color.mk 0 0 0))).
  - simpl. lra.
  - simpl. repeat constructor; simpl; intros; try discriminate; lra.
Defined.

(** ** The frame loop *)

Lemma updateStarPulse_returns audio star h :
  bins_ok audio ->
  exists star' h1,
    updateStarPulse audio star h = Some (star', h1) /\
    (forall r, (forall st, star = Some st -> r <> Mesh.scale (starMesh st)) ->
               cell h1 r = cell h r).
Proof.
  intros Hok. unfold updateStarPulse.
  destruct audio as [dataArray |]; [| eexists; eexists; split; reflexivity].
  destruct star as [st |]; [| eexists; eexists; split; reflexivity].
  destruct (sum_bins_some dataArray 10 0 0) as (sum & Hsum); [exact Hok |].
  rewrite Hsum. eexists. eexists. split; [reflexivity |].
  intros r Hr. apply cell_set_neq. now apply Hr.
Qed.

Lemma rotate_keeps (dt : R) (S : STATE.t) :
  STATE.mode (rotate dt S) = STATE.mode S /\
  STATE.focusTarget (rotate dt S) = STATE.focusTarget S /\
  STATE.hand (rotate dt S) = STATE.hand S /\
  STATE.focusIndex (rotate dt S) = STATE.focusIndex S.
Proof.
  unfold rotate.
  destruct (Mode_eqb (STATE.mode S) SCATTER && Hand.detected (STATE.hand S));
    repeat split; reflexivity.
Qed.

Section AnimateFacts.

Variable Matrix4 : Type.
Variable invert : Matrix4 -> Matrix4.
Variable applyMatrix4 : Vector3.t -> Matrix4 -> Vector3.t.
Variable lookAt : Globals Matrix4 -> Heap -> Mesh.t -> Vector3.t -> Vector3.t.
Variable Color_hex : Z -> Color.t.

Local Abbreviation update' := (update Matrix4 invert applyMatrix4 lookAt).
Local Abbreviation update_all' := (update_all Matrix4 invert applyMatrix4 lookAt).
Local Abbreviation animate' :=
  (animate Matrix4 invert applyMatrix4 lookAt Color_hex).

Lemma update_all_this G dt mode focus ps h :
  fst (update_all' G dt mode focus ps h) = ps.
Proof.
  revert h. induction ps as [| q ps IH]; intros h; [reflexivity |].
  rewrite (update_all_cons Matrix4 invert applyMatrix4 lookAt). cbn [fst].
  now rewrite IH.
Qed.

(** The loop over the particles writes to vectors of their meshes only. *)
Lemma update_all_frame G dt mode focus ps h r :
  (forall q, In q ps -> ~ In r (mesh_cells (Particle.mesh q))) ->
  cell (snd (update_all' G dt mode focus ps h)) r = cell h r.
Proof.
  revert h. induction ps as [| q ps IH]; intros h Hr; [reflexivity |].
  rewrite (update_all_cons Matrix4 invert applyMatrix4 lookAt). cbn [snd].
  rewrite IH by (intros q' Hq'; apply Hr; now right).
  assert (Hq : ~ In r (mesh_cells (Particle.mesh q))) by (apply Hr; now left).
  unfold mesh_cells in Hq. simpl in Hq.
  apply (update_frame Matrix4 invert applyMatrix4 lookAt); intuition.
Qed.

(** [animate], spelt out, when the pulse writes numbers. *)
Lemma animate_eq G dt hours audio w :
  bins_ok audio ->
  exists star' h1,
    updateStarPulse audio (W_star w) (W_heap w) = Some (star', h1) /\
    let S := rotate dt (W_STATE w) in
    let rot := Mesh.rotation (W_mainGroup w) in
    let h3 := setx rot (fst (STATE.rotation S))
                (sety rot (snd (STATE.rotation S)) h1) in
    let ua := update_all' G dt (STATE.mode S) (STATE.focusTarget S)
                (W_particleSystem w) h3 in
    animate' G dt hours audio w
    = Some (mkWorld S (fst ua) (snd ua)
              (updateDynamicBackground Color_hex hours (W_stage w)) star'
              (W_mainGroup w)).
Proof.
  intros Hok.
  destruct (updateStarPulse_returns audio (W_star w) (W_heap w) Hok)
    as (star' & h1 & Hpulse & _).
  exists star', h1. split; [exact Hpulse |]. cbv zeta.
  unfold animate. rewrite Hpulse.
  destruct (update_all Matrix4 invert applyMatrix4 lookAt G dt _ _ _ _).
  reflexivity.
Qed.

(** X23. A frame of [animate] never changes the interaction state: with an
    analyser that is missing or has its ten bins, the call returns a world
    whose mode, focus target, hand signal and focus index are those of
    before, whose particle system is the same list of particles and whose
    main group is the same object; and if no particle's mesh shares a
    vector with the rotation of the main group, that rotation holds the x
    and y of [STATE.rotation] afterwards. *)
Theorem animate_keeps_interaction_state G dt hours audio w :
  bins_ok audio ->
  (forall q, In q (W_particleSystem w) ->
             ~ In (Mesh.rotation (W_mainGroup w)) (mesh_cells (Particle.mesh q))) ->
  exists w',
    animate' G dt hours audio w = Some w' /\
    STATE.mode (W_STATE w') = STATE.mode (W_STATE w) /\
    STATE.focusTarget (W_STATE w') = STATE.focusTarget (W_STATE w) /\
    STATE.hand (W_STATE w') = STATE.hand (W_STATE w) /\
    STATE.focusIndex (W_STATE w') = STATE.focusIndex (W_STATE w) /\
    W_particleSystem w' = W_particleSystem w /\
    W_mainGroup w' = W_mainGroup w /\
    Vector3.x (cell (W_heap w') (Mesh.rotation (W_mainGroup w')))
      = fst (STATE.rotation (W_STATE w')) /\
    Vector3.y (cell (W_heap w') (Mesh.rotation (W_mainGroup w')))
      = snd (STATE.rotation (W_STATE w')).
Proof.
  intros Hok Hsep.
  destruct (animate_eq G dt hours audio w Hok) as (star' & h1 & _ & Heq).
  cbv zeta in Heq. eexists. split; [exact Heq |].
  cbn [W_STATE W_particleSystem W_mainGroup W_heap].
  destruct (rotate_keeps dt (W_STATE w)) as (Hm & Hf & Hh & Hi).
  split; [exact Hm |]. split; [exact Hf |]. split; [exact Hh |].
  split; [exact Hi |]. split; [apply update_all_this |].
  split; [reflexivity |].
  rewrite update_all_frame by exact Hsep.
  rewrite cell_setx_eq, cell_sety_eq. cbn [Vector3.x Vector3.y].
  split; reflexivity.
Qed.

End AnimateFacts.


Lemma rotate_steer (dt : R) (S : STATE.t) :
  Mode_eqb (STATE.mode S) SCATTER && Hand.detected (STATE.hand S) = true ->
  snd (STATE.rotation (rotate dt S)) - Hand.x (STATE.hand S) * Math.PI * 0.9
  = (1 - 3 * dt) * (snd (STATE.rotation S) - Hand.x (STATE.hand S) * Math.PI * 0.9) /\
  fst (STATE.rotation (rotate dt S)) - Hand.y (STATE.hand S) * Math.PI * 0.25
  = (1 - 3 * dt) * (fst (STATE.rotation S) - Hand.y (STATE.hand S) * Math.PI * 0.25).
Proof.
  intros Hc. unfold rotate. rewrite Hc. cbn [STATE_set_rotation STATE.rotation fst snd].
  replace 3.0 with 3 by lra. split; ring.
Qed.

(** A value drawn towards a target of a symmetric range stays in it. *)
Lemma approach_within (v T b k : R) :
  0 <= k <= 1 -> Rabs T <= b -> Rabs v <= b -> Rabs (T + (1 - k) * (v - T)) <= b.
Proof.
  intros Hk HT Hv. apply Rabs_le.
  unfold Rabs in HT, Hv.
  destruct (Rcase_abs T), (Rcase_abs v); split; nra.
Qed.

Section AnimateRotation.

Variable Matrix4 : Type.
Variable invert : Matrix4 -> Matrix4.
Variable applyMatrix4 : Vector3.t -> Matrix4 -> Vector3.t.
Variable lookAt : Globals Matrix4 -> Heap -> Mesh.t -> Vector3.t -> Vector3.t.
Variable Color_hex : Z -> Color.t.

Local Abbreviation update_all' := (update_all Matrix4 invert applyMatrix4 lookAt).
Local Abbreviation animate' :=
  (animate Matrix4 invert applyMatrix4 lookAt Color_hex).


(** X25. In SCATTER mode with a hand detected, a frame of [animate] draws
    the rotation of the scene towards the hand: the offset of the yaw from
    [hand.x * 0.9 * PI] and of the pitch from [hand.y * 0.25 * PI] is
    multiplied by [1 - 3 * dt]. With the pointing vector in [[-1, 1]] and
    [0 <= dt <= 1/3], a yaw within 0.9 PI of zero stays within it and a
    pitch within 0.25 PI of zero stays within it. *)
Theorem animate_follows_hand G dt hours audio w :
  bins_ok audio ->
  STATE.mode (W_STATE w) = SCATTER ->
  Hand.detected (STATE.hand (W_STATE w)) = true ->
  -1 <= Hand.x (STATE.hand (W_STATE w)) <= 1 ->
  -1 <= Hand.y (STATE.hand (W_STATE w)) <= 1 ->
  0 <= dt <= / 3 ->
  let S := W_STATE w in
  let yawT := Hand.x (STATE.hand S) * Math.PI * 0.9 in
  let pitchT := Hand.y (STATE.hand S) * Math.PI * 0.25 in
  exists w',
    animate' G dt hours audio w = Some w' /\
    snd (STATE.rotation (W_STATE w')) - yawT
      = (1 - 3 * dt) * (snd (STATE.rotation S) - yawT) /\
    fst (STATE.rotation (W_STATE w')) - pitchT
      = (1 - 3 * dt) * (fst (STATE.rotation S) - pitchT) /\
    (Rabs (snd (STATE.rotation S)) <= 0.9 * Math.PI ->
     Rabs (snd (STATE.rotation (W_STATE w'))) <= 0.9 * Math.PI) /\
    (Rabs (fst (STATE.rotation S)) <= 0.25 * Math.PI ->
     Rabs (fst (STATE.rotation (W_STATE w'))) <= 0.25 * Math.PI).
Proof.
  intros Hok Hm Hd Hx Hy Hdt S yawT pitchT. subst S.
  destruct (animate_eq Matrix4 invert applyMatrix4 lookAt Color_hex G dt hours
              audio w Hok) as (star' & h1 & _ & Heq).
  cbv zeta in Heq. eexists. split; [exact Heq |]. cbn [W_STATE].
  assert (Hc : Mode_eqb (STATE.mode (W_STATE w)) SCATTER
               && Hand.detected (STATE.hand (W_STATE w)) = true).
  { rewrite Hm, Hd. reflexivity. }
  destruct (rotate_steer dt (W_STATE w) Hc) as [Hyaw Hpitch].
  fold yawT in Hyaw. fold pitchT in Hpitch.
  pose proof PI_RGT_0 as Hpi. unfold Math.PI in *.
  split; [exact Hyaw |]. split; [exact Hpitch |]. split.
  - intros Hb.
    replace (snd (STATE.rotation (rotate dt (W_STATE w))))
      with (yawT + (1 - 3 * dt) * (snd (STATE.rotation (W_STATE w)) - yawT))
      by (rewrite <- Hyaw; ring).
    apply approach_within; [lra | | exact Hb].
    unfold yawT. apply Rabs_le. split; nra.
  - intros Hb.
    replace (fst (STATE.rotation (rotate dt (W_STATE w))))
      with (pitchT + (1 - 3 * dt) * (fst (STATE.rotation (W_STATE w)) - pitchT))
      by (rewrite <- Hpitch; ring).
    apply approach_within; [lra | | exact Hb].
    unfold pitchT. apply Rabs_le. split; nra.
Qed.

(** X26. A frame of [animate] keeps what is fixed of every particle. When
    the particle system owns its vectors and neither the rotation of the
    main group nor the scale of the star is one of them, the call returns a
    world in which every particle has the tree target, scatter target, spin
    velocity, type, dust flag and base scale it had. *)
Theorem animate_preserves_fixed G dt hours audio w :
  bins_ok audio ->
  scene_ok (W_particleSystem w) (W_heap w) ->
  (forall q, In q (W_particleSystem w) ->
             ~ In (Mesh.rotation (W_mainGroup w)) (cells q)) ->
  (forall st q, W_star w = Some st -> In q (W_particleSystem w) ->
                ~ In (Mesh.scale (starMesh st)) (cells q)) ->
  exists w',
    animate' G dt hours audio w = Some w' /\
    W_particleSystem w' = W_particleSystem w /\
    Forall (fun p => fixed_of p (W_heap w') = fixed_of p (W_heap w))
           (W_particleSystem w').
Proof.
  intros Hok Hscene Hmain Hstar.
  destruct (updateStarPulse_returns audio (W_star w) (W_heap w) Hok)
    as (star0' & h0 & Hpulse0 & Hkeep).
  destruct (animate_eq Matrix4 invert applyMatrix4 lookAt Color_hex G dt hours
              audio w Hok) as (star' & h1 & Hpulse & Heq).
  assert (h1 = h0) by congruence. subst h0. clear Hpulse0.
  cbv zeta in Heq. eexists. split; [exact Heq |].
  cbn [W_particleSystem W_heap].
  rewrite (update_all_this Matrix4 invert applyMatrix4 lookAt).
  split; [reflexivity |].
  apply Forall_forall. intros p Hp.
  assert (Hsep : Forall (separate p) (W_particleSystem w)).
  { apply Forall_forall. intros q Hq.
    now apply (scene_ok_separate (W_particleSystem w) (W_heap w)). }
  destruct (update_all_fixed Matrix4 invert applyMatrix4 lookAt G dt
              (STATE.mode (rotate dt (W_STATE w)))
              (STATE.focusTarget (rotate dt (W_STATE w))) p (W_particleSystem w)
              (setx (Mesh.rotation (W_mainGroup w))
                 (fst (STATE.rotation (rotate dt (W_STATE w))))
                 (sety (Mesh.rotation (W_mainGroup w))
                    (snd (STATE.rotation (rotate dt (W_STATE w)))) h1)) Hsep)
    as [_ Hfix].
  rewrite Hfix. unfold fixed_of.
  assert (Hcell : forall r, In r (target_cells p) ->
            cell (setx (Mesh.rotation (W_mainGroup w))
                    (fst (STATE.rotation (rotate dt (W_STATE w))))
                    (sety (Mesh.rotation (W_mainGroup w))
                       (snd (STATE.rotation (rotate dt (W_STATE w)))) h1)) r
            = cell (W_heap w) r).
  { intros r Hr.
    assert (Hin : In r (cells p)) by (unfold cells; apply in_or_app; now right).
    assert (Hne : r <> Mesh.rotation (W_mainGroup w)).
    { intros ->. exact (Hmain p Hp Hin). }
    rewrite cell_setx_neq, cell_sety_neq by exact Hne.
    apply Hkeep. intros st Hst ->. exact (Hstar st p Hst Hp Hin). }
  f_equal; apply Hcell; simpl; auto.
Qed.

End AnimateRotation.

Lemma animate_keeps_interaction_state_witness :
  exists w',
    animate unit (fun m => m) (fun v _ => v) (fun _ _ _ v => v)
            (fun _ => Color.mk 0 0 0) globals0 0.016 12 None world0 = Some w' /\
    STATE.mode (W_STATE w') = STATE.mode (W_STATE world0) /\
    STATE.focusTarget (W_STATE w') = STATE.focusTarget (W_STATE world0) /\
    STATE.hand (W_STATE w') = STATE.hand (W_STATE world0) /\
    STATE.focusIndex (W_STATE w') = STATE.focusIndex (W_STATE world0) /\
    W_particleSystem w' = W_particleSystem world0 /\
    W_mainGroup w' = W_mainGroup world0 /\
    Vector3.x (cell (W_heap w') (Mesh.rotation (W_mainGroup w')))
      = fst (STATE.rotation (W_STATE w')) /\
    Vector3.y (cell (W_heap w') (Mesh.rotation (W_mainGroup w')))
      = snd (STATE.rotation (W_STATE w')).
Proof.
  apply (animate_keeps_interaction_state unit (fun m => m) (fun v _ => v)
           (fun _ _ _ v => v) (fun _ => Color.mk 0 0 0) globals0 0.016 12 None
           world0).
  - exact I.
  - intros q [<- | []] Hin. simpl in Hin. intuition discriminate.
Defined.


Lemma animate_follows_hand_witness :
  let S := W_STATE world1 in
  let yawT := Hand.x (STATE.hand S) * Math.PI * 0.9 in
  let pitchT := Hand.y (STATE.hand S) * Math.PI * 0.25 in
  exists w',
    animate unit (fun m => m) (fun v _ => v) (fun _ _ _ v => v)
            (fun _ => Color.mk 0 0 0) globals0 0.016 12 None world1 = Some w' /\
    snd (STATE.rotation (W_STATE w')) - yawT
      = (1 - 3 * 0.016) * (snd (STATE.rotation S) - yawT) /\
    fst (STATE.rotation (W_STATE w')) - pitchT
      = (1 - 3 * 0.016) * (fst (STATE.rotation S) - pitchT) /\
    (Rabs (snd (STATE.rotation S)) <= 0.9 * Math.PI ->
     Rabs (snd (STATE.rotation (W_STATE w'))) <= 0.9 * Math.PI) /\
    (Rabs (fst (STATE.rotation S)) <= 0.25 * Math.PI ->
     Rabs (fst (STATE.rotation (W_STATE w'))) <= 0.25 * Math.PI).
Proof.
  apply (animate_follows_hand unit (fun m => m) (fun v _ => v)
           (fun _ _ _ v => v) (fun _ => Color.mk 0 0 0) globals0 0.016 12 None
           world1).
  - exact I.
  - reflexivity.
  - reflexivity.
  - simpl. lra.
  - simpl. lra.
  - lra.
Defined.

Lemma animate_preserves_fixed_witness :
  exists w',
    animate unit (fun m => m) (fun v _ => v) (fun _ _ _ v => v)
            (fun _ => Color.mk 0 0 0) globals0 0.016 12 None world1 = Some w' /\
    W_particleSystem w' = W_particleSystem world1 /\
    Forall (fun p => fixed_of p (W_heap w') = fixed_of p (W_heap world1))
           (W_particleSystem w').
Proof.
  apply (animate_preserves_fixed unit (fun m => m) (fun v _ => v)
           (fun _ _ _ v => v) (fun _ => Color.mk 0 0 0) globals0 0.016 12 None
           world1).
  - exact I.
  - split.
    + simpl. repeat constructor; simpl; intuition discriminate.
    + simpl. repeat constructor; lia.
  - intros q [<- | []] Hin. simpl in Hin. intuition discriminate.
  - intros st q Hst. discriminate.
Defined.

(** ** The detection loop *)

(** One call of [predictWebcam]: the frame is skipped, or the state is the
    one [processGestures] leaves. *)
Lemma predictWebcam_cases (f : VideoFrame) (t : R) (S : STATE.t) :
  let c := predictWebcam (vf_currentTime f) (vf_handLandmarker f) (vf_rnd f)
             (vf_particles f) t S in
  (c = Normal t S /\ vf_currentTime f = t) \/
  (c = Normal (vf_currentTime f) S /\ vf_handLandmarker f = None) \/
  (exists result,
     vf_handLandmarker f = Some result /\ vf_currentTime f <> t /\
     match processGestures (vf_rnd f) (vf_particles f) result S with
     | Normal _ S' => c = Normal (vf_currentTime f) S'
     | TypeError S' => c = TypeError S'
     end).
Proof.
  intros c. subst c. unfold predictWebcam.
  destruct (Req_dec_T (vf_currentTime f) t) as [Heq | Hne]; [now left |].
  destruct (vf_handLandmarker f) as [result |]; [| right; left; now split].
  right. right. exists result. split; [reflexivity |]. split; [exact Hne |].
  unfold bind, ret.
  destruct (processGestures (vf_rnd f) (vf_particles f) result S); reflexivity.
Qed.

(** X27. The detection loop leaves [STATE] alone as long as there is no
    landmarker, and as long as the video shows the frame it showed at the
    last call: in both cases the state after any number of calls is the
    state before them. *)
Theorem detection_needs_landmarker_and_new_frame frames t S :
  Forall (fun f => vf_handLandmarker f = None) frames \/
  Forall (fun f => vf_currentTime f = t) frames ->
  detection_loop frames t S = S.
Proof.
  intros [Hnone | Hsame].
  - revert t. induction Hnone as [| f frames Hf _ IH]; intros t; [reflexivity |].
    cbn [detection_loop]. unfold predictWebcam. rewrite Hf.
    destruct (Req_dec_T (vf_currentTime f) t); cbn [ret]; apply IH.
  - induction Hsame as [| f frames Hf _ IH]; [reflexivity |].
    cbn [detection_loop]. unfold predictWebcam.
    destruct (Req_dec_T (vf_currentTime f) t) as [_ | Hne]; [| contradiction].
    cbn [ret]. exact IH.
Qed.

Lemma detection_needs_landmarker_and_new_frame_witness :
  detection_loop
    [mkVideoFrame 0.04 None 0 [photo0]; mkVideoFrame 0.08 None 0 [photo0]]
    (-1) STATE.init = STATE.init.
Proof.
  apply (detection_needs_landmarker_and_new_frame
           [mkVideoFrame 0.04 None 0 [photo0]; mkVideoFrame 0.08 None 0 [photo0]]
           (-1) STATE.init).
  left. repeat constructor.
Defined.

(** X28. A malformed hand ends gesture control. When a new video frame
    yields a first hand of fewer than 21 landmarks, [processGestures] throws
    before [predictWebcam] schedules itself again: whatever frames would
    follow, the state stays the one of the throw, with the mode and the
    focus target of before and the hand flagged as detected. *)
Theorem short_hand_ends_detection f later t S result lm rest :
  vf_currentTime f <> t ->
  vf_handLandmarker f = Some result ->
  landmarks result = Some (lm :: rest) -> (length lm < 21)%nat ->
  detection_loop (f :: later) t S = detection_loop [f] t S /\
  STATE.mode (detection_loop (f :: later) t S) = STATE.mode S /\
  STATE.focusTarget (detection_loop (f :: later) t S) = STATE.focusTarget S /\
  Hand.detected (STATE.hand (detection_loop (f :: later) t S)) = true.
Proof.
  intros Hne Hlm Hres Hlen.
  destruct result as [l]. cbn [landmarks] in Hres. subst l.
  destruct (short_hand_throws (vf_rnd f) (vf_particles f) lm rest S Hlen)
    as (S' & Hthrow & Hm & Hf).
  pose proof (processGestures_hand (vf_rnd f) (vf_particles f)
                (mkResult (Some (lm :: rest))) S) as (_ & _ & Hh).
  rewrite Hthrow in Hh. cbn [final landmarks] in Hh.
  assert (Hrun : forall frames, detection_loop (f :: frames) t S = S').
  { intros frames. cbn [detection_loop]. unfold predictWebcam.
    destruct (Req_dec_T (vf_currentTime f) t) as [Heq | _]; [contradiction |].
    rewrite Hlm. unfold bind. rewrite Hthrow. reflexivity. }
  rewrite !Hrun. split; [reflexivity |]. split; [exact Hm |].
  split; [exact Hf |]. rewrite Hh. destruct (js_index lm 9); reflexivity.
Qed.

Lemma short_hand_ends_detection_witness :
  let f := mkVideoFrame 0.04 (Some (mkResult (Some [[Lm.mk 0.5 0.5]]))) 0 [photo0] in
  let later := [mkVideoFrame 0.08 (Some (one_hand (hand_with 0.3 0.3))) 0 [photo0]] in
  detection_loop (f :: later) (-1) STATE.init = detection_loop [f] (-1) STATE.init /\
  STATE.mode (detection_loop (f :: later) (-1) STATE.init) = STATE.mode STATE.init /\
  STATE.focusTarget (detection_loop (f :: later) (-1) STATE.init)
    = STATE.focusTarget STATE.init /\
  Hand.detected (STATE.hand (detection_loop (f :: later) (-1) STATE.init)) = true.
Proof.
  apply (short_hand_ends_detection
           (mkVideoFrame 0.04 (Some (mkResult (Some [[Lm.mk 0.5 0.5]]))) 0 [photo0])
           [mkVideoFrame 0.08 (Some (one_hand (hand_with 0.3 0.3))) 0 [photo0]]
           (-1) STATE.init (mkResult (Some [[Lm.mk 0.5 0.5]]))
           [Lm.mk 0.5 0.5] []).
  - simpl. lra.
  - reflexivity.
  - reflexivity.
  - simpl. lia.
Defined.

Lemma detection_loop_focus_inv frames : forall t S,
  focus_inv S -> focus_inv (detection_loop frames t S).
Proof.
  induction frames as [| f frames IH]; intros t S Hinv; [exact Hinv |].
  cbn [detection_loop].
  assert (Hstep : forall result,
            focus_inv (final (processGestures (vf_rnd f) (vf_particles f) result S))).
  { intros result.
    exact (step_focus_inv S (mkFrame (vf_rnd f) (vf_particles f) result) Hinv). }
  destruct (predictWebcam_cases f t S) as [[Hc _] | [[Hc _] | (result & _ & _ & Hc)]];
    cbv zeta in Hc.
  - rewrite Hc. now apply IH.
  - rewrite Hc. now apply IH.
  - specialize (Hstep result).
    destruct (processGestures (vf_rnd f) (vf_particles f) result S) as [u S' | S'];
      rewrite Hc; cbn [final] in Hstep; [now apply IH | exact Hstep].
Qed.

(** X29. The invariant of the mode machine holds along the detection loop
    as the script runs it, with skipped frames, a landmarker that may be
    missing and a loop that ends at the first exception: from the initial
    state, after any frames, a focus target is set only while the mode is
    FOCUS. *)
Theorem detection_loop_focus_only_in_focus frames :
  STATE.focusTarget (detection_loop frames (-1) STATE.init) <> None ->
  STATE.mode (detection_loop frames (-1) STATE.init) = FOCUS.
Proof.
  apply (detection_loop_focus_inv frames (-1) STATE.init).
  unfold focus_inv. simpl. congruence.
Qed.

Lemma detection_loop_focus_only_in_focus_witness :
  STATE.mode (detection_loop
                [mkVideoFrame 0.04 (Some (one_hand (hand_with 0.3 0.3))) 0 [photo0]]
                (-1) STATE.init) = FOCUS.
Proof.
  apply (detection_loop_focus_only_in_focus
           [mkVideoFrame 0.04 (Some (one_hand (hand_with 0.3 0.3))) 0 [photo0]]).
  cbn [detection_loop]. unfold predictWebcam.
  cbn [vf_currentTime vf_handLandmarker vf_rnd vf_particles].
  destruct (Req_dec_T 0.04 (-1)) as [Heq | _]; [lra |].
  unfold bind. rewrite pinching_run. simpl. discriminate.
Defined.

(** ** The loop over the particles, particle by particle *)

Lemma NoDup_cells_head (q : Particle.t) (ps : list Particle.t) :
  NoDup (flat_map cells (q :: ps)) ->
  NoDup (cells q) /\ NoDup (flat_map cells ps) /\
  (forall p r, In p ps -> In r (cells p) -> ~ In r (cells q)).
Proof.
  cbn [flat_map]. intros Hnd.
  split; [now apply NoDup_app_remove_r in Hnd |].
  split; [now apply NoDup_app_remove_l in Hnd |].
  intros p r Hp Hr Hq.
  apply in_split in Hq. destruct Hq as (l1 & l2 & Hc).
  rewrite Hc, <- app_assoc in Hnd. cbn [app] in Hnd.
  apply NoDup_remove_2 in Hnd. apply Hnd.
  apply in_or_app. right. apply in_or_app. right.
  apply in_flat_map. exists p. split; assumption.
Qed.

Lemma in_mesh_cells_cells (p : Particle.t) (r : ref) :
  In r (mesh_cells (Particle.mesh p)) -> In r (cells p).
Proof. intros H. unfold cells. apply in_or_app. now left. Qed.

Lemma in_target_cells_cells (p : Particle.t) (r : ref) :
  In r (target_cells p) -> In r (cells p).
Proof. intros H. unfold cells. apply in_or_app. now right. Qed.

Section ForEach.

Variable Matrix4 : Type.
Variable invert : Matrix4 -> Matrix4.
Variable applyMatrix4 : Vector3.t -> Matrix4 -> Vector3.t.
Variable lookAt : Globals Matrix4 -> Heap -> Mesh.t -> Vector3.t -> Vector3.t.

Local Abbreviation update' := (update Matrix4 invert applyMatrix4 lookAt).
Local Abbreviation update_all' := (update_all Matrix4 invert applyMatrix4 lookAt).
Local Abbreviation target_of' := (target_of Matrix4 invert applyMatrix4).

(** A frame of [q] leaves the vectors of a particle apart from it, and so
    the value of that particle's target, as they were. *)
Lemma update_other G dt mode focus p q h :
  (forall r, In r (cells p) -> ~ In r (cells q)) ->
  (forall r, In r (cells p) -> cell (snd (update' G dt mode focus q h)) r = cell h r) /\
  rd (snd (update' G dt mode focus q h)) (target_of' G mode focus p)
  = rd h (target_of' G mode focus p).
Proof.
  intros Hap.
  assert (Hcells : forall r, In r (cells p) ->
            cell (snd (update' G dt mode focus q h)) r = cell h r).
  { intros r Hr. specialize (Hap r Hr).
    apply (update_frame Matrix4 invert applyMatrix4 lookAt);
      intros ->; apply Hap; apply in_mesh_cells_cells; simpl; auto. }
  split; [exact Hcells |].
  unfold target_of.
  destruct (Mode_eqb mode FOCUS); [destruct (is_focus p focus) |];
    [reflexivity | |];
    [| destruct (Mode_eqb mode SCATTER)];
    cbn [rd]; apply Hcells; apply in_target_cells_cells; simpl; auto.
Qed.

Lemma update_all_each G dt mode focus ps : forall h p,
  NoDup (flat_map cells ps) -> In p ps ->
  cell (snd (update_all' G dt mode focus ps h)) (Mesh.position (Particle.mesh p))
  = cell (snd (update' G dt mode focus p h)) (Mesh.position (Particle.mesh p)) /\
  cell (snd (update_all' G dt mode focus ps h)) (Mesh.scale (Particle.mesh p))
  = cell (snd (update' G dt mode focus p h)) (Mesh.scale (Particle.mesh p)).
Proof.
  induction ps as [| q ps IH]; intros h p Hnd Hp; [destruct Hp |].
  destruct (NoDup_cells_head q ps Hnd) as (Hq & Hps & Hap).
  rewrite (update_all_cons Matrix4 invert applyMatrix4 lookAt). cbn [snd].
  destruct Hp as [-> | Hp].
  - assert (Hfr : forall r, In r (mesh_cells (Particle.mesh p)) ->
              forall q', In q' ps -> ~ In r (mesh_cells (Particle.mesh q'))).
    { intros r Hr q' Hq' Hin.
      apply (Hap q' r Hq'); [now apply in_mesh_cells_cells |].
      now apply in_mesh_cells_cells. }
    split; apply (update_all_frame Matrix4 invert applyMatrix4 lookAt);
      apply Hfr; simpl; auto.
  - destruct (IH (snd (update' G dt mode focus q h)) p Hps Hp) as [Epos Escale].
    rewrite Epos, Escale.
    assert (Hwf : well_formed p).
    { apply cells_NoDup_well_formed.
      apply in_split in Hp. destruct Hp as (l1 & l2 & ->).
      rewrite flat_map_app in Hps. cbn [flat_map] in Hps.
      apply NoDup_app_remove_l in Hps. now apply NoDup_app_remove_r in Hps. }
    destruct (update_other G dt mode focus p q h (fun r Hr => Hap p r Hp Hr))
      as [Hcells Htarget].
    split.
    + rewrite !(update_position Matrix4 invert applyMatrix4 lookAt) by exact Hwf.
      rewrite Htarget, Hcells by (apply in_mesh_cells_cells; simpl; auto).
      reflexivity.
    + rewrite !(update_scale Matrix4 invert applyMatrix4 lookAt) by exact Hwf.
      cbv zeta.
      rewrite Hcells by (apply in_mesh_cells_cells; simpl; auto).
      reflexivity.
Qed.

(** X30. The loop over the particle system treats each particle on its
    own. When the particle system owns its vectors, the position and the
    scale every particle has after
    [particleSystem.forEach(p => p.update(...))] are those its own update
    gives on the heap of before the loop: the order of the particles does
    not matter. *)
Theorem forEach_updates_each_alone G dt mode focus ps h p :
  scene_ok ps h -> In p ps ->
  cell (snd (update_all' G dt mode focus ps h)) (Mesh.position (Particle.mesh p))
  = cell (snd (update' G dt mode focus p h)) (Mesh.position (Particle.mesh p)) /\
  cell (snd (update_all' G dt mode focus ps h)) (Mesh.scale (Particle.mesh p))
  = cell (snd (update' G dt mode focus p h)) (Mesh.scale (Particle.mesh p)).
Proof.
  intros [Hnd _] Hp. now apply update_all_each.
Qed.

End ForEach.

Lemma forEach_updates_each_alone_witness :
  cell (snd (update_all unit (fun m => m) (fun v _ => v) (fun _ _ _ v => v)
               globals0 0.016 SCATTER None (W_particleSystem world1)
               (W_heap world1)))
       (Mesh.position (Particle.mesh photo0))
  = cell (snd (update unit (fun m => m) (fun v _ => v) (fun _ _ _ v => v)
                 globals0 0.016 SCATTER None photo0 (W_heap world1)))
         (Mesh.position (Particle.mesh photo0)) /\
  cell (snd (update_all unit (fun m => m) (fun v _ => v) (fun _ _ _ v => v)
               globals0 0.016 SCATTER None (W_particleSystem world1)
               (W_heap world1)))
       (Mesh.scale (Particle.mesh photo0))
  = cell (snd (update unit (fun m => m) (fun v _ => v) (fun _ _ _ v => v)
                 globals0 0.016 SCATTER None photo0 (W_heap world1)))
         (Mesh.scale (Particle.mesh photo0)).
Proof.
  apply (forEach_updates_each_alone unit (fun m => m) (fun v _ => v)
           (fun _ _ _ v => v) globals0 0.016 SCATTER None
           (W_particleSystem world1) (W_heap world1) photo0).
  - split.
    + simpl. repeat constructor; simpl; intuition discriminate.
    + simpl. repeat constructor; lia.
  - simpl. now left.
Defined.
